(** * til::ticket_lock and til::recursive_ticket_lock

    A model of the two locks of [WindowEmperor.h] (namespace [til]) and of
    the suspension token of the recursive lock.

    The code is embedded as small programs over atomic actions.  Every
    atomic operation and every plain access of the C++ source is one
    action; a thread is a residual program, and threads interleave one
    action at a time over one shared memory (sequentially consistent
    interleaving; the memory order written in the source is carried by
    each action so that it can be stated, but it does not weaken the
    semantics). *)

From Stdlib Require Import ZArith List Lia Bool.
Import ListNotations.
Open Scope Z_scope.

Set Implicit Arguments.

(** ** Data *)

(** [GetCurrentThreadId()]: a 32-bit identifier, never 0 for a thread. *)
Definition tid := Z.

Definition valid_tid (t : tid) : Prop := 0 < t < 2 ^ 32.

(** [uint32_t] arithmetic wraps. *)
Definition wrap32 (z : Z) : Z := z mod 2 ^ 32.

(** The shared memory.  [_next_ticket] and [_now_serving] are the two
    atomics of [ticket_lock] (the member [_lock] of the recursive lock),
    [_owner] and [_recursion] the two further members of
    [recursive_ticket_lock].  [counter] is the shared variable of the
    mutual-exclusion test, an unbounded integer guarded by the lock. *)
Record mem : Type := mkMem {
  _next_ticket : Z;
  _now_serving : Z;
  _owner : Z;
  _recursion : Z;
  counter : Z
}.

(** A freshly constructed lock (lines 117, 118, 235, 236). *)
Definition fresh : mem := mkMem 0 0 0 0 0.

Inductive loc : Type :=
| l_next_ticket
| l_now_serving
| l_owner
| l_recursion
| l_counter.

Definition loc_eqb (a b : loc) : bool :=
  match a, b with
  | l_next_ticket, l_next_ticket
  | l_now_serving, l_now_serving
  | l_owner, l_owner
  | l_recursion, l_recursion
  | l_counter, l_counter => true
  | _, _ => false
  end.

Definition rd (l : loc) (m : mem) : Z :=
  match l with
  | l_next_ticket => _next_ticket m
  | l_now_serving => _now_serving m
  | l_owner => _owner m
  | l_recursion => _recursion m
  | l_counter => counter m
  end.

(** A write keeps the width of the cell: the four lock members are
    [uint32_t], the test counter is not bounded. *)
Definition wr (l : loc) (v : Z) (m : mem) : mem :=
  match l with
  | l_next_ticket => mkMem (wrap32 v) (_now_serving m) (_owner m) (_recursion m) (counter m)
  | l_now_serving => mkMem (_next_ticket m) (wrap32 v) (_owner m) (_recursion m) (counter m)
  | l_owner => mkMem (_next_ticket m) (_now_serving m) (wrap32 v) (_recursion m) (counter m)
  | l_recursion => mkMem (_next_ticket m) (_now_serving m) (_owner m) (wrap32 v) (counter m)
  | l_counter => mkMem (_next_ticket m) (_now_serving m) (_owner m) (_recursion m) v
  end.

(** [std::memory_order] as written at each atomic operation. *)
Inductive memory_order : Type :=
| memory_order_relaxed
| memory_order_acquire
| memory_order_release.

(** ** Actions *)

(** One constructor per kind of shared access in the source.  [read] and
    [write] are the plain accesses ([_recursion], the test counter). *)
Inductive action : Type :=
| fetch_add (l : loc) (n : Z) (o : memory_order)
| load (l : loc) (o : memory_order)
| store (l : loc) (v : Z) (o : memory_order)
| read (l : loc)
| write (l : loc) (v : Z)
| atomic_wait (l : loc) (current : Z)
| atomic_notify_one (l : loc).

(** The effect of an action on the memory and the value it yields.
    [fetch_add] yields the value before the addition. *)
Definition act (a : action) (m : mem) : mem * Z :=
  match a with
  | fetch_add l n _ => (wr l (rd l m + n) m, rd l m)
  | load l _ => (m, rd l m)
  | store l v _ => (wr l v m, 0)
  | read l => (m, rd l m)
  | write l v => (wr l v m, 0)
  | atomic_wait _ _ => (m, 0)
  | atomic_notify_one _ => (m, 0)
  end.

(** ** Programs *)

(** The body of a loop: straight-line code ending in the new value of the
    loop variable. *)
Inductive block : Type :=
| BRet (v : Z)
| BDo (a : action) (k : Z -> block).

(** A program returning an [A].  [Loop cur body cond k] is a
    [do { body } while (cond)] loop in the middle of an iteration: [cur]
    is what is left of the current round. *)
Inductive prog (A : Type) : Type :=
| Ret (a : A)
| Do (a : action) (k : Z -> prog A)
| Loop (cur : block) (body : Z -> block) (cond : Z -> bool) (k : Z -> prog A).

Arguments Ret {A} a.
Arguments Do {A} a k.
Arguments Loop {A} cur body cond k.

Fixpoint bind {A B : Type} (p : prog A) (f : A -> prog B) : prog B :=
  match p with
  | Ret a => f a
  | Do a k => Do a (fun r => bind (k r) f)
  | Loop cur body cond k => Loop cur body cond (fun r => bind (k r) f)
  end.

Notation "x <- p ;; q" := (bind p (fun x => q))
  (at level 61, p at next level, right associativity).
Notation "p ;; q" := (bind p (fun _ => q))
  (at level 61, right associativity).

Definition perform (a : action) : prog Z := Do a Ret.

Definition perform_ (a : action) : prog unit := Do a (fun _ => Ret tt).

Definition do_while (body : Z -> block) (cond : Z -> bool) (init : Z) : prog Z :=
  Loop (body init) body cond Ret.

(** ** til::ticket_lock (lines 80-119) *)

Module ticket_lock.

(** Lines 100-107: [do { atomic_wait; current = load } while (current != ticket)]. *)
Definition _lockSlow (ticket current : Z) : prog unit :=
  do_while
    (fun current =>
       BDo (atomic_wait l_now_serving current) (fun _ =>
       BDo (load l_now_serving memory_order_acquire) (fun current =>
       BRet current)))
    (fun current => negb (current =? ticket))
    current ;;
  Ret tt.

(** Lines 82-91. *)
Definition lock : prog unit :=
  ticket <- perform (fetch_add l_next_ticket 1 memory_order_relaxed) ;;
  current <- perform (load l_now_serving memory_order_acquire) ;;
  if negb (ticket =? current) then _lockSlow ticket current else Ret tt.

(** Lines 93-97. *)
Definition unlock : prog unit :=
  perform_ (fetch_add l_now_serving 1 memory_order_release) ;;
  perform_ (atomic_notify_one l_now_serving).

End ticket_lock.

(** ** til::recursive_ticket_lock (lines 141-237) *)

(** The suspension token: the two captured members (lines 178, 179).  The
    reference [_lock] is the one lock of the memory. *)
Record recursive_ticket_lock_suspension : Type := mkSuspension {
  s_owner : Z;
  s_recursion : Z
}.

Module recursive_ticket_lock.

(** Lines 182-193.  [id] is [GetCurrentThreadId()]. *)
Definition lock (id : tid) : prog unit :=
  o <- perform (load l_owner memory_order_relaxed) ;;
  (if negb (o =? id)
   then ticket_lock.lock ;; perform_ (store l_owner id memory_order_relaxed)
   else Ret tt) ;;
  r <- perform (read l_recursion) ;;
  perform_ (write l_recursion (r + 1)).

(** Lines 195-202.  [--_recursion] yields the decremented 32-bit value. *)
Definition unlock : prog unit :=
  r <- perform (read l_recursion) ;;
  perform_ (write l_recursion (r - 1)) ;;
  if wrap32 (r - 1) =? 0
  then perform_ (store l_owner 0 memory_order_relaxed) ;; ticket_lock.unlock
  else Ret tt.

(** Lines 204-220. *)
Definition suspend (id : tid) : prog recursive_ticket_lock_suspension :=
  o <- perform (load l_owner memory_order_relaxed) ;;
  if o =? id
  then
    r <- perform (read l_recursion) ;;
    perform_ (store l_owner 0 memory_order_relaxed) ;;
    perform_ (write l_recursion 0) ;;
    ticket_lock.unlock ;;
    Ret (mkSuspension id r)
  else Ret (mkSuspension 0 0).

(** Lines 159-172: the destructor of the token. *)
Definition destroy (s : recursive_ticket_lock_suspension) : prog unit :=
  if negb (s_owner s =? 0)
  then
    o <- perform (load l_owner memory_order_relaxed) ;;
    (if negb (o =? s_owner s)
     then ticket_lock.lock ;; perform_ (store l_owner (s_owner s) memory_order_relaxed)
     else Ret tt) ;;
    r <- perform (read l_recursion) ;;
    perform_ (write l_recursion (r + s_recursion s))
  else Ret tt.

(** Lines 222-226.  The result type is [uint32_t]: 1 for true. *)
Definition is_locked (id : tid) : prog Z :=
  o <- perform (load l_owner memory_order_relaxed) ;;
  Ret (if o =? id then 1 else 0).

(** Lines 228-231. *)
Definition recursion_depth (id : tid) : prog Z :=
  b <- is_locked id ;;
  if negb (b =? 0) then perform (read l_recursion) else Ret 0.

End recursive_ticket_lock.

(** ** One step of one thread *)

(** What a step shows: an action with the value it yielded, or the test of
    a loop condition. *)
Inductive event : Type :=
| Ev (a : action) (r : Z)
| Tau.

Inductive tres (A : Type) : Type :=
| Finished (a : A)
| Step (e : event) (m' : mem) (p' : prog A).

Arguments Finished {A} a.
Arguments Step {A} e m' p'.

Definition thread_step {A : Type} (p : prog A) (m : mem) : tres A :=
  match p with
  | Ret a => Finished a
  | Do a k => Step (Ev a (snd (act a m))) (fst (act a m)) (k (snd (act a m)))
  | Loop (BRet v) body cond k =>
      Step Tau m (if cond v then Loop (body v) body cond k else k v)
  | Loop (BDo a kb) body cond k =>
      Step (Ev a (snd (act a m))) (fst (act a m)) (Loop (kb (snd (act a m))) body cond k)
  end.

(** Modelled from the spec: [til::atomic_wait] and [til::atomic_notify_one]
    are declared in [atomic.h], which is not part of the sources at hand.
    The spec has [atomic_wait(a, current)] block until the value of [a] is
    observed to differ from [current], and [atomic_notify_one(a)] wake one
    thread blocked on [a].  So a wait whose cell still holds [current]
    parks the calling thread on that cell; any other wait returns at once. *)
Definition parks (e : event) (m : mem) : option loc :=
  match e with
  | Ev (atomic_wait l current) _ => if rd l m =? current then Some l else None
  | _ => None
  end.

Definition notifies (e : event) : option loc :=
  match e with
  | Ev (atomic_notify_one l) _ => Some l
  | _ => None
  end.

(** ** A thread running alone *)

(** The run of a program by a thread with no other thread around: a wait
    that parks is never woken, so the call blocks. *)
Inductive outcome (A : Type) : Type :=
| Returned (a : A) (m : mem) (evs : list event)
| Blocked (m : mem) (evs : list event)
| OutOfFuel.

Arguments Returned {A} a m evs.
Arguments Blocked {A} m evs.
Arguments OutOfFuel {A}.

Definition prepend {A : Type} (e : event) (o : outcome A) : outcome A :=
  match o with
  | Returned a m evs => Returned a m (e :: evs)
  | Blocked m evs => Blocked m (e :: evs)
  | OutOfFuel => OutOfFuel
  end.

Fixpoint solo {A : Type} (fuel : nat) (p : prog A) (m : mem) : outcome A :=
  match fuel with
  | O => OutOfFuel
  | S n =>
      match thread_step p m with
      | Finished a => Returned a m []
      | Step e m' p' =>
          match parks e m with
          | Some _ => Blocked m' [e]
          | None => prepend e (solo n p' m')
          end
      end
  end.

(** [runs p m a m' evs]: started in [m], a thread running [p] alone
    returns [a], leaves the memory [m'] and has done [evs].
    [stalls p m m' evs]: it parks for good instead. *)
Definition runs {A : Type} (p : prog A) (m : mem) (a : A) (m' : mem)
  (evs : list event) : Prop :=
  exists fuel, solo fuel p m = Returned a m' evs.

Definition stalls {A : Type} (p : prog A) (m m' : mem) (evs : list event) : Prop :=
  exists fuel, solo fuel p m = @Blocked A m' evs.

(** The actions of a run that touch the inner ticket lock. *)
Definition on_ticket_lock (e : event) : bool :=
  match e with
  | Ev (fetch_add l _ _) _ | Ev (load l _) _ | Ev (store l _ _) _
  | Ev (read l) _ | Ev (write l _) _
  | Ev (atomic_wait l _) _ | Ev (atomic_notify_one l) _ =>
      loc_eqb l l_next_ticket || loc_eqb l l_now_serving
  | Tau => false
  end.

(** ** Threads interleaved *)

Inductive tstate : Type :=
| Running (p : prog unit)
| Sleeping (l : loc) (p : prog unit).

Record config : Type := mkConfig {
  c_mem : mem;
  c_pool : tid -> tstate
}.

Definition upd (pool : tid -> tstate) (t : tid) (s : tstate) : tid -> tstate :=
  fun u => if u =? t then s else pool u.

Definition sleeping_on (l : loc) (s : tstate) : bool :=
  match s with
  | Sleeping l' _ => loc_eqb l l'
  | Running _ => false
  end.

Definition wake (s : tstate) : tstate :=
  match s with
  | Sleeping _ p => Running p
  | Running p => Running p
  end.

Inductive label : Type :=
| Did (t : tid) (e : event)
| WokeUp (t : tid).

(** One step of thread [t] among the threads [ts].  A wait that parks
    puts the thread to sleep.  [w] is the thread a notify wakes (the other
    half of what is modelled from the spec, see [parks]): it must be a
    thread parked on the cell, and it may be left out only when no thread
    is parked there.  A parked thread may also resume by itself (a
    spurious wake-up, which the loop of [_lockSlow] is written to
    survive); allowing it only adds runs. *)
Definition sched (ts : list tid) (t : tid) (w : option tid) (c : config)
  : option (label * config) :=
  match c_pool c t with
  | Sleeping _ p =>
      match w with
      | None => Some (WokeUp t, mkConfig (c_mem c) (upd (c_pool c) t (Running p)))
      | Some _ => None
      end
  | Running p =>
      match thread_step p (c_mem c) with
      | Finished _ => None
      | Step e m' p' =>
          match notifies e with
          | Some l =>
              match w with
              | Some u =>
                  if existsb (Z.eqb u) ts && sleeping_on l (c_pool c u)
                  then Some (Did t e,
                             mkConfig m' (upd (upd (c_pool c) t (Running p')) u
                                              (wake (c_pool c u))))
                  else None
              | None =>
                  if existsb (fun u => sleeping_on l (c_pool c u)) ts
                  then None
                  else Some (Did t e, mkConfig m' (upd (c_pool c) t (Running p')))
              end
          | None =>
              match w with
              | Some _ => None
              | None =>
                  Some (Did t e,
                        mkConfig m' (upd (c_pool c) t
                                         (match parks e (c_mem c) with
                                          | Some l => Sleeping l p'
                                          | None => Running p'
                                          end)))
              end
          end
      end
  end.

Definition step (ts : list tid) (c : config) (lab : label) (c' : config) : Prop :=
  exists t w, In t ts /\ sched ts t w c = Some (lab, c').

(** A step as it is recorded in a trace: the configurations around it. *)
Record moment : Type := mkMoment {
  before : config;
  did : label;
  after : config
}.

Definition actor (lab : label) : tid :=
  match lab with
  | Did t _ => t
  | WokeUp t => t
  end.

(** [exec ts c0 tr c]: the threads [ts] take [c0] to [c] by the steps
    [tr] (oldest first). *)
Inductive exec (ts : list tid) (c0 : config) : list moment -> config -> Prop :=
| exec_init : exec ts c0 [] c0
| exec_step : forall tr c lab c',
    exec ts c0 tr c -> step ts c lab c' ->
    exec ts c0 (tr ++ [mkMoment c lab c']) c'.

(** A schedule run as a function: the list of (thread, woken thread). *)
Fixpoint run (ts : list tid) (s : list (tid * option tid)) (c : config)
  : option (list moment * config) :=
  match s with
  | [] => Some ([], c)
  | (t, w) :: s' =>
      if existsb (Z.eqb t) ts
      then match sched ts t w c with
           | Some (lab, c') =>
               match run ts s' c' with
               | Some (tr, c'') => Some (mkMoment c lab c' :: tr, c'')
               | None => None
               end
           | None => None
           end
      else None
  end.

(** ** The mutual-exclusion test *)

(** Modelled from the spec: the test of its mutual-exclusion property
    (the lock's own tests are not among the sources).  A thread runs [K]
    rounds of [lock(); counter += 1; unlock();], the increment being a
    plain read followed by a plain write. *)
Fixpoint worker (K : nat) : prog unit :=
  match K with
  | O => Ret tt
  | S K' =>
      ticket_lock.lock ;;
      c <- perform (read l_counter) ;;
      perform_ (write l_counter (c + 1)) ;;
      ticket_lock.unlock ;;
      worker K'
  end.

(** Thread [t] runs [iters t] rounds. *)
Definition start (iters : tid -> nat) : config :=
  mkConfig fresh (fun t => Running (worker (iters t))).

Definition finished (s : tstate) : bool :=
  match s with
  | Running (Ret _) => true
  | _ => false
  end.

Definition all_finished (ts : list tid) (c : config) : Prop :=
  forall t, In t ts -> finished (c_pool c t) = true.

(** Inside the critical section: the next action is an access of the
    counter. *)
Definition in_cs (s : tstate) : bool :=
  match s with
  | Running (Do (read l_counter) _) => true
  | Running (Do (write l_counter _) _) => true
  | _ => false
  end.

(** Between the return of [lock()] and the increment of [unlock()]: the
    next action is an access of the counter or that increment. *)
Definition holding (s : tstate) : bool :=
  match s with
  | Running (Do (read l_counter) _) => true
  | Running (Do (write l_counter _) _) => true
  | Running (Do (fetch_add l_now_serving _ _) _) => true
  | _ => false
  end.

(** The three things a trace tells about the lock.  A ticket is drawn by
    the [fetch_add] on [_next_ticket]; the pair is the thread and the
    ticket it got.  A thread enters when its [lock()] returns, that is
    when a step of its own takes it from not holding to holding; the pair
    is the thread and [_now_serving] at that moment.  The lock is released
    by the [fetch_add] on [_now_serving]. *)
Definition draw_of (x : moment) : list (tid * Z) :=
  match did x with
  | Did t (Ev (fetch_add l_next_ticket _ _) r) => [(t, r)]
  | _ => []
  end.

Definition entry_of (x : moment) : list (tid * Z) :=
  let t := actor (did x) in
  if negb (holding (c_pool (before x) t)) && holding (c_pool (after x) t)
  then [(t, _now_serving (c_mem (after x)))]
  else [].

Definition release_of (x : moment) : list tid :=
  match did x with
  | Did t (Ev (fetch_add l_now_serving _ _) _) => [t]
  | _ => []
  end.

Definition draws (tr : list moment) : list (tid * Z) := flat_map draw_of tr.
Definition entries (tr : list moment) : list (tid * Z) := flat_map entry_of tr.
Definition releases (tr : list moment) : list tid := flat_map release_of tr.

(** ** States and scenarios of the recursive lock *)

(** The four lock members hold 32-bit values. *)
Definition wf (m : mem) : Prop :=
  0 <= _next_ticket m < 2 ^ 32 /\ 0 <= _now_serving m < 2 ^ 32 /\
  0 <= _owner m < 2 ^ 32 /\ 0 <= _recursion m < 2 ^ 32.

(** Nobody holds the lock and no ticket is outstanding. *)
Definition free (m : mem) : Prop :=
  wf m /\ _owner m = 0 /\ _recursion m = 0 /\ _next_ticket m = _now_serving m.

(** Thread [t] holds the lock at depth [d]: it has the turn of the inner
    ticket lock, and no other ticket has been drawn behind it. *)
Definition held_by (t : tid) (d : Z) (m : mem) : Prop :=
  wf m /\ valid_tid t /\ _owner m = t /\ _recursion m = d /\ 0 < d /\
  _next_ticket m = wrap32 (_now_serving m + 1).

(** [p], [k] times in a row. *)
Definition times (k : N) (p : prog unit) : prog unit :=
  N.iter k (fun q => p ;; q) (Ret tt).

(** What the two observers report to thread [id]. *)
Definition observe (id : tid) : prog (Z * Z) :=
  l <- recursive_ticket_lock.is_locked id ;;
  d <- recursive_ticket_lock.recursion_depth id ;;
  Ret (l, d).

(** [{ auto s = suspend(); }]: the token dies at once. *)
Definition suspend_resume (id : tid) : prog (Z * Z) :=
  s <- recursive_ticket_lock.suspend id ;;
  recursive_ticket_lock.destroy s ;;
  observe id.

(** [{ auto s = suspend(); lock(); unlock(); }]. *)
Definition suspend_reenter (id : tid) : prog (Z * Z) :=
  s <- recursive_ticket_lock.suspend id ;;
  recursive_ticket_lock.lock id ;;
  recursive_ticket_lock.unlock ;;
  recursive_ticket_lock.destroy s ;;
  observe id.

(** [{ auto s1 = suspend(); { auto s2 = suspend(); } }]: the tokens die in
    the reverse order of their creation. *)
Definition suspend_twice (id : tid)
  : prog (recursive_ticket_lock_suspension * recursive_ticket_lock_suspension * (Z * Z)) :=
  s1 <- recursive_ticket_lock.suspend id ;;
  s2 <- recursive_ticket_lock.suspend id ;;
  recursive_ticket_lock.destroy s2 ;;
  recursive_ticket_lock.destroy s1 ;;
  od <- observe id ;;
  Ret (s1, s2, od).

(** [k] calls of [lock], a look, [k] calls of [unlock], a look. *)
Definition lock_unlock_times (k : N) (id : tid) : prog (Z * (Z * Z)) :=
  times k (recursive_ticket_lock.lock id) ;;
  d <- recursive_ticket_lock.recursion_depth id ;;
  times k recursive_ticket_lock.unlock ;;
  od <- observe id ;;
  Ret (d, od).

(** Events that only look at the memory. *)
Definition observation (e : event) : bool :=
  match e with
  | Ev (load _ _) _ | Ev (read _) _ | Tau => true
  | _ => false
  end.

(** The releases of the inner ticket lock among the events of a run. *)
Definition inner_unlocks (evs : list event) : nat :=
  length (filter (fun e =>
                    match e with
                    | Ev (fetch_add l_now_serving 1 memory_order_release) _ => true
                    | _ => false
                    end) evs).

(** ** Sequences of calls on the recursive lock *)

(** The lock and, for each thread, the tokens it holds (newest first). *)
Record rstate : Type := mkRstate {
  r_mem : mem;
  r_tokens : tid -> list recursive_ticket_lock_suspension
}.

Definition set_tokens (f : tid -> list recursive_ticket_lock_suspension)
  (t : tid) (l : list recursive_ticket_lock_suspension) :=
  fun u => if u =? t then l else f u.

Inductive call : Type :=
| call_lock
| call_unlock
| call_suspend
| call_destroy.

(** One completed call of thread [t].  The contract: [unlock] is called
    by the thread that holds the lock, and a token is destroyed by the
    thread that got it from [suspend].  A call that blocks completes
    when the lock has been released, which is where it stands in the
    sequence. *)
Inductive rstep (t : tid) : call -> rstate -> rstate -> Prop :=
| rstep_lock : forall st m' evs,
    runs (recursive_ticket_lock.lock t) (r_mem st) tt m' evs ->
    rstep t call_lock st (mkRstate m' (r_tokens st))
| rstep_unlock : forall st m' evs,
    _owner (r_mem st) = t ->
    runs recursive_ticket_lock.unlock (r_mem st) tt m' evs ->
    rstep t call_unlock st (mkRstate m' (r_tokens st))
| rstep_suspend : forall st s m' evs,
    runs (recursive_ticket_lock.suspend t) (r_mem st) s m' evs ->
    rstep t call_suspend st
      (mkRstate m' (set_tokens (r_tokens st) t (s :: r_tokens st t)))
| rstep_destroy : forall st s rest m' evs,
    r_tokens st t = s :: rest ->
    runs (recursive_ticket_lock.destroy s) (r_mem st) tt m' evs ->
    rstep t call_destroy st (mkRstate m' (set_tokens (r_tokens st) t rest)).

Definition constructed : rstate := mkRstate fresh (fun _ => []).

Inductive reachable : rstate -> Prop :=
| reach_constructed : reachable constructed
| reach_step : forall st t c st',
    reachable st -> valid_tid t -> rstep t c st st' -> reachable st'.

(** A call keeps the count within 32 bits: the sum it stores is the sum
    it computed. *)
Definition no_wrap (t : tid) (c : call) (st st' : rstate) : Prop :=
  match c with
  | call_lock => _recursion (r_mem st') = _recursion (r_mem st) + 1
  | call_destroy =>
      match r_tokens st t with
      | s :: _ => _recursion (r_mem st') = _recursion (r_mem st) + s_recursion s
      | [] => True
      end
  | _ => True
  end.

Inductive reachable_no_wrap : rstate -> Prop :=
| reach_nw_constructed : reachable_no_wrap constructed
| reach_nw_step : forall st t c st',
    reachable_no_wrap st -> valid_tid t -> rstep t c st st' ->
    no_wrap t c st st' -> reachable_no_wrap st'.

(** [recursion > 0] iff [owner != none]. *)
Definition lock_invariant (m : mem) : Prop :=
  0 < _recursion m <-> _owner m <> 0.

(** Every token at hand was captured from an owning thread at a positive
    depth, or is empty. *)
Definition token_ok (s : recursive_ticket_lock_suspension) : Prop :=
  (s_owner s = 0 /\ s_recursion s = 0) \/
  (valid_tid (s_owner s) /\ 0 < s_recursion s).

Definition good (st : rstate) : Prop :=
  lock_invariant (r_mem st) /\ 0 <= _recursion (r_mem st) /\
  forall t s, In s (r_tokens st t) -> token_ok s.

(** ** Program points of the test *)

(** The ticket with running number [g]. *)
Definition ticket_no (g : nat) : Z := wrap32 (Z.of_nat g).

(** Where a thread of the test stands.  [k] is the number of rounds left
    after the present one; [g] is the running number of the ticket the
    thread drew for the present round. *)
Inductive pc : Type :=
| PIdle (k : nat)
| PDrawn (g k : nat)
| PWait (g : nat) (current : Z) (k : nat)
| PSleep (g k : nat)
| PReload (g k : nat)
| PTest (g : nat) (current : Z) (k : nat)
| PRead (g k : nat)
| PWrite (g : nat) (v : Z) (k : nat)
| PRelease (g k : nat)
| PNotify (k : nat).

(** A round after [lock()] has returned. *)
Definition critical (k : nat) : prog unit :=
  c <- perform (read l_counter) ;;
  perform_ (write l_counter (c + 1)) ;;
  ticket_lock.unlock ;;
  worker k.

(** Inside the loop of [_lockSlow], [cur] being left of the round. *)
Definition in_loop (cur : block) (g k : nat) : prog unit :=
  Loop cur
    (fun current =>
       BDo (atomic_wait l_now_serving current) (fun _ =>
       BDo (load l_now_serving memory_order_acquire) (fun current =>
       BRet current)))
    (fun current => negb (current =? ticket_no g))
    (fun _ => critical k).

Definition code (p : pc) : tstate :=
  match p with
  | PIdle k => Running (worker k)
  | PDrawn g k =>
      Running
        ((current <- perform (load l_now_serving memory_order_acquire) ;;
          if negb (ticket_no g =? current)
          then ticket_lock._lockSlow (ticket_no g) current
          else Ret tt) ;;
         critical k)
  | PWait g current k =>
      Running (ticket_lock._lockSlow (ticket_no g) current ;; critical k)
  | PSleep g k =>
      Sleeping l_now_serving
        (in_loop (BDo (load l_now_serving memory_order_acquire)
                      (fun current => BRet current)) g k)
  | PReload g k =>
      Running
        (in_loop (BDo (load l_now_serving memory_order_acquire)
                      (fun current => BRet current)) g k)
  | PTest g current k => Running (in_loop (BRet current) g k)
  | PRead g k => Running (critical k)
  | PWrite g v k =>
      Running (perform_ (write l_counter (v + 1)) ;; ticket_lock.unlock ;; worker k)
  | PRelease g k => Running (ticket_lock.unlock ;; worker k)
  | PNotify k =>
      Running (perform_ (atomic_notify_one l_now_serving) ;; worker k)
  end.

Definition ticket_of (p : pc) : option nat :=
  match p with
  | PIdle _ | PNotify _ => None
  | PDrawn g _ | PWait g _ _ | PSleep g _ | PReload g _ | PTest g _ _
  | PRead g _ | PWrite g _ _ | PRelease g _ => Some g
  end.

Definition has_ticket (p : pc) : nat :=
  match ticket_of p with
  | Some _ => 1
  | None => 0
  end.

Definition holder (p : pc) : bool :=
  match p with
  | PRead _ _ | PWrite _ _ _ | PRelease _ _ => true
  | _ => false
  end.

(** Rounds not yet completed (a round is completed by its release). *)
Definition remaining (p : pc) : nat :=
  match p with
  | PIdle k | PNotify k => k
  | PDrawn _ k | PWait _ _ k | PSleep _ k | PReload _ k | PTest _ _ k
  | PRead _ k | PWrite _ _ k | PRelease _ k => S k
  end.

Definition total (f : tid -> nat) (ts : list tid) : nat :=
  list_sum (map f ts).

Definition set_pc (ap : tid -> pc) (t : tid) (p : pc) : tid -> pc :=
  fun u => if u =? t then p else ap u.

(** What is known of thread [t] at its program point, [s] tickets having
    been served and [i] drawn by the threads [drawers] (in this order),
    the counter being [cnt]. *)
Definition thread_ok (s i : nat) (drawers : list tid) (cnt : Z)
  (t : tid) (p : pc) : Prop :=
  match p with
  | PIdle _ | PNotify _ => True
  | PDrawn g _ | PWait g _ _ | PSleep g _ | PReload g _ =>
      (s <= g < i)%nat /\ nth_error drawers g = Some t
  | PTest g current _ =>
      ((s <= g < i)%nat /\ nth_error drawers g = Some t) /\
      (current = ticket_no g -> g = s)
  | PRead g _ =>
      g = s /\ nth_error drawers s = Some t /\ cnt = Z.of_nat s
  | PWrite g v _ =>
      g = s /\ nth_error drawers s = Some t /\ cnt = Z.of_nat s /\ v = cnt
  | PRelease g _ =>
      g = s /\ nth_error drawers s = Some t /\ cnt = Z.of_nat s + 1
  end.

(** The invariant of the test, for the trace [tr] that led to [c]. *)
Record test_invariant (ts : list tid) (iters : tid -> nat)
  (tr : list moment) (c : config) (ap : tid -> pc) : Prop := mkInv {
  inv_code : forall t, c_pool c t = code (ap t);
  inv_next : _next_ticket (c_mem c) = ticket_no (length (draws tr));
  inv_serving : _now_serving (c_mem c) = ticket_no (length (releases tr));
  inv_threads : forall t,
      thread_ok (length (releases tr)) (length (draws tr))
        (map fst (draws tr)) (counter (c_mem c)) t (ap t);
  inv_outstanding :
    length (draws tr) =
    (length (releases tr) + total (fun t => has_ticket (ap t)) ts)%nat;
  inv_rounds :
    (length (releases tr) + total (fun t => remaining (ap t)) ts)%nat =
    total iters ts;
  inv_draws : map snd (draws tr) = map ticket_no (seq 0 (length (draws tr)));
  inv_entries_who :
    map fst (entries tr) = firstn (length (entries tr)) (map fst (draws tr));
  inv_entries_when :
    map snd (entries tr) = map ticket_no (seq 0 (length (entries tr)));
  inv_releases : releases tr = firstn (length (releases tr)) (map fst (draws tr));
  inv_holder :
    (length (entries tr) = length (releases tr) /\
     (forall t, holder (ap t) = false) /\
     counter (c_mem c) = Z.of_nat (length (releases tr))) \/
    (length (entries tr) = S (length (releases tr)) /\
     exists t, holder (ap t) = true)
}.

(** The moves of a thread of the test: from a program point, by an event,
    to a memory and a program point.  [i] is the number of tickets drawn
    so far. *)
Inductive moves (i : nat) (m : mem) : pc -> event -> mem -> pc -> Prop :=
| mv_draw : forall k,
    moves i m (PIdle (S k))
      (Ev (fetch_add l_next_ticket 1 memory_order_relaxed) (_next_ticket m))
      (wr l_next_ticket (_next_ticket m + 1) m) (PDrawn i k)
| mv_fast : forall g k,
    _now_serving m = ticket_no g ->
    moves i m (PDrawn g k)
      (Ev (load l_now_serving memory_order_acquire) (_now_serving m))
      m (PRead g k)
| mv_slow : forall g k,
    _now_serving m <> ticket_no g ->
    moves i m (PDrawn g k)
      (Ev (load l_now_serving memory_order_acquire) (_now_serving m))
      m (PWait g (_now_serving m) k)
| mv_pass : forall g current k,
    _now_serving m <> current ->
    moves i m (PWait g current k) (Ev (atomic_wait l_now_serving current) 0)
      m (PReload g k)
| mv_park : forall g current k,
    _now_serving m = current ->
    moves i m (PWait g current k) (Ev (atomic_wait l_now_serving current) 0)
      m (PSleep g k)
| mv_reload : forall g k,
    moves i m (PReload g k)
      (Ev (load l_now_serving memory_order_acquire) (_now_serving m))
      m (PTest g (_now_serving m) k)
| mv_again : forall g current k,
    current <> ticket_no g ->
    moves i m (PTest g current k) Tau m (PWait g current k)
| mv_exit : forall g current k,
    current = ticket_no g ->
    moves i m (PTest g current k) Tau m (PRead g k)
| mv_read : forall g k,
    moves i m (PRead g k) (Ev (read l_counter) (counter m))
      m (PWrite g (counter m) k)
| mv_write : forall g v k,
    moves i m (PWrite g v k) (Ev (write l_counter (v + 1)) 0)
      (wr l_counter (v + 1) m) (PRelease g k)
| mv_release : forall g k,
    moves i m (PRelease g k)
      (Ev (fetch_add l_now_serving 1 memory_order_release) (_now_serving m))
      (wr l_now_serving (_now_serving m + 1) m) (PNotify k).

(** A run of steps from any configuration (oldest first). *)
Inductive path (ts : list tid) : config -> list moment -> config -> Prop :=
| path_nil : forall c, path ts c [] c
| path_cons : forall c lab c1 tr c2,
    step ts c lab c1 -> path ts c1 tr c2 ->
    path ts c (mkMoment c lab c1 :: tr) c2.

(** No thread is parked on [_now_serving]. *)
Definition awake (ts : list tid) (c : config) : Prop :=
  forall u, In u ts -> sleeping_on l_now_serving (c_pool c u) = false.

(** The lock is free: the next ticket to draw is the one served. *)
Definition lock_free (c : config) : Prop :=
  _next_ticket (c_mem c) = _now_serving (c_mem c).

(** ** A call seen from its thread *)

(** [local_run p tr a]: the thread runs [p] to its end and returns [a];
    [tr] lists its steps, each with the memory it found and the memory it
    left.  Between two steps the other threads may have changed the
    memory in any way, and a parked thread has been woken. *)
Inductive local_run {A : Type} : prog A -> list (mem * event * mem) -> A -> Prop :=
| local_done : forall a, local_run (Ret a) [] a
| local_step : forall p m e m' p' tr a,
    thread_step p m = Step e m' p' ->
    local_run p' tr a ->
    local_run p ((m, e, m') :: tr) a.

(** The steps of the loop of [_lockSlow] entered with [current]: a wait
    on [current], a load, the test; over again unless the loaded value is
    the ticket. *)
Inductive waits (ticket : Z) : Z -> list (mem * event * mem) -> Prop :=
| waits_last : forall current m1 m2 m3,
    _now_serving m2 = ticket ->
    waits ticket current
      [(m1, Ev (atomic_wait l_now_serving current) 0, m1);
       (m2, Ev (load l_now_serving memory_order_acquire) (_now_serving m2), m2);
       (m3, Tau, m3)]
| waits_again : forall current m1 m2 m3 rest,
    _now_serving m2 <> ticket ->
    waits ticket (_now_serving m2) rest ->
    waits ticket current
      ((m1, Ev (atomic_wait l_now_serving current) 0, m1)
       :: (m2, Ev (load l_now_serving memory_order_acquire) (_now_serving m2), m2)
       :: (m3, Tau, m3)
       :: rest).

(** The steps of a call of [ticket_lock::lock]. *)
Definition lock_steps (tr : list (mem * event * mem)) : Prop :=
  exists m1 m2 rest,
    tr = (m1, Ev (fetch_add l_next_ticket 1 memory_order_relaxed) (_next_ticket m1),
          mkMem (wrap32 (_next_ticket m1 + 1)) (_now_serving m1) (_owner m1)
                (_recursion m1) (counter m1))
         :: (m2, Ev (load l_now_serving memory_order_acquire) (_now_serving m2), m2)
         :: rest /\
    ((_next_ticket m1 = _now_serving m2 /\ rest = []) \/
     (_next_ticket m1 <> _now_serving m2 /\
      waits (_next_ticket m1) (_now_serving m2) rest)).

(** The steps of a call of [ticket_lock::unlock]. *)
Definition unlock_steps (tr : list (mem * event * mem)) : Prop :=
  exists m1 m2,
    tr = [(m1, Ev (fetch_add l_now_serving 1 memory_order_release) (_now_serving m1),
           mkMem (_next_ticket m1) (wrap32 (_now_serving m1 + 1)) (_owner m1)
                 (_recursion m1) (counter m1));
          (m2, Ev (atomic_notify_one l_now_serving) 0, m2)].

(** What a notify of thread [t] on the cell [l] does to the threads. *)
Definition wakes_one (ts : list tid) (l : loc) (t : tid) (c c' : config) : Prop :=
  (forallb (fun u => negb (sleeping_on l (c_pool c u))) ts = true /\
   forall u, u <> t -> c_pool c' u = c_pool c u) \/
  (exists u,
      In u ts /\ u <> t /\
      sleeping_on l (c_pool c u) = true /\
      c_pool c' u = wake (c_pool c u) /\
      forall v, v <> t -> v <> u -> c_pool c' v = c_pool c v).

(** A call of [lock()] that finds ticket 1 while ticket 0 is served, and
    is let in after one round of the loop. *)
Definition slow_call : list (mem * event * mem) :=
  [(mkMem 1 0 0 0 0, Ev (fetch_add l_next_ticket 1 memory_order_relaxed) 1,
    mkMem 2 0 0 0 0);
   (mkMem 2 0 0 0 0, Ev (load l_now_serving memory_order_acquire) 0,
    mkMem 2 0 0 0 0);
   (mkMem 2 0 0 0 1, Ev (atomic_wait l_now_serving 0) 0, mkMem 2 0 0 0 1);
   (mkMem 2 1 0 0 1, Ev (load l_now_serving memory_order_acquire) 1,
    mkMem 2 1 0 0 1);
   (mkMem 2 1 0 0 1, Tau, mkMem 2 1 0 0 1)].

(** The program a thread has left, running or parked. *)
Definition residual (s : tstate) : prog unit :=
  match s with
  | Running p => p
  | Sleeping _ p => p
  end.

(** The steps of thread [t] in a trace, as the thread sees them. *)
Definition view_of (t : tid) (x : moment) : list (mem * event * mem) :=
  match did x with
  | Did u e => if u =? t then [(c_mem (before x), e, c_mem (after x))] else []
  | WokeUp _ => []
  end.

Definition thread_view (t : tid) (tr : list moment) : list (mem * event * mem) :=
  flat_map (view_of t) tr.

(** [local_steps p tr p']: the steps [tr] take the thread from [p] to
    [p']. *)
Inductive local_steps {A : Type} : prog A -> list (mem * event * mem) -> prog A -> Prop :=
| local_none : forall p, local_steps p [] p
| local_more : forall p m e m' p1 tr p2,
    thread_step p m = Step e m' p1 ->
    local_steps p1 tr p2 ->
    local_steps p ((m, e, m') :: tr) p2.

(** Threads 1 and 2, one round each: both draw, 2 has to wait, 1 goes
    through and wakes 2. *)
Definition two_threads : list (tid * option tid) :=
  [(1, None); (2, None); (1, None); (2, None); (2, None); (1, None);
   (1, None); (1, None); (1, Some 2); (2, None); (2, None); (2, None);
   (2, None); (2, None); (2, None)].

(** A step that is an action of a running thread, as opposed to a parked
    thread resuming by itself. *)
Definition acts (lab : label) : bool :=
  match lab with
  | Did _ _ => true
  | WokeUp _ => false
  end.

(** [stranded ts c]: some thread has not finished and no thread can act;
    the threads that are left are parked, and nothing short of a spurious
    wake-up gets them going again. *)
Definition stranded (ts : list tid) (c : config) : Prop :=
  (exists t, In t ts /\ finished (c_pool c t) = false) /\
  forall lab c', step ts c lab c' -> acts lab = false.

(** Threads 1, 2 and 3, one round each: 1 gets the lock, 2 and 3 park
    behind it, the notify of 1 wakes 3 (whose turn it is not), and 3 parks
    again. *)
Definition three_threads : list (tid * option tid) :=
  [(1, None); (1, None);
   (2, None); (2, None); (2, None);
   (3, None); (3, None); (3, None);
   (1, None); (1, None); (1, None); (1, Some 3);
   (3, None); (3, None); (3, None)].

(** ** Sequences of calls on the ticket lock *)

(** [lock(); unlock();] with nothing in between. *)
Definition lock_unlock : prog unit :=
  ticket_lock.lock ;; ticket_lock.unlock.

(** The events at which a thread may park. *)
Definition is_wait (e : event) : bool :=
  match e with
  | Ev (atomic_wait _ _) _ => true
  | _ => false
  end.

(** ** The recursive lock and its inner lock *)

(** The members between calls that have all returned, no caller being
    blocked or in the middle of a call: with no owner the count is 0 and
    no ticket is outstanding; with an owner exactly one ticket, the
    owner's, is. *)
Definition owner_has_lock (m : mem) : Prop :=
  wf m /\
  (_owner m = 0 -> _recursion m = 0 /\ _next_ticket m = _now_serving m) /\
  (_owner m <> 0 ->
   valid_tid (_owner m) /\ _next_ticket m = wrap32 (_now_serving m + 1)).

(** A token in the hands of thread [t] is empty or was captured from
    [t]. *)
Definition token_of (t : tid) (s : recursive_ticket_lock_suspension) : Prop :=
  s_owner s = 0 \/ s_owner s = t.

Definition sound (st : rstate) : Prop :=
  owner_has_lock (r_mem st) /\
  forall t s, In s (r_tokens st t) -> token_of t s.

(** [unlock()] with nothing to unlock, then a [lock(); unlock();] pair,
    then a look. *)
Definition stray_unlock (id : tid) : prog (Z * Z) :=
  recursive_ticket_lock.unlock ;;
  recursive_ticket_lock.lock id ;;
  recursive_ticket_lock.unlock ;;
  observe id.

(** Thread [t] suspends the lock; thread [u] takes it.  In [hand_over]
    [u] gives it back before the token of [t] dies, in [hand_over_early]
    it does not. *)
Definition taken_over (t u : tid) : prog recursive_ticket_lock_suspension :=
  s <- recursive_ticket_lock.suspend t ;;
  recursive_ticket_lock.lock u ;;
  Ret s.

Definition hand_over (t u : tid) : prog unit :=
  s <- taken_over t u ;;
  recursive_ticket_lock.unlock ;;
  recursive_ticket_lock.destroy s.

Definition hand_over_early (t u : tid) : prog unit :=
  s <- taken_over t u ;;
  recursive_ticket_lock.destroy s.

(** ** Waiting and waking in the test *)

(** What a thread waiting in [_lockSlow] can rely on when there are two
    threads, [s] tickets having been served: the value it is about to
    wait on is not its ticket, and if it is parked while its ticket is
    the one served, the notify of the release is still to come. *)
Definition waiters_ok (ts : list tid) (s : nat) (ap : tid -> pc) : Prop :=
  (forall t g current k, ap t = PWait g current k -> current <> ticket_no g) /\
  (forall t k, In t ts -> ap t = PSleep s k ->
               exists u k', In u ts /\ ap u = PNotify k').

(** Program points at which a thread can take a step whatever the other
    threads do. *)
Definition acts_alone (p : pc) : bool :=
  match p with
  | PIdle O | PSleep _ _ | PNotify _ => false
  | _ => true
  end.

(** ** A test of the recursive lock *)

(** [n] calls of [lock()], [n] calls of [unlock()]. *)
Fixpoint lock_n (n : nat) (id : tid) : prog unit :=
  match n with
  | O => Ret tt
  | S n' => recursive_ticket_lock.lock id ;; lock_n n' id
  end.

Fixpoint unlock_n (n : nat) : prog unit :=
  match n with
  | O => Ret tt
  | S n' => recursive_ticket_lock.unlock ;; unlock_n n'
  end.

(** [counter += 1;] *)
Definition bump : prog unit :=
  c <- perform (read l_counter) ;;
  perform_ (write l_counter (c + 1)).

(** [{ auto s = suspend(); }] *)
Definition pause (id : tid) : prog unit :=
  s <- recursive_ticket_lock.suspend id ;;
  recursive_ticket_lock.destroy s.

(** A thread of the test runs [K] rounds: it takes the lock [d] times
    over, adds 1 to the counter, suspends the lock and lets the token die
    at once, adds 1 to the counter again, and unlocks [d] times. *)
Fixpoint nested (d K : nat) (id : tid) : prog unit :=
  match K with
  | O => Ret tt
  | S K' =>
      lock_n d id ;;
      bump ;;
      pause id ;;
      bump ;;
      unlock_n d ;;
      nested d K' id
  end.

Definition nested_start (d K : nat) : config :=
  mkConfig fresh (fun t => Running (nested d K t)).

(** *** Program points *)

(** Where the inner ticket lock is taken from: the first [lock()] of a
    round, [r] further calls to follow, or the destructor of the token
    that captured the count [v]; [k] rounds are left after the present
    one. *)
Inductive ctx : Type :=
| CLock (r k : nat)
| CDestroy (v : Z) (k : nat).

(** [h] is the depth at which a [lock()] call finds the lock, [n] the
    number of [unlock()] calls that follow the present one, [g] the
    running number of a ticket, [v] a value the thread has read. *)
Inductive rpc : Type :=
| QIdle (k : nat)
| LLoad (h r k : nat)
| QDraw (x : ctx)
| QDrawn (g : nat) (x : ctx)
| QWait (g : nat) (current : Z) (x : ctx)
| QSleep (g : nat) (x : ctx)
| QReload (g : nat) (x : ctx)
| QTest (g : nat) (current : Z) (x : ctx)
| QOwn (x : ctx)
| LRead (h r k : nat)
| LWrite (h : nat) (v : Z) (r k : nat)
| C1Read (k : nat)
| C1Write (v : Z) (k : nat)
| SLoad (k : nat)
| SRead (k : nat)
| SStore (v : Z) (k : nat)
| SWrite (v : Z) (k : nat)
| SRelease (v : Z) (k : nat)
| SNotify (v : Z) (k : nat)
| TLoad (v : Z) (k : nat)
| TRead (v : Z) (k : nat)
| TWrite (v r0 : Z) (k : nat)
| C2Read (k : nat)
| C2Write (v : Z) (k : nat)
| URead (n k : nat)
| UWrite (n : nat) (v : Z) (k : nat)
| UStore (n k : nat)
| URelease (n k : nat)
| UNotify (n k : nat).

Section Points.

(** The depth of the test is [S d0]; [id] is the thread. *)
Variable d0 : nat.
Variable id : tid.

(** What is left of a round after the locks, after the first increment,
    after the suspension, after the second increment. *)
Definition rest_E (k : nat) : prog unit :=
  unlock_n (S d0) ;; nested (S d0) k id.

Definition rest_C (k : nat) : prog unit := bump ;; rest_E k.

Definition rest_B (k : nat) : prog unit := pause id ;; rest_C k.

Definition rest_A (k : nat) : prog unit := bump ;; rest_B k.

(** The end of [lock()], and of the token's destructor. *)
Definition incr : prog unit :=
  r <- perform (read l_recursion) ;;
  perform_ (write l_recursion (r + 1)).

Definition addv (v : Z) : prog unit :=
  r <- perform (read l_recursion) ;;
  perform_ (write l_recursion (r + v)).

Definition set_owner : prog unit :=
  perform_ (store l_owner id memory_order_relaxed).

(** A [lock()] call of which [p] is left, [r] calls to follow. *)
Definition in_lock (r k : nat) (p : prog unit) : prog unit :=
  (p ;; lock_n r id) ;; rest_A k.

(** The destructor of which [p] is left. *)
Definition in_destroy (k : nat) (p : prog unit) : prog unit :=
  p ;; rest_C k.

(** A [suspend()] of which [p] is left. *)
Definition in_pause (k : nat) (p : prog recursive_ticket_lock_suspension)
  : prog unit :=
  (s <- p ;; recursive_ticket_lock.destroy s) ;; rest_C k.

(** An [unlock()] call of which [p] is left, [n] calls to follow. *)
Definition in_unlock (n k : nat) (p : prog unit) : prog unit :=
  (p ;; unlock_n n) ;; nested (S d0) k id.

(** The inner [ticket_lock::lock()] of which [p] is left. *)
Definition inner (x : ctx) (p : prog unit) : prog unit :=
  match x with
  | CLock r k => in_lock r k ((p ;; set_owner) ;; incr)
  | CDestroy v k => in_destroy k ((p ;; set_owner) ;; addv v)
  end.

(** The loop of [_lockSlow] for ticket [g], [cur] being left of the
    round. *)
Definition slow_loop (cur : block) (g : nat) : prog unit :=
  Loop cur
    (fun current =>
       BDo (atomic_wait l_now_serving current) (fun _ =>
       BDo (load l_now_serving memory_order_acquire) (fun current =>
       BRet current)))
    (fun current => negb (current =? ticket_no g))
    Ret ;;
  Ret tt.

Definition reload : block :=
  BDo (load l_now_serving memory_order_acquire) (fun current => BRet current).

Definition rcode (p : rpc) : tstate :=
  match p with
  | QIdle k => Running (nested (S d0) k id)
  | LLoad _ r k => Running (in_lock r k (recursive_ticket_lock.lock id))
  | QDraw x => Running (inner x ticket_lock.lock)
  | QDrawn g x =>
      Running
        (inner x
           (current <- perform (load l_now_serving memory_order_acquire) ;;
            if negb (ticket_no g =? current)
            then ticket_lock._lockSlow (ticket_no g) current
            else Ret tt))
  | QWait g current x =>
      Running (inner x (ticket_lock._lockSlow (ticket_no g) current))
  | QSleep g x => Sleeping l_now_serving (inner x (slow_loop reload g))
  | QReload g x => Running (inner x (slow_loop reload g))
  | QTest g current x => Running (inner x (slow_loop (BRet current) g))
  | QOwn x => Running (inner x (Ret tt))
  | LRead _ r k => Running (in_lock r k incr)
  | LWrite _ v r k =>
      Running (in_lock r k (perform_ (write l_recursion (v + 1))))
  | C1Read k => Running (rest_A k)
  | C1Write v k => Running (perform_ (write l_counter (v + 1)) ;; rest_B k)
  | SLoad k => Running (rest_B k)
  | SRead k =>
      Running
        (in_pause k
           (r <- perform (read l_recursion) ;;
            perform_ (store l_owner 0 memory_order_relaxed) ;;
            perform_ (write l_recursion 0) ;;
            ticket_lock.unlock ;;
            Ret (mkSuspension id r)))
  | SStore v k =>
      Running
        (in_pause k
           (perform_ (store l_owner 0 memory_order_relaxed) ;;
            perform_ (write l_recursion 0) ;;
            ticket_lock.unlock ;;
            Ret (mkSuspension id v)))
  | SWrite v k =>
      Running
        (in_pause k
           (perform_ (write l_recursion 0) ;;
            ticket_lock.unlock ;;
            Ret (mkSuspension id v)))
  | SRelease v k =>
      Running (in_pause k (ticket_lock.unlock ;; Ret (mkSuspension id v)))
  | SNotify v k =>
      Running
        (in_pause k
           (perform_ (atomic_notify_one l_now_serving) ;;
            Ret (mkSuspension id v)))
  | TLoad v k =>
      Running (in_destroy k (recursive_ticket_lock.destroy (mkSuspension id v)))
  | TRead v k => Running (in_destroy k (addv v))
  | TWrite v r0 k =>
      Running (in_destroy k (perform_ (write l_recursion (r0 + v))))
  | C2Read k => Running (rest_C k)
  | C2Write v k => Running (perform_ (write l_counter (v + 1)) ;; rest_E k)
  | URead n k => Running (in_unlock n k recursive_ticket_lock.unlock)
  | UWrite n v k =>
      Running
        (in_unlock n k
           (perform_ (write l_recursion (v - 1)) ;;
            if wrap32 (v - 1) =? 0
            then perform_ (store l_owner 0 memory_order_relaxed) ;;
                 ticket_lock.unlock
            else Ret tt))
  | UStore n k =>
      Running
        (in_unlock n k
           (perform_ (store l_owner 0 memory_order_relaxed) ;;
            ticket_lock.unlock))
  | URelease n k => Running (in_unlock n k ticket_lock.unlock)
  | UNotify n k =>
      Running (in_unlock n k (perform_ (atomic_notify_one l_now_serving)))
  end.

(** Where a thread stands after a [lock()] call that found depth [h],
    and after an [unlock()] call. *)
Definition after_lock (h r k : nat) : rpc :=
  match r with
  | O => C1Read k
  | S r' => LLoad (S h) r' k
  end.

Definition after_unlock (n k : nat) : rpc :=
  match n with
  | O => QIdle k
  | S n' => URead n' k
  end.

(** The step of a thread at a program point: the event, the memory it
    leaves and the next point.  [i] is the number of tickets drawn so
    far.  A finished thread, a parked thread and a thread about to notify
    are dealt with by the scheduler. *)
Definition rnext (i : nat) (m : mem) (p : rpc) : option (event * mem * rpc) :=
  match p with
  | QIdle O => None
  | QIdle (S k) =>
      Some (Ev (load l_owner memory_order_relaxed) (_owner m), m,
            if _owner m =? id then LRead 0 d0 k else QDraw (CLock d0 k))
  | LLoad h r k =>
      Some (Ev (load l_owner memory_order_relaxed) (_owner m), m,
            if _owner m =? id then LRead h r k else QDraw (CLock r k))
  | QDraw x =>
      Some (Ev (fetch_add l_next_ticket 1 memory_order_relaxed) (_next_ticket m),
            wr l_next_ticket (_next_ticket m + 1) m, QDrawn i x)
  | QDrawn g x =>
      Some (Ev (load l_now_serving memory_order_acquire) (_now_serving m), m,
            if ticket_no g =? _now_serving m
            then QOwn x else QWait g (_now_serving m) x)
  | QWait g current x =>
      Some (Ev (atomic_wait l_now_serving current) 0, m,
            if _now_serving m =? current then QSleep g x else QReload g x)
  | QSleep _ _ => None
  | QReload g x =>
      Some (Ev (load l_now_serving memory_order_acquire) (_now_serving m), m,
            QTest g (_now_serving m) x)
  | QTest g current x =>
      Some (Tau, m, if current =? ticket_no g then QOwn x else QWait g current x)
  | QOwn x =>
      Some (Ev (store l_owner id memory_order_relaxed) 0, wr l_owner id m,
            match x with
            | CLock r k => LRead 0 r k
            | CDestroy v k => TRead v k
            end)
  | LRead h r k =>
      Some (Ev (read l_recursion) (_recursion m), m, LWrite h (_recursion m) r k)
  | LWrite h v r k =>
      Some (Ev (write l_recursion (v + 1)) 0, wr l_recursion (v + 1) m,
            after_lock h r k)
  | C1Read k =>
      Some (Ev (read l_counter) (counter m), m, C1Write (counter m) k)
  | C1Write v k =>
      Some (Ev (write l_counter (v + 1)) 0, wr l_counter (v + 1) m, SLoad k)
  | SLoad k =>
      Some (Ev (load l_owner memory_order_relaxed) (_owner m), m,
            if _owner m =? id then SRead k else C2Read k)
  | SRead k =>
      Some (Ev (read l_recursion) (_recursion m), m, SStore (_recursion m) k)
  | SStore v k =>
      Some (Ev (store l_owner 0 memory_order_relaxed) 0, wr l_owner 0 m,
            SWrite v k)
  | SWrite v k =>
      Some (Ev (write l_recursion 0) 0, wr l_recursion 0 m, SRelease v k)
  | SRelease v k =>
      Some (Ev (fetch_add l_now_serving 1 memory_order_release) (_now_serving m),
            wr l_now_serving (_now_serving m + 1) m, SNotify v k)
  | SNotify _ _ => None
  | TLoad v k =>
      Some (Ev (load l_owner memory_order_relaxed) (_owner m), m,
            if _owner m =? id then TRead v k else QDraw (CDestroy v k))
  | TRead v k =>
      Some (Ev (read l_recursion) (_recursion m), m, TWrite v (_recursion m) k)
  | TWrite v r0 k =>
      Some (Ev (write l_recursion (r0 + v)) 0, wr l_recursion (r0 + v) m,
            C2Read k)
  | C2Read k =>
      Some (Ev (read l_counter) (counter m), m, C2Write (counter m) k)
  | C2Write v k =>
      Some (Ev (write l_counter (v + 1)) 0, wr l_counter (v + 1) m, URead d0 k)
  | URead n k =>
      Some (Ev (read l_recursion) (_recursion m), m, UWrite n (_recursion m) k)
  | UWrite n v k =>
      Some (Ev (write l_recursion (v - 1)) 0, wr l_recursion (v - 1) m,
            if wrap32 (v - 1) =? 0 then UStore n k else after_unlock n k)
  | UStore n k =>
      Some (Ev (store l_owner 0 memory_order_relaxed) 0, wr l_owner 0 m,
            URelease n k)
  | URelease n k =>
      Some (Ev (fetch_add l_now_serving 1 memory_order_release) (_now_serving m),
            wr l_now_serving (_now_serving m + 1) m, UNotify n k)
  | UNotify _ _ => None
  end.

(** Where a thread stands after its notify. *)
Definition after_notify (p : rpc) : option rpc :=
  match p with
  | SNotify v k => Some (TLoad v k)
  | UNotify n k => Some (after_unlock n k)
  | _ => None
  end.

End Points.

(** *** The invariant of the test *)

Definition set_rpc (ap : tid -> rpc) (t : tid) (p : rpc) : tid -> rpc :=
  fun u => if u =? t then p else ap u.

(** The ticket of a thread that has drawn one and is not yet let in. *)
Definition waiting (p : rpc) : option nat :=
  match p with
  | QDrawn g _ | QWait g _ _ | QSleep g _ | QReload g _ | QTest g _ _ => Some g
  | _ => None
  end.

(** The thread has the inner ticket lock: from the moment it is let in to
    the increment of [_now_serving] that releases it. *)
Definition holds (p : rpc) : bool :=
  match p with
  | QOwn _ | LLoad _ _ _ | LRead _ _ _ | LWrite _ _ _ _
  | C1Read _ | C1Write _ _
  | SLoad _ | SRead _ | SStore _ _ | SWrite _ _ | SRelease _ _
  | TRead _ _ | TWrite _ _ _
  | C2Read _ | C2Write _ _
  | URead _ _ | UWrite _ _ _ | UStore _ _ | URelease _ _ => true
  | _ => false
  end.

Definition outstanding (p : rpc) : nat :=
  match waiting p with
  | Some _ => 1
  | None => if holds p then 1 else 0
  end.

Definition ctx_bumps (x : ctx) : nat :=
  match x with
  | CLock _ k => 2 * k + 2
  | CDestroy _ k => 2 * k + 1
  end.

(** Increments of the counter the thread has still to do. *)
Definition bumps_left (p : rpc) : nat :=
  match p with
  | QIdle k => 2 * k
  | LLoad _ _ k | LRead _ _ k | LWrite _ _ _ k | C1Read k | C1Write _ k =>
      2 * k + 2
  | QDraw x | QDrawn _ x | QWait _ _ x | QSleep _ x | QReload _ x
  | QTest _ _ x | QOwn x => ctx_bumps x
  | SLoad k | SRead k | SStore _ k | SWrite _ k | SRelease _ k | SNotify _ k
  | TLoad _ k | TRead _ k | TWrite _ _ k | C2Read k | C2Write _ k =>
      2 * k + 1
  | URead _ k | UWrite _ _ k | UStore _ k | URelease _ k | UNotify _ k =>
      2 * k
  end.

Definition ctx_ok (d0 : nat) (x : ctx) : Prop :=
  match x with
  | CLock r _ => r = d0
  | CDestroy v _ => v = Z.of_nat (S d0)
  end.

(** What holds of thread [t] at its program point, [s] tickets having
    been served: the members [_owner] and [_recursion] as the holder of
    the lock finds them, and the values it has read. *)
Definition local_ok (d0 : nat) (m : mem) (s : nat) (t : tid) (p : rpc) : Prop :=
  match p with
  | QIdle _ => True
  | QDraw x | QDrawn _ x | QWait _ _ x | QSleep _ x | QReload _ x => ctx_ok d0 x
  | QTest g current x => ctx_ok d0 x /\ (current = ticket_no g -> g = s)
  | QOwn x => ctx_ok d0 x /\ _owner m = 0 /\ _recursion m = 0
  | LLoad h r _ | LRead h r _ =>
      (h + r)%nat = d0 /\ _owner m = t /\ _recursion m = Z.of_nat h
  | LWrite h v r _ =>
      (h + r)%nat = d0 /\ _owner m = t /\ _recursion m = Z.of_nat h /\
      v = Z.of_nat h
  | C1Read _ | SLoad _ | SRead _ | C2Read _ =>
      _owner m = t /\ _recursion m = Z.of_nat (S d0)
  | C1Write v _ | C2Write v _ =>
      _owner m = t /\ _recursion m = Z.of_nat (S d0) /\ v = counter m
  | SStore v _ =>
      _owner m = t /\ _recursion m = Z.of_nat (S d0) /\ v = Z.of_nat (S d0)
  | SWrite v _ =>
      _owner m = 0 /\ _recursion m = Z.of_nat (S d0) /\ v = Z.of_nat (S d0)
  | SRelease v _ =>
      _owner m = 0 /\ _recursion m = 0 /\ v = Z.of_nat (S d0)
  | SNotify v _ | TLoad v _ => v = Z.of_nat (S d0)
  | TRead v _ =>
      v = Z.of_nat (S d0) /\ _owner m = t /\ _recursion m = 0
  | TWrite v r0 _ =>
      v = Z.of_nat (S d0) /\ _owner m = t /\ _recursion m = 0 /\ r0 = 0
  | URead n _ =>
      (n <= d0)%nat /\ _owner m = t /\ _recursion m = Z.of_nat (S n)
  | UWrite n v _ =>
      (n <= d0)%nat /\ _owner m = t /\ _recursion m = Z.of_nat (S n) /\
      v = Z.of_nat (S n)
  | UStore n _ => n = O /\ _owner m = t /\ _recursion m = 0
  | URelease n _ => n = O /\ _owner m = 0 /\ _recursion m = 0
  | UNotify n _ => n = O
  end.

(** The invariant: [s] tickets served, [i] drawn, [done] increments of
    the counter made, [hd] the thread that has the inner lock. *)
Record nested_inv (d0 : nat) (ts : list tid) (K : nat) (c : config)
  (s i done : nat) (hd : option tid) (ap : tid -> rpc) : Prop := mkNested {
  ni_code : forall t, c_pool c t = rcode d0 t (ap t);
  ni_next : _next_ticket (c_mem c) = ticket_no i;
  ni_serving : _now_serving (c_mem c) = ticket_no s;
  ni_count : i = (s + total (fun t => outstanding (ap t)) ts)%nat;
  ni_bumps :
    (done + total (fun t => bumps_left (ap t)) ts)%nat =
    total (fun _ => (2 * K)%nat) ts;
  ni_counter : counter (c_mem c) = Z.of_nat done;
  ni_outside : forall t, ~ In t ts -> ap t = QIdle K;
  ni_tickets : forall t g, waiting (ap t) = Some g -> (s <= g < i)%nat;
  ni_distinct : forall t u g,
      waiting (ap t) = Some g -> waiting (ap u) = Some g -> t = u;
  ni_holder : forall t, holds (ap t) = true -> hd = Some t;
  ni_held :
    match hd with
    | Some u =>
        holds (ap u) = true /\
        forall t g, waiting (ap t) = Some g -> (s < g)%nat
    | None => _owner (c_mem c) = 0 /\ _recursion (c_mem c) = 0
    end;
  ni_local : forall t, local_ok d0 (c_mem c) s t (ap t)
}.

(** No thread is parked, on any cell. *)
Definition all_awake (ts : list tid) (c : config) : Prop :=
  forall l u, In u ts -> sleeping_on l (c_pool c u) = false.

(** [n] steps of thread [t] in a row, none of them waking anybody. *)
Definition alone (t : tid) (n : nat) : list (tid * option tid) :=
  repeat (t, None) n.

(** Threads 1 and 2, one round each at depth 1.  Thread 1 gets as far as
    its suspension; thread 2 takes the lock and makes its first
    increment; the token of thread 1 dies and its destructor parks. *)
Definition taken_while_suspended : list (tid * option tid) :=
  alone 1 14 ++ alone 2 8 ++ alone 1 4.

(** The same run taken to its end: the suspension of thread 2 wakes
    thread 1, whose destructor returns; the token of thread 2 has to
    wait in turn until thread 1 unlocks. *)
Definition handed_back : list (tid * option tid) :=
  taken_while_suspended ++
  alone 2 5 ++ [(2, Some 1)] ++ alone 2 4 ++
  alone 1 11 ++ [(1, Some 2)] ++ alone 2 12.
(** * Basic facts *)

Lemma wrap32_range z : 0 <= wrap32 z < 2 ^ 32.
Proof. unfold wrap32. apply Z.mod_pos_bound. reflexivity. Qed.

Lemma wrap32_small z : 0 <= z < 2 ^ 32 -> wrap32 z = z.
Proof. intros H. unfold wrap32. apply Z.mod_small. exact H. Qed.

Lemma wrap32_succ z : wrap32 (wrap32 z + 1) = wrap32 (z + 1).
Proof. unfold wrap32. rewrite Zplus_mod_idemp_l. reflexivity. Qed.

Lemma valid_tid_wrap t : valid_tid t -> wrap32 t = t.
Proof. intros [H1 H2]. apply wrap32_small. lia. Qed.

Lemma valid_tid_nonzero t : valid_tid t -> t <> 0.
Proof. unfold valid_tid. lia. Qed.

Lemma thread_step_bind A B (p : prog A) (f : A -> prog B) m :
  thread_step (bind p f) m =
  match thread_step p m with
  | Finished a => thread_step (f a) m
  | Step e m' p' => Step e m' (bind p' f)
  end.
Proof.
  destruct p as [a|a k|cur body cond k]; simpl; try reflexivity.
  destruct cur as [v|a kb]; simpl; try reflexivity.
  destruct (cond v); reflexivity.
Qed.

Lemma prepend_returned A e (o : outcome A) a m evs :
  prepend e o = Returned a m evs ->
  exists evs', o = Returned a m evs' /\ evs = e :: evs'.
Proof.
  destruct o; simpl; intros H; inversion H; subst. eauto.
Qed.

(** More fuel does not change a result. *)
Lemma solo_more A (p : prog A) n :
  forall m k, solo n p m <> OutOfFuel -> solo (n + k) p m = solo n p m.
Proof.
  revert p. induction n as [|n IH]; intros p m k H.
  - simpl in H. congruence.
  - simpl in *. destruct (thread_step p m) as [a|e m' p']; [reflexivity|].
    destruct (parks e m); [reflexivity|].
    rewrite IH; [reflexivity|].
    intros E. rewrite E in H. simpl in H. congruence.
Qed.

Lemma runs_deterministic A (p : prog A) m a1 m1 e1 a2 m2 e2 :
  runs p m a1 m1 e1 -> runs p m a2 m2 e2 -> a1 = a2 /\ m1 = m2 /\ e1 = e2.
Proof.
  intros [n1 H1] [n2 H2].
  assert (E1 : solo (n1 + n2) p m = Returned a1 m1 e1).
  { rewrite solo_more; [exact H1|]. rewrite H1. discriminate. }
  assert (E2 : solo (n2 + n1) p m = Returned a2 m2 e2).
  { rewrite solo_more; [exact H2|]. rewrite H2. discriminate. }
  rewrite Nat.add_comm in E2. rewrite E1 in E2. inversion E2. auto.
Qed.

Lemma runs_not_stalls A (p : prog A) m a m1 e1 m2 e2 :
  runs p m a m1 e1 -> stalls p m m2 e2 -> False.
Proof.
  intros [n1 H1] [n2 H2].
  assert (E1 : solo (n1 + n2) p m = Returned a m1 e1).
  { rewrite solo_more; [exact H1|]. rewrite H1. discriminate. }
  assert (E2 : solo (n2 + n1) p m = @Blocked A m2 e2).
  { rewrite solo_more; [exact H2|]. rewrite H2. discriminate. }
  rewrite Nat.add_comm in E2. rewrite E1 in E2. discriminate.
Qed.

(** The rules by which runs are built. *)
Lemma runs_Ret A (a : A) m : runs (Ret a) m a m [].
Proof. exists 1%nat. reflexivity. Qed.

Lemma runs_Do A a (k : Z -> prog A) m b m' evs :
  parks (Ev a (snd (act a m))) m = None ->
  runs (k (snd (act a m))) (fst (act a m)) b m' evs ->
  runs (Do a k) m b m' (Ev a (snd (act a m)) :: evs).
Proof.
  intros Hp [n H]. exists (S n). cbn [solo thread_step]. rewrite Hp, H. reflexivity.
Qed.

Lemma stalls_Do_park A a (k : Z -> prog A) m l :
  parks (Ev a (snd (act a m))) m = Some l ->
  stalls (Do a k) m (fst (act a m)) [Ev a (snd (act a m))].
Proof.
  intros Hp. exists 1%nat. cbn [solo thread_step]. rewrite Hp. reflexivity.
Qed.

Lemma stalls_Do A a (k : Z -> prog A) m m' evs :
  parks (Ev a (snd (act a m))) m = None ->
  stalls (k (snd (act a m))) (fst (act a m)) m' evs ->
  stalls (Do a k) m m' (Ev a (snd (act a m)) :: evs).
Proof.
  intros Hp [n H]. exists (S n). cbn [solo thread_step]. rewrite Hp, H. reflexivity.
Qed.

Lemma stalls_Loop_park A a kb body cond (k : Z -> prog A) m l :
  parks (Ev a (snd (act a m))) m = Some l ->
  stalls (Loop (BDo a kb) body cond k) m (fst (act a m)) [Ev a (snd (act a m))].
Proof.
  intros Hp. exists 1%nat. cbn [solo thread_step]. rewrite Hp. reflexivity.
Qed.

Lemma solo_bind A B (f : A -> prog B) a m1 b m2 e2 n2 :
  solo n2 (f a) m1 = Returned b m2 e2 ->
  forall n (p : prog A) m e1,
    solo n p m = Returned a m1 e1 ->
    solo (n + n2) (bind p f) m = Returned b m2 (e1 ++ e2).
Proof.
  intros H2 n. induction n as [|n IH]; intros p m e1 H.
  - simpl in H. discriminate.
  - simpl in H. change (S n + n2)%nat with (S (n + n2)).
    cbn [solo]. rewrite thread_step_bind.
    destruct (thread_step p m) as [a'|e m' p'].
    + inversion H; subst. simpl app.
      assert (E : solo (S (n + n2)) (f a) m1 = Returned b m2 e2).
      { replace (S (n + n2)) with (n2 + S n)%nat by lia.
        rewrite solo_more; [exact H2|]. rewrite H2. discriminate. }
      exact E.
    + destruct (parks e m); [discriminate|].
      apply prepend_returned in H. destruct H as (evs' & H & ->).
      rewrite (IH _ _ _ H). reflexivity.
Qed.

Lemma solo_bind_stall A B (f : A -> prog B) a m1 m2 e2 n2 :
  solo n2 (f a) m1 = @Blocked B m2 e2 ->
  forall n (p : prog A) m e1,
    solo n p m = Returned a m1 e1 ->
    solo (n + n2) (bind p f) m = Blocked m2 (e1 ++ e2).
Proof.
  intros H2 n. induction n as [|n IH]; intros p m e1 H.
  - simpl in H. discriminate.
  - simpl in H. change (S n + n2)%nat with (S (n + n2)).
    cbn [solo]. rewrite thread_step_bind.
    destruct (thread_step p m) as [a'|e m' p'].
    + inversion H; subst. simpl app.
      assert (E : solo (S (n + n2)) (f a) m1 = @Blocked B m2 e2).
      { replace (S (n + n2)) with (n2 + S n)%nat by lia.
        rewrite solo_more; [exact H2|]. rewrite H2. discriminate. }
      exact E.
    + destruct (parks e m); [discriminate|].
      apply prepend_returned in H. destruct H as (evs' & H & ->).
      rewrite (IH _ _ _ H). reflexivity.
Qed.

Lemma runs_bind A B (p : prog A) (f : A -> prog B) m a m1 e1 b m2 e2 :
  runs p m a m1 e1 -> runs (f a) m1 b m2 e2 ->
  runs (bind p f) m b m2 (e1 ++ e2).
Proof.
  intros [n1 H1] [n2 H2]. exists (n1 + n2)%nat.
  eapply solo_bind; eassumption.
Qed.

Lemma stalls_bind A B (p : prog A) (f : A -> prog B) m a m1 e1 m2 e2 :
  runs p m a m1 e1 -> stalls (f a) m1 m2 e2 ->
  stalls (bind p f) m m2 (e1 ++ e2).
Proof.
  intros [n1 H1] [n2 H2]. exists (n1 + n2)%nat.
  eapply solo_bind_stall; eassumption.
Qed.

(** * What each call does when its thread runs alone *)

Ltac norm_prog :=
  cbn [bind perform perform_ do_while
       act fst snd rd wr
       _next_ticket _now_serving _owner _recursion counter
       s_owner s_recursion negb].

Ltac one_step :=
  first
    [ eapply runs_Ret
    | eapply runs_Do; [ reflexivity | norm_prog ] ].

Ltac decide_eqb H := apply Z.eqb_neq in H; rewrite H; norm_prog.

Section TicketLockCalls.

Variable m : mem.

Local Abbreviation nt := (_next_ticket m).
Local Abbreviation ns := (_now_serving m).

(** The fast path of [lock]: the ticket drawn is the one being served. *)
Lemma ticket_lock_lock_fast :
  _next_ticket m = _now_serving m ->
  runs ticket_lock.lock m tt (wr l_next_ticket (nt + 1) m)
    [Ev (fetch_add l_next_ticket 1 memory_order_relaxed) nt;
     Ev (load l_now_serving memory_order_acquire) ns].
Proof.
  destruct m as [a b o' r' c]. cbn [_next_ticket _now_serving].
  intros ->. unfold ticket_lock.lock. norm_prog.
  one_step. one_step. rewrite Z.eqb_refl. norm_prog. one_step.
Qed.

(** The slow path with nobody to serve the ticket: the caller parks. *)
Lemma ticket_lock_lock_stalls :
  _next_ticket m <> _now_serving m ->
  stalls ticket_lock.lock m (wr l_next_ticket (nt + 1) m)
    [Ev (fetch_add l_next_ticket 1 memory_order_relaxed) nt;
     Ev (load l_now_serving memory_order_acquire) ns;
     Ev (atomic_wait l_now_serving ns) 0].
Proof.
  destruct m as [a b o' r' c]. cbn [_next_ticket _now_serving].
  intros H. unfold ticket_lock.lock, ticket_lock._lockSlow. norm_prog.
  eapply stalls_Do; [reflexivity|]. norm_prog.
  eapply stalls_Do; [reflexivity|]. norm_prog.
  decide_eqb H.
  eapply stalls_Loop_park with (l := l_now_serving).
  cbn. rewrite Z.eqb_refl. reflexivity.
Qed.

Lemma ticket_lock_unlock_runs :
  runs ticket_lock.unlock m tt (wr l_now_serving (ns + 1) m)
    [Ev (fetch_add l_now_serving 1 memory_order_release) ns;
     Ev (atomic_notify_one l_now_serving) 0].
Proof.
  destruct m as [a b o' r' c].
  unfold ticket_lock.unlock. norm_prog. one_step. one_step. one_step.
Qed.

End TicketLockCalls.

Section RecursiveLockCalls.

Variable m : mem.
Variable id : tid.

Local Abbreviation nt := (_next_ticket m).
Local Abbreviation ns := (_now_serving m).
Local Abbreviation o := (_owner m).
Local Abbreviation r := (_recursion m).

(** [lock] by a thread that is not the owner, the inner lock being free. *)
Lemma lock_acquires :
  _owner m <> id -> _next_ticket m = _now_serving m ->
  runs (recursive_ticket_lock.lock id) m tt
    (wr l_recursion (r + 1) (wr l_owner id (wr l_next_ticket (nt + 1) m)))
    [Ev (load l_owner memory_order_relaxed) o;
     Ev (fetch_add l_next_ticket 1 memory_order_relaxed) nt;
     Ev (load l_now_serving memory_order_acquire) ns;
     Ev (store l_owner id memory_order_relaxed) 0;
     Ev (read l_recursion) r;
     Ev (write l_recursion (r + 1)) 0].
Proof.
  destruct m as [a b o' r' c].
  cbn [_next_ticket _now_serving _owner _recursion]. intros Ho ->.
  unfold recursive_ticket_lock.lock, ticket_lock.lock. norm_prog.
  one_step. decide_eqb Ho. one_step. one_step.
  rewrite Z.eqb_refl. norm_prog. do 4 one_step.
Qed.

(** [lock] by the owner: the inner lock is not touched. *)
Lemma lock_reenters :
  _owner m = id ->
  runs (recursive_ticket_lock.lock id) m tt (wr l_recursion (r + 1) m)
    [Ev (load l_owner memory_order_relaxed) id;
     Ev (read l_recursion) r;
     Ev (write l_recursion (r + 1)) 0].
Proof.
  destruct m as [a b o' r' c]. cbn [_owner _recursion].
  intros ->. unfold recursive_ticket_lock.lock. norm_prog.
  one_step. rewrite Z.eqb_refl. norm_prog. do 3 one_step.
Qed.

(** [lock] by another thread while the inner lock is taken. *)
Lemma lock_stalls :
  _owner m <> id -> _next_ticket m <> _now_serving m ->
  stalls (recursive_ticket_lock.lock id) m (wr l_next_ticket (nt + 1) m)
    [Ev (load l_owner memory_order_relaxed) o;
     Ev (fetch_add l_next_ticket 1 memory_order_relaxed) nt;
     Ev (load l_now_serving memory_order_acquire) ns;
     Ev (atomic_wait l_now_serving ns) 0].
Proof.
  destruct m as [a b o' r' c].
  cbn [_next_ticket _now_serving _owner _recursion]. intros Ho Hn.
  unfold recursive_ticket_lock.lock, ticket_lock.lock, ticket_lock._lockSlow.
  norm_prog.
  eapply stalls_Do; [reflexivity|]. norm_prog. decide_eqb Ho.
  eapply stalls_Do; [reflexivity|]. norm_prog.
  eapply stalls_Do; [reflexivity|]. norm_prog. decide_eqb Hn.
  eapply stalls_Loop_park with (l := l_now_serving).
  cbn. rewrite Z.eqb_refl. reflexivity.
Qed.

Lemma unlock_inner :
  wrap32 (r - 1) <> 0 ->
  runs recursive_ticket_lock.unlock m tt (wr l_recursion (r - 1) m)
    [Ev (read l_recursion) r; Ev (write l_recursion (r - 1)) 0].
Proof.
  destruct m as [a b o' r' c]. cbn [_recursion]. intros H.
  unfold recursive_ticket_lock.unlock. norm_prog.
  one_step. one_step. decide_eqb H. one_step.
Qed.

Lemma unlock_last :
  wrap32 (r - 1) = 0 ->
  runs recursive_ticket_lock.unlock m tt
    (wr l_now_serving (ns + 1) (wr l_owner 0 (wr l_recursion (r - 1) m)))
    [Ev (read l_recursion) r; Ev (write l_recursion (r - 1)) 0;
     Ev (store l_owner 0 memory_order_relaxed) 0;
     Ev (fetch_add l_now_serving 1 memory_order_release) ns;
     Ev (atomic_notify_one l_now_serving) 0].
Proof.
  destruct m as [a b o' r' c].
  cbn [_recursion _now_serving]. intros H.
  unfold recursive_ticket_lock.unlock, ticket_lock.unlock. norm_prog.
  one_step. one_step. rewrite H. cbn [Z.eqb]. norm_prog. do 4 one_step.
Qed.

Lemma suspend_owner :
  _owner m = id ->
  runs (recursive_ticket_lock.suspend id) m (mkSuspension id r)
    (wr l_now_serving (ns + 1) (wr l_recursion 0 (wr l_owner 0 m)))
    [Ev (load l_owner memory_order_relaxed) id;
     Ev (read l_recursion) r;
     Ev (store l_owner 0 memory_order_relaxed) 0;
     Ev (write l_recursion 0) 0;
     Ev (fetch_add l_now_serving 1 memory_order_release) ns;
     Ev (atomic_notify_one l_now_serving) 0].
Proof.
  destruct m as [a b o' r' c].
  cbn [_owner _recursion _now_serving]. intros ->.
  unfold recursive_ticket_lock.suspend, ticket_lock.unlock. norm_prog.
  one_step. rewrite Z.eqb_refl. norm_prog. do 6 one_step.
Qed.

Lemma suspend_other :
  _owner m <> id ->
  runs (recursive_ticket_lock.suspend id) m (mkSuspension 0 0) m
    [Ev (load l_owner memory_order_relaxed) o].
Proof.
  destruct m as [a b o' r' c]. cbn [_owner]. intros H.
  unfold recursive_ticket_lock.suspend. norm_prog.
  one_step. decide_eqb H. one_step.
Qed.

Lemma is_locked_runs :
  runs (recursive_ticket_lock.is_locked id) m (if o =? id then 1 else 0) m
    [Ev (load l_owner memory_order_relaxed) o].
Proof.
  destruct m as [a b o' r' c].
  unfold recursive_ticket_lock.is_locked. norm_prog. one_step. one_step.
Qed.

Lemma recursion_depth_runs :
  runs (recursive_ticket_lock.recursion_depth id) m
    (if o =? id then r else 0) m
    (Ev (load l_owner memory_order_relaxed) o
     :: if o =? id then [Ev (read l_recursion) r] else []).
Proof.
  destruct m as [a b o' r' c].
  unfold recursive_ticket_lock.recursion_depth, recursive_ticket_lock.is_locked.
  norm_prog. one_step. destruct (o' =? id); cbn [Z.eqb]; norm_prog.
  - one_step. one_step.
  - one_step.
Qed.

End RecursiveLockCalls.

Section TokenDestruction.

Variable m : mem.
Variable s : recursive_ticket_lock_suspension.

Local Abbreviation nt := (_next_ticket m).
Local Abbreviation ns := (_now_serving m).
Local Abbreviation o := (_owner m).
Local Abbreviation r := (_recursion m).

Lemma destroy_empty :
  s_owner s = 0 -> runs (recursive_ticket_lock.destroy s) m tt m [].
Proof.
  intros H. unfold recursive_ticket_lock.destroy. rewrite H.
  cbn [Z.eqb negb]. one_step.
Qed.

Lemma destroy_same_owner :
  s_owner s <> 0 -> _owner m = s_owner s ->
  runs (recursive_ticket_lock.destroy s) m tt
    (wr l_recursion (r + s_recursion s) m)
    [Ev (load l_owner memory_order_relaxed) o;
     Ev (read l_recursion) r;
     Ev (write l_recursion (r + s_recursion s)) 0].
Proof.
  destruct m as [a b o' r' c]. destruct s as [so sr].
  cbn [_owner _recursion s_owner s_recursion]. intros H0 ->.
  unfold recursive_ticket_lock.destroy. norm_prog. decide_eqb H0.
  one_step. rewrite Z.eqb_refl. norm_prog. do 3 one_step.
Qed.

Lemma destroy_reacquires :
  s_owner s <> 0 -> _owner m <> s_owner s ->
  _next_ticket m = _now_serving m ->
  runs (recursive_ticket_lock.destroy s) m tt
    (wr l_recursion (r + s_recursion s)
       (wr l_owner (s_owner s) (wr l_next_ticket (nt + 1) m)))
    [Ev (load l_owner memory_order_relaxed) o;
     Ev (fetch_add l_next_ticket 1 memory_order_relaxed) nt;
     Ev (load l_now_serving memory_order_acquire) ns;
     Ev (store l_owner (s_owner s) memory_order_relaxed) 0;
     Ev (read l_recursion) r;
     Ev (write l_recursion (r + s_recursion s)) 0].
Proof.
  destruct m as [a b o' r' c]. destruct s as [so sr].
  cbn [_next_ticket _now_serving _owner _recursion s_owner s_recursion].
  intros H0 Ho ->.
  unfold recursive_ticket_lock.destroy, ticket_lock.lock. norm_prog.
  decide_eqb H0. one_step. decide_eqb Ho. one_step. one_step.
  rewrite Z.eqb_refl. norm_prog. do 4 one_step.
Qed.

Lemma destroy_stalls :
  s_owner s <> 0 -> _owner m <> s_owner s ->
  _next_ticket m <> _now_serving m ->
  stalls (recursive_ticket_lock.destroy s) m (wr l_next_ticket (nt + 1) m)
    [Ev (load l_owner memory_order_relaxed) o;
     Ev (fetch_add l_next_ticket 1 memory_order_relaxed) nt;
     Ev (load l_now_serving memory_order_acquire) ns;
     Ev (atomic_wait l_now_serving ns) 0].
Proof.
  destruct m as [a b o' r' c]. destruct s as [so sr].
  cbn [_next_ticket _now_serving _owner _recursion s_owner s_recursion].
  intros H0 Ho Hn.
  unfold recursive_ticket_lock.destroy, ticket_lock.lock, ticket_lock._lockSlow.
  norm_prog. decide_eqb H0.
  eapply stalls_Do; [reflexivity|]. norm_prog. decide_eqb Ho.
  eapply stalls_Do; [reflexivity|]. norm_prog.
  eapply stalls_Do; [reflexivity|]. norm_prog. decide_eqb Hn.
  eapply stalls_Loop_park with (l := l_now_serving).
  cbn. rewrite Z.eqb_refl. reflexivity.
Qed.

End TokenDestruction.

(** * The recursive lock, call by call *)

Lemma wf_fresh : wf fresh.
Proof. unfold wf, fresh; cbn. lia. Qed.

Lemma free_fresh : free fresh.
Proof. split; [apply wf_fresh|]. cbn. auto. Qed.

Lemma observe_runs m id :
  exists evs,
    runs (observe id) m
      (if _owner m =? id then 1 else 0,
       if _owner m =? id then _recursion m else 0) m evs
    /\ forallb observation evs = true.
Proof.
  eexists. split.
  - unfold observe.
    eapply runs_bind; [apply is_locked_runs|].
    eapply runs_bind; [apply recursion_depth_runs|].
    apply runs_Ret.
  - destruct (_owner m =? id); reflexivity.
Qed.

(** C9.  [is_locked()] is true exactly for the thread whose identifier is
    stored in [_owner]; [recursion_depth()] is [_recursion] for that thread
    and 0 for any other; neither writes to the lock; and a freshly
    constructed lock, all members 0, reports unlocked at depth 0 to every
    thread. *)
Theorem observers_and_fresh_lock (m : mem) (id : tid) (Hid : valid_tid id) :
  (exists b evs,
      runs (recursive_ticket_lock.is_locked id) m b m evs /\
      forallb observation evs = true /\
      (b = 1 <-> _owner m = id) /\ (b = 0 <-> _owner m <> id)) /\
  (exists d evs,
      runs (recursive_ticket_lock.recursion_depth id) m d m evs /\
      forallb observation evs = true /\
      (_owner m = id -> d = _recursion m) /\ (_owner m <> id -> d = 0)) /\
  (_next_ticket fresh = 0 /\ _now_serving fresh = 0 /\
   _owner fresh = 0 /\ _recursion fresh = 0) /\
  (exists evs, runs (recursive_ticket_lock.is_locked id) fresh 0 fresh evs) /\
  (exists evs, runs (recursive_ticket_lock.recursion_depth id) fresh 0 fresh evs).
Proof.
  pose proof (valid_tid_nonzero Hid) as Hnz.
  repeat split.
  - exists (if _owner m =? id then 1 else 0). eexists.
    split; [apply is_locked_runs|]. split; [reflexivity|].
    destruct (Z.eqb_spec (_owner m) id); split; split; intros; congruence.
  - exists (if _owner m =? id then _recursion m else 0). eexists.
    split; [apply recursion_depth_runs|].
    destruct (Z.eqb_spec (_owner m) id); repeat split; intros; congruence.
  - eexists. pose proof (is_locked_runs fresh id) as H. cbn [_owner fresh] in H.
    destruct (Z.eqb_spec 0 id); [congruence|]. exact H.
  - eexists. pose proof (recursion_depth_runs fresh id) as H.
    cbn [_owner _recursion fresh] in H.
    destruct (Z.eqb_spec 0 id); [congruence|]. exact H.
Qed.

Lemma observers_and_fresh_lock_witness :
  valid_tid 7 /\
  (exists evs, runs (recursive_ticket_lock.recursion_depth 7) fresh 0 fresh evs).
Proof.
  assert (H : valid_tid 7) by (unfold valid_tid; lia).
  split; [exact H|].
  exact (proj2 (proj2 (proj2 (proj2 (observers_and_fresh_lock (mkMem 3 2 7 2 0) H))))).
Defined.

(** C6.  [suspend()] called by the owner at depth [d] hands out the token
    [(owner, d)], stores [none] into [_owner] and 0 into [_recursion], and
    releases the inner ticket lock once.  Called by any other thread it
    hands out the token [(none, 0)] and writes nothing; destroying that
    token, in whatever state the lock then is, does nothing and
    returns. *)
Theorem suspend_semantics (m : mem) (id : tid) :
  (_owner m = id ->
   exists evs,
     runs (recursive_ticket_lock.suspend id) m
       (mkSuspension id (_recursion m))
       (mkMem (_next_ticket m) (wrap32 (_now_serving m + 1)) 0 0 (counter m))
       evs /\
     inner_unlocks evs = 1%nat) /\
  (_owner m <> id ->
   runs (recursive_ticket_lock.suspend id) m (mkSuspension 0 0) m
     [Ev (load l_owner memory_order_relaxed) (_owner m)] /\
   forall m', runs (recursive_ticket_lock.destroy (mkSuspension 0 0)) m' tt m' []).
Proof.
  split.
  - intros H. eexists. split.
    + apply suspend_owner. exact H.
    + reflexivity.
  - intros H. split.
    + apply suspend_other. exact H.
    + intros m'. apply destroy_empty. reflexivity.
Qed.

Lemma suspend_semantics_witness :
  (exists evs,
     runs (recursive_ticket_lock.suspend 7) (mkMem 3 2 7 2 0)
       (mkSuspension 7 2) (mkMem 3 3 0 0 0) evs /\
     inner_unlocks evs = 1%nat) /\
  (runs (recursive_ticket_lock.suspend 9) (mkMem 3 2 7 2 0)
     (mkSuspension 0 0) (mkMem 3 2 7 2 0)
     [Ev (load l_owner memory_order_relaxed) 7] /\
   forall m', runs (recursive_ticket_lock.destroy (mkSuspension 0 0)) m' tt m' []).
Proof.
  split.
  - apply (proj1 (suspend_semantics (mkMem 3 2 7 2 0) 7)). reflexivity.
  - apply (proj2 (suspend_semantics (mkMem 3 2 7 2 0) 9)). cbn. lia.
Defined.

Lemma held_by_observe t d m :
  held_by t d m -> exists evs, runs (observe t) m (1, d) m evs.
Proof.
  intros (_ & _ & Ho & Hr & _).
  destruct (observe_runs m t) as (evs & H & _).
  rewrite Ho, Z.eqb_refl, Hr in H. eauto.
Qed.

Lemma free_observe t m :
  valid_tid t -> free m -> exists evs, runs (observe t) m (0, 0) m evs.
Proof.
  intros Ht (_ & Ho & _).
  destruct (observe_runs m t) as (evs & H & _).
  rewrite Ho in H. apply valid_tid_nonzero in Ht.
  destruct (Z.eqb_spec 0 t); [congruence|]. eauto.
Qed.

(** What [suspend] leaves of a lock held by the caller. *)
Lemma suspend_frees t d m :
  held_by t d m ->
  exists m1 evs,
    runs (recursive_ticket_lock.suspend t) m (mkSuspension t d) m1 evs /\
    free m1 /\ _next_ticket m1 = _next_ticket m /\ counter m1 = counter m.
Proof.
  intros (Hwf & Ht & Ho & Hr & Hd & Hn).
  exists (mkMem (_next_ticket m) (wrap32 (_now_serving m + 1)) 0 0 (counter m)).
  eexists. split.
  - rewrite <- Hr. apply suspend_owner. exact Ho.
  - unfold free, wf. cbn. destruct Hwf as (H1 & H2 & H3 & H4).
    pose proof (wrap32_range (_now_serving m + 1)). repeat split; auto; lia.
Qed.

(** The destructor of a token captured from thread [t] at depth [d],
    run on a free lock. *)
Lemma destroy_restores t d m :
  valid_tid t -> 0 < d < 2 ^ 32 -> free m ->
  exists m2 evs,
    runs (recursive_ticket_lock.destroy (mkSuspension t d)) m tt m2 evs /\
    held_by t d m2 /\ _next_ticket m2 = wrap32 (_next_ticket m + 1) /\
    counter m2 = counter m.
Proof.
  intros Ht Hd (Hwf & Ho & Hr & Hn).
  eexists. eexists. split.
  - apply destroy_reacquires; cbn [s_owner].
    + apply valid_tid_nonzero, Ht.
    + rewrite Ho. intros E. symmetry in E. revert E. apply valid_tid_nonzero, Ht.
    + exact Hn.
  - cbn [s_owner s_recursion]. destruct m as [a b o r c].
    cbn -[Z.pow wrap32] in *. subst.
    unfold held_by, wf. cbn -[Z.pow wrap32]. rewrite (valid_tid_wrap Ht).
    rewrite (@wrap32_small d) by lia.
    pose proof (wrap32_range (b + 1)). unfold valid_tid in Ht.
    destruct Hwf as (_ & Hb & _). cbn in Hb.
    repeat split; auto; try lia.
Qed.

(** C7.  A thread holding the lock at depth [d] that suspends it and lets
    the token die at once holds it again at depth [d]: [is_locked()] is
    true and [recursion_depth()] is [d]. *)
Theorem suspend_resume_round_trip (m : mem) (t : tid) (d : Z)
  (H : held_by t d m) :
  exists m' evs, runs (suspend_resume t) m (1, d) m' evs /\ held_by t d m'.
Proof.
  destruct (suspend_frees H) as (m1 & e1 & R1 & F1 & _).
  assert (Hd : 0 < d < 2 ^ 32).
  { destruct H as (Hwf & _ & _ & Hr & Hd & _).
    destruct Hwf as (_ & _ & _ & Hw). lia. }
  assert (Ht : valid_tid t) by apply H.
  destruct (destroy_restores Ht Hd F1) as (m2 & e2 & R2 & H2 & _).
  destruct (held_by_observe H2) as (e3 & R3).
  exists m2. eexists. split; [|exact H2].
  unfold suspend_resume.
  eapply runs_bind; [exact R1|].
  eapply runs_bind; [exact R2|]. exact R3.
Qed.

Lemma held_example : held_by 7 3 (mkMem 5 4 7 3 0).
Proof.
  unfold held_by, wf, valid_tid. cbn. repeat split; lia.
Qed.

Lemma suspend_resume_round_trip_witness :
  held_by 7 3 (mkMem 5 4 7 3 0) /\
  exists m' evs,
    runs (suspend_resume 7) (mkMem 5 4 7 3 0) (1, 3) m' evs /\ held_by 7 3 m'.
Proof.
  split.
  - exact held_example.
  - exact (suspend_resume_round_trip held_example).
Defined.

Lemma lock_free_holds t m :
  valid_tid t -> free m ->
  exists m1 evs,
    runs (recursive_ticket_lock.lock t) m tt m1 evs /\ held_by t 1 m1 /\
    filter on_ticket_lock evs =
      [Ev (fetch_add l_next_ticket 1 memory_order_relaxed) (_next_ticket m);
       Ev (load l_now_serving memory_order_acquire) (_now_serving m)].
Proof.
  intros Ht (Hwf & Ho & Hr & Hn).
  eexists. eexists. split; [|split].
  - apply lock_acquires.
    + rewrite Ho. intros E. symmetry in E. revert E. apply valid_tid_nonzero, Ht.
    + exact Hn.
  - destruct m as [a b o r c]. cbn -[Z.pow wrap32] in *. subst.
    unfold held_by, wf. cbn -[Z.pow wrap32]. rewrite (valid_tid_wrap Ht).
    change (wrap32 1) with 1.
    pose proof (wrap32_range (b + 1)). unfold valid_tid in Ht.
    destruct Hwf as (_ & Hb & _). cbn in Hb.
    repeat split; auto; try lia.
  - reflexivity.
Qed.

Lemma lock_again_holds t d m :
  held_by t d m -> d + 1 < 2 ^ 32 ->
  exists m1,
    runs (recursive_ticket_lock.lock t) m tt m1
      [Ev (load l_owner memory_order_relaxed) t;
       Ev (read l_recursion) d;
       Ev (write l_recursion (d + 1)) 0] /\
    held_by t (d + 1) m1.
Proof.
  intros (Hwf & Ht & Ho & Hr & Hd & Hn) Hlt.
  eexists. split.
  - rewrite <- Hr. apply lock_reenters. exact Ho.
  - destruct m as [a b o r c]. cbn -[Z.pow wrap32] in *. subst.
    unfold held_by, wf in *. cbn -[Z.pow wrap32] in *.
    rewrite (@wrap32_small (d + 1)) by lia.
    unfold valid_tid in *. repeat split; auto; try lia.
Qed.

Lemma unlock_inner_holds t d m :
  held_by t d m -> 1 < d ->
  exists m1 evs,
    runs recursive_ticket_lock.unlock m tt m1 evs /\ held_by t (d - 1) m1.
Proof.
  intros (Hwf & Ht & Ho & Hr & Hd & Hn) Hlt.
  assert (Hw : wrap32 (d - 1) = d - 1).
  { apply wrap32_small. destruct Hwf as (_ & _ & _ & Hw). lia. }
  eexists. eexists. split.
  - apply unlock_inner. rewrite Hr, Hw. lia.
  - destruct m as [a b o r c]. cbn -[Z.pow wrap32] in *. subst.
    unfold held_by, wf in *. cbn -[Z.pow wrap32] in *. rewrite Hw.
    unfold valid_tid in *. repeat split; auto; try lia.
Qed.

Lemma unlock_last_frees t m :
  held_by t 1 m ->
  exists m1 evs,
    runs recursive_ticket_lock.unlock m tt m1 evs /\ free m1 /\
    _next_ticket m1 = _next_ticket m.
Proof.
  intros (Hwf & Ht & Ho & Hr & Hd & Hn).
  eexists. eexists. split; [|split].
  - apply unlock_last. rewrite Hr. reflexivity.
  - destruct m as [a b o r c]. cbn -[Z.pow wrap32] in *. subst.
    unfold free, wf in *. cbn -[Z.pow wrap32] in *.
    change (wrap32 0) with 0.
    pose proof (wrap32_range (b + 1)).
    repeat split; auto; try lia.
  - reflexivity.
Qed.

(** C8.  The destructor of a token whose captured owner is not [none]:
    when the lock is owned by the captured owner it leaves the inner lock
    alone; otherwise it takes the inner lock (stalling while it is taken)
    and stores the captured owner; either way it stores the sum of the
    present and the captured recursion count.  So a thread at depth 2
    that suspends, calls [lock()] and [unlock()] once, and lets the token
    die is back at depth 2 with [is_locked()] true. *)
Theorem token_restoration_composes (m : mem) (s : recursive_ticket_lock_suspension)
  (Hs : s_owner s <> 0) :
  (_owner m = s_owner s ->
   runs (recursive_ticket_lock.destroy s) m tt
     (mkMem (_next_ticket m) (_now_serving m) (_owner m)
            (wrap32 (_recursion m + s_recursion s)) (counter m))
     [Ev (load l_owner memory_order_relaxed) (_owner m);
      Ev (read l_recursion) (_recursion m);
      Ev (write l_recursion (_recursion m + s_recursion s)) 0]) /\
  (_owner m <> s_owner s -> _next_ticket m = _now_serving m ->
   runs (recursive_ticket_lock.destroy s) m tt
     (mkMem (wrap32 (_next_ticket m + 1)) (_now_serving m) (wrap32 (s_owner s))
            (wrap32 (_recursion m + s_recursion s)) (counter m))
     [Ev (load l_owner memory_order_relaxed) (_owner m);
      Ev (fetch_add l_next_ticket 1 memory_order_relaxed) (_next_ticket m);
      Ev (load l_now_serving memory_order_acquire) (_now_serving m);
      Ev (store l_owner (s_owner s) memory_order_relaxed) 0;
      Ev (read l_recursion) (_recursion m);
      Ev (write l_recursion (_recursion m + s_recursion s)) 0]) /\
  (_owner m <> s_owner s -> _next_ticket m <> _now_serving m ->
   exists m' evs, stalls (recursive_ticket_lock.destroy s) m m' evs) /\
  (forall t m0, held_by t 2 m0 ->
   exists m' evs, runs (suspend_reenter t) m0 (1, 2) m' evs /\ held_by t 2 m').
Proof.
  repeat split.
  - intros Ho. apply destroy_same_owner; assumption.
  - intros Ho Hn. apply destroy_reacquires; assumption.
  - intros Ho Hn. eexists. eexists. apply destroy_stalls; assumption.
  - intros t m0 H.
    assert (Ht : valid_tid t) by apply H.
    destruct (suspend_frees H) as (m1 & e1 & R1 & F1 & _).
    destruct (lock_free_holds Ht F1) as (m2 & e2 & R2 & H2 & _).
    destruct (unlock_last_frees H2) as (m3 & e3 & R3 & F3 & _).
    assert (Hd : 0 < 2 < 2 ^ 32) by lia.
    destruct (destroy_restores Ht Hd F3) as (m4 & e4 & R4 & H4 & _).
    destruct (held_by_observe H4) as (e5 & R5).
    exists m4. eexists. split; [|exact H4].
    unfold suspend_reenter.
    eapply runs_bind; [exact R1|].
    eapply runs_bind; [exact R2|].
    eapply runs_bind; [exact R3|].
    eapply runs_bind; [exact R4|]. exact R5.
Qed.

Lemma held_example2 : held_by 7 2 (mkMem 5 4 7 2 0).
Proof.
  unfold held_by, wf, valid_tid. cbn. repeat split; lia.
Qed.

Lemma token_restoration_composes_witness :
  s_owner (mkSuspension 7 2) <> 0 /\
  runs (recursive_ticket_lock.destroy (mkSuspension 7 2)) (mkMem 6 6 7 1 0) tt
    (mkMem 6 6 7 3 0)
    [Ev (load l_owner memory_order_relaxed) 7;
     Ev (read l_recursion) 1;
     Ev (write l_recursion 3) 0] /\
  runs (recursive_ticket_lock.destroy (mkSuspension 7 2)) (mkMem 6 6 0 0 0) tt
    (mkMem 7 6 7 2 0)
    [Ev (load l_owner memory_order_relaxed) 0;
     Ev (fetch_add l_next_ticket 1 memory_order_relaxed) 6;
     Ev (load l_now_serving memory_order_acquire) 6;
     Ev (store l_owner 7 memory_order_relaxed) 0;
     Ev (read l_recursion) 0;
     Ev (write l_recursion 2) 0] /\
  exists m' evs,
    runs (suspend_reenter 7) (mkMem 5 4 7 2 0) (1, 2) m' evs /\ held_by 7 2 m'.
Proof.
  assert (H7 : s_owner (mkSuspension 7 2) <> 0) by (cbn; lia).
  split; [exact H7|]. split; [|split].
  - apply (proj1 (@token_restoration_composes (mkMem 6 6 7 1 0) (mkSuspension 7 2) H7)). reflexivity.
  - apply (proj1 (proj2 (@token_restoration_composes (mkMem 6 6 0 0 0) (mkSuspension 7 2) H7))).
    + cbn. lia.
    + reflexivity.
  - apply (proj2 (proj2 (proj2 (@token_restoration_composes (mkMem 6 6 0 0 0) (mkSuspension 7 2) H7)))).
    exact held_example2.
Defined.

(** C10.  A second [suspend()] by the thread that has just suspended the
    lock finds [_owner] to be [none]: it hands out the token [(0, 0)] and
    leaves the lock as it is; destroying that token does nothing; the first
    token, destroyed after it, puts the thread back at its depth. *)
Theorem repeated_suspend_is_noop (m : mem) (t : tid) (d : Z)
  (H : held_by t d m) :
  exists m1 e1,
    runs (recursive_ticket_lock.suspend t) m (mkSuspension t d) m1 e1 /\
    runs (recursive_ticket_lock.suspend t) m1 (mkSuspension 0 0) m1
      [Ev (load l_owner memory_order_relaxed) 0] /\
    (forall m', runs (recursive_ticket_lock.destroy (mkSuspension 0 0)) m' tt m' []) /\
    exists m2 e2,
      runs (suspend_twice t) m (mkSuspension t d, mkSuspension 0 0, (1, d)) m2 e2 /\
      held_by t d m2.
Proof.
  assert (Ht : valid_tid t) by apply H.
  assert (Hd : 0 < d < 2 ^ 32).
  { destruct H as (Hwf & _ & _ & Hr & Hd & _).
    destruct Hwf as (_ & _ & _ & Hw). lia. }
  destruct (suspend_frees H) as (m1 & e1 & R1 & F1 & _).
  assert (R2 : runs (recursive_ticket_lock.suspend t) m1 (mkSuspension 0 0) m1
                 [Ev (load l_owner memory_order_relaxed) 0]).
  { destruct F1 as (_ & Ho & _).
    pose proof (@suspend_other m1 t) as R. rewrite Ho in R. apply R.
    intros E. symmetry in E. revert E. apply valid_tid_nonzero, Ht. }
  assert (R3 : forall m', runs (recursive_ticket_lock.destroy (mkSuspension 0 0)) m' tt m' []).
  { intros m'. apply destroy_empty. reflexivity. }
  destruct (destroy_restores Ht Hd F1) as (m2 & e2 & R4 & H2 & _).
  destruct (held_by_observe H2) as (e5 & R5).
  exists m1, e1. split; [exact R1|]. split; [exact R2|]. split; [exact R3|].
  exists m2. eexists. split; [|exact H2].
  unfold suspend_twice.
  eapply runs_bind; [exact R1|].
  eapply runs_bind; [exact R2|].
  eapply runs_bind; [apply R3|].
  eapply runs_bind; [exact R4|].
  eapply runs_bind; [exact R5|]. apply runs_Ret.
Qed.

Lemma repeated_suspend_is_noop_witness :
  held_by 7 3 (mkMem 5 4 7 3 0) /\
  exists m1 e1,
    runs (recursive_ticket_lock.suspend 7) (mkMem 5 4 7 3 0) (mkSuspension 7 3) m1 e1 /\
    runs (recursive_ticket_lock.suspend 7) m1 (mkSuspension 0 0) m1
      [Ev (load l_owner memory_order_relaxed) 0] /\
    (forall m', runs (recursive_ticket_lock.destroy (mkSuspension 0 0)) m' tt m' []) /\
    exists m2 e2,
      runs (suspend_twice 7) (mkMem 5 4 7 3 0)
        (mkSuspension 7 3, mkSuspension 0 0, (1, 3)) m2 e2 /\
      held_by 7 3 m2.
Proof.
  split.
  - exact held_example.
  - exact (repeated_suspend_is_noop held_example).
Defined.

(** ** Repeated calls *)

Lemma times_succ k p : times (N.succ k) p = p ;; times k p.
Proof. unfold times. rewrite N.iter_succ. reflexivity. Qed.

Lemma times_zero p : times 0 p = Ret tt.
Proof. reflexivity. Qed.

(** Re-entrant calls, counted with the wrap-around of [_recursion]. *)
Lemma relock_times_wrap t k :
  forall m, _owner m = t -> 0 <= _recursion m < 2 ^ 32 ->
  exists evs,
    runs (times k (recursive_ticket_lock.lock t)) m tt
      (mkMem (_next_ticket m) (_now_serving m) (_owner m)
             (wrap32 (_recursion m + Z.of_N k)) (counter m)) evs /\
    filter on_ticket_lock evs = [].
Proof.
  induction k as [|k IH] using N.peano_ind; intros m Ho Hr.
  - exists []. split; [|reflexivity]. rewrite times_zero.
    replace (wrap32 (_recursion m + Z.of_N 0)) with (_recursion m).
    + destruct m. apply runs_Ret.
    + rewrite Z.add_0_r. symmetry. apply wrap32_small, Hr.
  - rewrite times_succ.
    pose proof (@lock_reenters m t Ho) as R1.
    set (m1 := wr l_recursion (_recursion m + 1) m) in *.
    destruct (IH m1) as (evs & R2 & F2).
    + destruct m; exact Ho.
    + destruct m; cbn -[Z.pow wrap32]. apply wrap32_range.
    + eexists. split.
      * eapply runs_bind; [exact R1|].
        replace (mkMem (_next_ticket m) (_now_serving m) (_owner m)
                   (wrap32 (_recursion m + Z.of_N (N.succ k))) (counter m))
          with (mkMem (_next_ticket m1) (_now_serving m1) (_owner m1)
                   (wrap32 (_recursion m1 + Z.of_N k)) (counter m1)).
        { exact R2. }
        destruct m as [a b o r c]. subst m1. cbn -[Z.pow wrap32 Z.of_N].
        f_equal. unfold wrap32. rewrite Zplus_mod_idemp_l. f_equal. lia.
      * cbn [app filter on_ticket_lock loc_eqb orb]. exact F2.
Qed.

Lemma relock_times t k d m :
  held_by t d m -> d + Z.of_N k < 2 ^ 32 ->
  exists m1 evs,
    runs (times k (recursive_ticket_lock.lock t)) m tt m1 evs /\
    held_by t (d + Z.of_N k) m1 /\ filter on_ticket_lock evs = [].
Proof.
  intros (Hwf & Ht & Ho & Hr & Hd & Hn) Hlt.
  destruct (@relock_times_wrap t k m Ho) as (evs & R & F).
  { apply Hwf. }
  eexists. exists evs. split; [exact R|]. split; [|exact F].
  unfold held_by, wf in *. cbn -[Z.pow wrap32 Z.of_N].
  rewrite Hr. rewrite wrap32_small by lia.
  unfold valid_tid in *. repeat split; auto; try lia.
Qed.

Lemma unlock_times t k :
  forall m, held_by t (Z.of_N (N.succ k)) m ->
  exists m1 evs,
    runs (times (N.succ k) recursive_ticket_lock.unlock) m tt m1 evs /\ free m1.
Proof.
  induction k as [|k IH] using N.peano_ind; intros m H.
  - destruct (unlock_last_frees H) as (m1 & e1 & R1 & F1 & _).
    exists m1. eexists. split; [|exact F1].
    rewrite times_succ. eapply runs_bind; [exact R1|]. apply runs_Ret.
  - destruct (@unlock_inner_holds t _ m H) as (m1 & e1 & R1 & H1); [lia|].
    replace (Z.of_N (N.succ (N.succ k)) - 1) with (Z.of_N (N.succ k)) in H1 by lia.
    destruct (IH m1 H1) as (m2 & e2 & R2 & F2).
    exists m2. eexists. split; [|exact F2].
    rewrite times_succ. eapply runs_bind; [exact R1|]. exact R2.
Qed.

(** C4, with the bound that the 32-bit count imposes.  From a free lock,
    [k] calls of [lock()] by one thread all return, only the first of them
    touches the inner ticket lock, and [recursion_depth()] is then [k];
    [k] calls of [unlock()] later [is_locked()] is false and
    [recursion_depth()] is 0.  A call by the owner returns whatever the
    state of the inner lock. *)
Theorem reentrant_lock_depth (m : mem) (t : tid) (k : N)
  (Hm : free m) (Ht : valid_tid t) (Hk : (1 <= k < 2 ^ 32)%N) :
  (exists m1 e1 m2 e2,
      runs (times k (recursive_ticket_lock.lock t)) m tt m1 e1 /\
      filter on_ticket_lock e1 =
        [Ev (fetch_add l_next_ticket 1 memory_order_relaxed) (_next_ticket m);
         Ev (load l_now_serving memory_order_acquire) (_now_serving m)] /\
      (exists e, runs (observe t) m1 (1, Z.of_N k) m1 e) /\
      runs (times k recursive_ticket_lock.unlock) m1 tt m2 e2 /\
      (exists e, runs (observe t) m2 (0, 0) m2 e)) /\
  (exists m' evs, runs (lock_unlock_times k t) m (Z.of_N k, (0, 0)) m' evs) /\
  (forall m0, _owner m0 = t ->
     exists m', runs (recursive_ticket_lock.lock t) m0 tt m'
                  [Ev (load l_owner memory_order_relaxed) t;
                   Ev (read l_recursion) (_recursion m0);
                   Ev (write l_recursion (_recursion m0 + 1)) 0]).
Proof.
  assert (Ek : k = N.succ (N.pred k)) by lia.
  assert (Hp : 1 + Z.of_N (N.pred k) < 2 ^ 32).
  { destruct Hk as [_ Hk]. apply N2Z.inj_lt in Hk.
    change (Z.of_N (2 ^ 32)) with (2 ^ 32) in Hk. lia. }
  destruct (lock_free_holds Ht Hm) as (ma & ea & Ra & Ha & Fa).
  destruct (relock_times (N.pred k) Ha Hp) as (m1 & eb & Rb & H1 & Fb).
  replace (1 + Z.of_N (N.pred k)) with (Z.of_N k) in H1 by lia.
  assert (R1 : runs (times k (recursive_ticket_lock.lock t)) m tt m1 (ea ++ eb)).
  { rewrite Ek, times_succ. eapply runs_bind; [exact Ra|exact Rb]. }
  assert (H1' : held_by t (Z.of_N (N.succ (N.pred k))) m1) by (rewrite <- Ek; exact H1).
  destruct (@unlock_times t (N.pred k) m1 H1') as (m2 & e2 & R2 & F2).
  rewrite <- Ek in R2.
  destruct (held_by_observe H1) as (eo1 & Ro1).
  destruct (free_observe Ht F2) as (eo2 & Ro2).
  split; [|split].
  - exists m1, (ea ++ eb), m2, e2. split; [exact R1|]. split.
    + rewrite filter_app, Fa, Fb. reflexivity.
    + split; [eauto|]. split; [exact R2|eauto].
  - assert (Rd : exists e, runs (recursive_ticket_lock.recursion_depth t) m1 (Z.of_N k) m1 e).
    { pose proof (recursion_depth_runs m1 t) as R.
      destruct H1 as (_ & _ & Ho & Hr & _). rewrite Ho, Z.eqb_refl, Hr in R. eauto. }
    destruct Rd as (ed & Rd).
    exists m2. eexists. unfold lock_unlock_times.
    eapply runs_bind; [exact R1|].
    eapply runs_bind; [exact Rd|].
    eapply runs_bind; [exact R2|].
    eapply runs_bind; [exact Ro2|]. apply runs_Ret.
  - intros m0 Ho. eexists. apply lock_reenters. exact Ho.
Qed.

Lemma reentrant_lock_depth_witness :
  free fresh /\ valid_tid 7 /\ (1 <= 3 < 2 ^ 32)%N /\
  exists m' evs, runs (lock_unlock_times 3 7) fresh (3, (0, 0)) m' evs.
Proof.
  assert (Ht : valid_tid 7) by (unfold valid_tid; lia).
  assert (Hk : (1 <= 3 < 2 ^ 32)%N) by (cbn; lia).
  split; [exact free_fresh|]. split; [exact Ht|]. split; [exact Hk|].
  exact (proj1 (proj2 (reentrant_lock_depth free_fresh Ht Hk))).
Defined.

(** C4 as stated fails at [k = 2^32]: after that many calls of [lock()]
    on a fresh lock the 32-bit count is back at 0, so [recursion_depth()]
    is 0 and not [k]. *)
Lemma reentrant_lock_depth_counterexample :
  exists m1 e1 e2,
    runs (times (2 ^ 32) (recursive_ticket_lock.lock 1)) fresh tt m1 e1 /\
    runs (recursive_ticket_lock.recursion_depth 1) m1 0 m1 e2 /\
    0 <> Z.of_N (2 ^ 32).
Proof.
  assert (Ht : valid_tid 1) by (unfold valid_tid; lia).
  pose proof (@lock_acquires fresh 1) as Ra.
  cbn [fresh _owner _next_ticket _now_serving _recursion] in Ra.
  specialize (Ra ltac:(discriminate) eq_refl).
  set (ma := wr l_recursion (0 + 1) (wr l_owner 1 (wr l_next_ticket (0 + 1) fresh))) in *.
  destruct (@relock_times_wrap 1 (2 ^ 32 - 1) ma) as (eb & Rb & _).
  { reflexivity. }
  { cbn. lia. }
  change (mkMem (_next_ticket ma) (_now_serving ma) (_owner ma)
            (wrap32 (_recursion ma + Z.of_N (2 ^ 32 - 1))) (counter ma))
    with (mkMem 1 0 1 0 0) in Rb.
  exists (mkMem 1 0 1 0 0). eexists. eexists. split; [|split].
  - change (2 ^ 32)%N with (N.succ (2 ^ 32 - 1)). rewrite times_succ.
    eapply runs_bind; [exact Ra|exact Rb].
  - exact (recursion_depth_runs (mkMem 1 0 1 0 0) 1).
  - discriminate.
Qed.

(** ** The invariant of the recursive lock *)

Lemma good_constructed : good constructed.
Proof.
  unfold good, lock_invariant. cbn.
  split; [split; [lia|intros H; exfalso; apply H; reflexivity]|].
  split; [lia|intros _ _ []].
Qed.

Lemma tokens_kept (st : rstate) t l :
  (forall u s, In s (r_tokens st u) -> token_ok s) ->
  (forall s, In s l -> token_ok s) ->
  forall u s, In s (set_tokens (r_tokens st) t l u) -> token_ok s.
Proof.
  intros Hold Hnew u s. unfold set_tokens.
  destruct (u =? t); [apply Hnew|apply Hold].
Qed.

(** The memory a call leaves, by cases on the memory it finds. *)
Lemma lock_result t m m' evs :
  runs (recursive_ticket_lock.lock t) m tt m' evs ->
  (_owner m = t /\ m' = wr l_recursion (_recursion m + 1) m) \/
  (_owner m <> t /\
   m' = wr l_recursion (_recursion m + 1)
          (wr l_owner t (wr l_next_ticket (_next_ticket m + 1) m))).
Proof.
  intros R. destruct (Z.eq_dec (_owner m) t) as [Ho|Ho].
  - left. split; [exact Ho|].
    pose proof (@lock_reenters m t Ho) as R'.
    destruct (runs_deterministic R R') as (_ & E & _). exact E.
  - right. split; [exact Ho|].
    destruct (Z.eq_dec (_next_ticket m) (_now_serving m)) as [Hn|Hn].
    + pose proof (@lock_acquires m t Ho Hn) as R'.
      destruct (runs_deterministic R R') as (_ & E & _). exact E.
    + exfalso. eapply runs_not_stalls; [exact R|]. apply lock_stalls; eassumption.
Qed.

Lemma unlock_result m m' evs :
  runs recursive_ticket_lock.unlock m tt m' evs ->
  (wrap32 (_recursion m - 1) <> 0 /\ m' = wr l_recursion (_recursion m - 1) m) \/
  (wrap32 (_recursion m - 1) = 0 /\
   m' = wr l_now_serving (_now_serving m + 1)
          (wr l_owner 0 (wr l_recursion (_recursion m - 1) m))).
Proof.
  intros R. destruct (Z.eq_dec (wrap32 (_recursion m - 1)) 0) as [H|H].
  - right. split; [exact H|].
    pose proof (unlock_last m H) as R'.
    destruct (runs_deterministic R R') as (_ & E & _). exact E.
  - left. split; [exact H|].
    pose proof (unlock_inner m H) as R'.
    destruct (runs_deterministic R R') as (_ & E & _). exact E.
Qed.

Lemma suspend_result t m s m' evs :
  runs (recursive_ticket_lock.suspend t) m s m' evs ->
  (_owner m = t /\ s = mkSuspension t (_recursion m) /\
   m' = wr l_now_serving (_now_serving m + 1) (wr l_recursion 0 (wr l_owner 0 m))) \/
  (_owner m <> t /\ s = mkSuspension 0 0 /\ m' = m).
Proof.
  intros R. destruct (Z.eq_dec (_owner m) t) as [Ho|Ho].
  - left. split; [exact Ho|].
    pose proof (@suspend_owner m t Ho) as R'.
    destruct (runs_deterministic R R') as (E1 & E2 & _). auto.
  - right. split; [exact Ho|].
    pose proof (@suspend_other m t Ho) as R'.
    destruct (runs_deterministic R R') as (E1 & E2 & _). auto.
Qed.

Lemma destroy_result s m m' evs :
  runs (recursive_ticket_lock.destroy s) m tt m' evs ->
  (s_owner s = 0 /\ m' = m) \/
  (s_owner s <> 0 /\ _owner m = s_owner s /\
   m' = wr l_recursion (_recursion m + s_recursion s) m) \/
  (s_owner s <> 0 /\ _owner m <> s_owner s /\
   m' = wr l_recursion (_recursion m + s_recursion s)
          (wr l_owner (s_owner s) (wr l_next_ticket (_next_ticket m + 1) m))).
Proof.
  intros R. destruct (Z.eq_dec (s_owner s) 0) as [Hs|Hs].
  - left. split; [exact Hs|].
    pose proof (destroy_empty m s Hs) as R'.
    destruct (runs_deterministic R R') as (_ & E & _). exact E.
  - right. destruct (Z.eq_dec (_owner m) (s_owner s)) as [Ho|Ho].
    + left. split; [exact Hs|]. split; [exact Ho|].
      pose proof (destroy_same_owner m s Hs Ho) as R'.
      destruct (runs_deterministic R R') as (_ & E & _). exact E.
    + right. split; [exact Hs|]. split; [exact Ho|].
      destruct (Z.eq_dec (_next_ticket m) (_now_serving m)) as [Hn|Hn].
      * pose proof (destroy_reacquires m s Hs Ho Hn) as R'.
        destruct (runs_deterministic R R') as (_ & E & _). exact E.
      * exfalso. eapply runs_not_stalls; [exact R|].
        apply destroy_stalls; eassumption.
Qed.

Lemma rstep_keeps_good st t c st' :
  good st -> valid_tid t -> rstep t c st st' -> no_wrap t c st st' -> good st'.
Proof.
  intros (Hinv & Hr & Htok) Ht Hstep Hnw.
  pose proof (valid_tid_nonzero Ht) as Hnz.
  pose proof (valid_tid_wrap Ht) as Hw.
  unfold lock_invariant in Hinv.
  destruct Hstep as [st m' evs R|st m' evs Ho R|st s m' evs R|st s rest m' evs Hs R];
    destruct st as [m toks]; cbn [r_mem r_tokens no_wrap] in *;
    unfold good, lock_invariant; cbn [r_mem r_tokens].
  - (* lock *)
    assert (Ho' : _owner m' = t).
    { destruct (lock_result R) as [(Ho & ->)|(Ho & ->)];
        destruct m; cbn -[wrap32]; auto. }
    rewrite Hnw, Ho'. split; [split; intros; [exact Hnz|lia]|].
    split; [lia|exact Htok].
  - (* unlock *)
    assert (Hpos : 0 < _recursion m) by (apply Hinv; congruence).
    destruct (unlock_result R) as [(Hz & ->)|(Hz & ->)]; clear R;
      destruct m as [a b o r c]; cbn -[wrap32 Z.pow] in *.
    + pose proof (wrap32_range (r - 1)). subst o.
      split; [split; intros; [exact Hnz|lia]|]. split; [lia|exact Htok].
    + rewrite Hz. change (wrap32 0) with 0.
      split; [split; intros; [lia|congruence]|]. split; [lia|exact Htok].
  - (* suspend *)
    destruct (suspend_result R) as [(Ho & -> & ->)|(Ho & -> & ->)]; clear R.
    + destruct m as [a b o r c]; cbn -[wrap32 Z.pow] in *.
      change (wrap32 0) with 0.
      split; [split; intros; [lia|congruence]|]. split; [lia|].
      apply (@tokens_kept (mkRstate (mkMem a b o r c) toks)); [exact Htok|].
      intros s [<-|Hin]; [|eapply Htok; exact Hin].
      right. cbn. subst o. split; [exact Ht|]. apply Hinv. exact Hnz.
    + split; [exact Hinv|]. split; [exact Hr|].
      apply (@tokens_kept (mkRstate m toks)); [exact Htok|].
      intros s [<-|Hin]; [|eapply Htok; exact Hin].
      left. split; reflexivity.
  - (* destroy *)
    rewrite Hs in Hnw.
    assert (Hok : token_ok s) by (apply (Htok t); rewrite Hs; left; reflexivity).
    assert (Hrest : forall u s0,
               In s0 (set_tokens toks t rest u) -> token_ok s0).
    { apply (@tokens_kept (mkRstate m toks)); [exact Htok|].
      intros s0 Hin. apply (Htok t). rewrite Hs. right. exact Hin. }
    destruct (@destroy_result s m m' evs R) as [(Hz & ->)|[(Hz & Ho & E)|(Hz & Ho & E)]];
      clear R.
    + split; [exact Hinv|]. split; [exact Hr|exact Hrest].
    + destruct Hok as [(Hz' & _)|(Hv & Hd)]; [congruence|].
      assert (Eo : _owner m' = _owner m) by (subst m'; destruct m; reflexivity).
      rewrite Hnw, Eo, Ho.
      split; [split; intros; [exact Hz|lia]|]. split; [lia|exact Hrest].
    + destruct Hok as [(Hz' & _)|(Hv & Hd)]; [congruence|].
      assert (Eo : _owner m' = s_owner s).
      { subst m'; destruct m; cbn -[wrap32]. apply valid_tid_wrap, Hv. }
      rewrite Hnw, Eo.
      split; [split; intros; [exact Hz|lia]|]. split; [lia|exact Hrest].
Qed.

Lemma reachable_no_wrap_good st : reachable_no_wrap st -> good st.
Proof.
  induction 1 as [|st t c st' _ IH Ht Hs Hnw].
  - exact good_constructed.
  - eapply rstep_keeps_good; eassumption.
Qed.

(** C5, for call sequences that keep the count within its 32 bits.  In
    every state reached from the constructed lock by calls that respect
    the contract, [_recursion > 0] holds exactly when [_owner] is not
    [none], and each further such call leads to a state where it holds
    again. *)
Theorem recursion_positive_iff_owned (st : rstate) (H : reachable_no_wrap st) :
  lock_invariant (r_mem st) /\
  forall t c st',
    valid_tid t -> rstep t c st st' -> no_wrap t c st st' ->
    lock_invariant (r_mem st').
Proof.
  split.
  - apply reachable_no_wrap_good. exact H.
  - intros t c st' Ht Hs Hnw.
    apply (@rstep_keeps_good st t c st'); auto.
    apply reachable_no_wrap_good. exact H.
Qed.

Lemma recursion_positive_iff_owned_witness :
  reachable_no_wrap (mkRstate (mkMem 1 0 7 1 0) (fun _ => [])) /\
  lock_invariant (mkMem 1 0 7 1 0).
Proof.
  assert (Ht : valid_tid 7) by (unfold valid_tid; lia).
  assert (R : reachable_no_wrap (mkRstate (mkMem 1 0 7 1 0) (fun _ => []))).
  { apply (@reach_nw_step constructed 7 call_lock);
      [exact reach_nw_constructed|exact Ht| |reflexivity].
    apply (@rstep_lock 7 constructed) with
      (evs := [Ev (load l_owner memory_order_relaxed) 0;
               Ev (fetch_add l_next_ticket 1 memory_order_relaxed) 0;
               Ev (load l_now_serving memory_order_acquire) 0;
               Ev (store l_owner 7 memory_order_relaxed) 0;
               Ev (read l_recursion) 0;
               Ev (write l_recursion (0 + 1)) 0]).
    apply (@lock_acquires fresh 7); [discriminate|reflexivity]. }
  split; [exact R|].
  exact (proj1 (recursion_positive_iff_owned R)).
Defined.

(** Thread 1 locking again and again, from the constructed lock. *)
Lemma relock_reachable k :
  reachable (mkRstate (mkMem 1 0 1 (wrap32 (1 + Z.of_N k)) 0) (fun _ => [])).
Proof.
  assert (Ht : valid_tid 1) by (unfold valid_tid; lia).
  induction k as [|k IH] using N.peano_ind.
  - eapply reach_step; [exact reach_constructed|exact Ht|].
    apply (@rstep_lock 1 constructed) with
      (evs := [Ev (load l_owner memory_order_relaxed) 0;
               Ev (fetch_add l_next_ticket 1 memory_order_relaxed) 0;
               Ev (load l_now_serving memory_order_acquire) 0;
               Ev (store l_owner 1 memory_order_relaxed) 0;
               Ev (read l_recursion) 0;
               Ev (write l_recursion (0 + 1)) 0]).
    apply (@lock_acquires fresh 1); [discriminate|reflexivity].
  - eapply reach_step; [exact IH|exact Ht|].
    replace (mkRstate (mkMem 1 0 1 (wrap32 (1 + Z.of_N (N.succ k))) 0) (fun _ => []))
      with (mkRstate
              (wr l_recursion (wrap32 (1 + Z.of_N k) + 1)
                 (mkMem 1 0 1 (wrap32 (1 + Z.of_N k)) 0))
              (r_tokens (mkRstate (mkMem 1 0 1 (wrap32 (1 + Z.of_N k)) 0) (fun _ => [])))).
    + eapply rstep_lock. apply lock_reenters. reflexivity.
    + cbn -[wrap32 Z.of_N Z.add]. f_equal. f_equal.
      rewrite wrap32_succ. f_equal. rewrite N2Z.inj_succ. lia.
Qed.

(** C5 as stated fails: [2^32] calls of [lock()] by one thread respect the
    contract and reach a state with an owner and a count of 0. *)
Lemma recursion_positive_iff_owned_counterexample :
  exists st,
    reachable st /\ _owner (r_mem st) = 1 /\ _recursion (r_mem st) = 0 /\
    ~ lock_invariant (r_mem st).
Proof.
  exists (mkRstate (mkMem 1 0 1 0 0) (fun _ => [])).
  split; [|split; [reflexivity|split; [reflexivity|]]].
  - exact (relock_reachable (2 ^ 32 - 1)).
  - unfold lock_invariant. cbn. intros [_ H].
    assert (H1 : 0 < 0) by (apply H; discriminate). lia.
Qed.

(** * The ticket lock under contention *)

Lemma holding_code p : holding (code p) = holder p.
Proof. destruct p as [[|k]| | | | | | | | |]; reflexivity. Qed.

Lemma finished_code p : finished (code p) = true -> p = PIdle 0.
Proof. destruct p as [[|k]| | | | | | | | |]; cbn; congruence. Qed.

Lemma in_cs_code p : in_cs (code p) = true -> holder p = true.
Proof. destruct p as [[|k]| | | | | | | | |]; cbn; congruence. Qed.

(** A step of the scheduler, read at the program point of its thread. *)
Lemma sched_code ts t w c lab c' p i :
  c_pool c t = code p ->
  _next_ticket (c_mem c) = ticket_no i ->
  sched ts t w c = Some (lab, c') ->
  (exists e p',
      w = None /\ lab = Did t e /\ moves i (c_mem c) p e (c_mem c') p' /\
      c_pool c' = upd (c_pool c) t (code p')) \/
  (exists g k,
      p = PSleep g k /\ w = None /\ lab = WokeUp t /\ c_mem c' = c_mem c /\
      c_pool c' = upd (c_pool c) t (code (PReload g k))) \/
  (exists k,
      p = PNotify k /\ lab = Did t (Ev (atomic_notify_one l_now_serving) 0) /\
      c_mem c' = c_mem c /\
      ((w = None /\ c_pool c' = upd (c_pool c) t (code (PIdle k))) \/
       (exists u, w = Some u /\
                  sleeping_on l_now_serving (c_pool c u) = true /\
                  c_pool c' = upd (upd (c_pool c) t (code (PIdle k))) u
                                  (wake (c_pool c u))))).
Proof.
  intros Hc Hn. unfold sched. rewrite Hc.
  destruct c as [m pool]. cbn [c_mem c_pool] in *.
  destruct p as [[|k]|g k|g cur k|g k|g k|g cur k|g k|g v k|g k|k].
  - (* finished *)
    cbn. discriminate.
  - (* draws a ticket *)
    cbn -[wrap32 Z.add Z.eqb ticket_no].
    destruct w; [discriminate|]. intros H. inversion H; subst; clear H.
    left. eexists. exists (PDrawn i k).
    split; [reflexivity|]. split; [reflexivity|]. split; [cbn [c_mem]; constructor|].
    cbn -[wrap32 Z.add Z.eqb ticket_no]. rewrite Hn. reflexivity.
  - (* first load of now_serving *)
    cbn -[wrap32 Z.add Z.eqb ticket_no].
    destruct w; [discriminate|]. intros H. inversion H; subst; clear H.
    left. eexists.
    destruct (Z.eqb_spec (ticket_no g) (_now_serving m)) as [E|E].
    + exists (PRead g k).
      split; [reflexivity|]. split; [reflexivity|].
      split; [cbn [c_mem]; constructor; congruence|]. reflexivity.
    + exists (PWait g (_now_serving m) k).
      split; [reflexivity|]. split; [reflexivity|].
      split; [cbn [c_mem]; constructor; congruence|]. reflexivity.
  - (* atomic_wait *)
    cbn -[wrap32 Z.add Z.eqb ticket_no].
    destruct w; [discriminate|]. intros H. inversion H; subst; clear H.
    left. eexists.
    destruct (Z.eqb_spec (_now_serving m) cur) as [E|E].
    + exists (PSleep g k).
      split; [reflexivity|]. split; [reflexivity|].
      split; [cbn [c_mem]; constructor; congruence|]. reflexivity.
    + exists (PReload g k).
      split; [reflexivity|]. split; [reflexivity|].
      split; [cbn [c_mem]; constructor; congruence|]. reflexivity.
  - (* asleep *)
    cbn -[wrap32 Z.add Z.eqb ticket_no].
    destruct w; [discriminate|]. intros H. inversion H; subst; clear H.
    right. left. exists g, k. repeat split; reflexivity.
  - (* load in the loop *)
    cbn -[wrap32 Z.add Z.eqb ticket_no].
    destruct w; [discriminate|]. intros H. inversion H; subst; clear H.
    left. eexists. exists (PTest g (_now_serving m) k).
    split; [reflexivity|]. split; [reflexivity|]. split; [cbn [c_mem]; constructor|].
    reflexivity.
  - (* test of the loop *)
    cbn -[wrap32 Z.add Z.eqb ticket_no].
    destruct w; [discriminate|]. intros H. inversion H; subst; clear H.
    left. eexists.
    destruct (Z.eqb_spec cur (ticket_no g)) as [E|E].
    + exists (PRead g k).
      split; [reflexivity|]. split; [reflexivity|].
      split; [cbn [c_mem]; constructor; congruence|]. reflexivity.
    + exists (PWait g cur k).
      split; [reflexivity|]. split; [reflexivity|].
      split; [cbn [c_mem]; constructor; congruence|]. reflexivity.
  - (* reads the counter *)
    cbn -[wrap32 Z.add Z.eqb ticket_no].
    destruct w; [discriminate|]. intros H. inversion H; subst; clear H.
    left. eexists. exists (PWrite g (counter m) k).
    split; [reflexivity|]. split; [reflexivity|]. split; [cbn [c_mem]; constructor|].
    reflexivity.
  - (* writes the counter *)
    cbn -[wrap32 Z.add Z.eqb ticket_no].
    destruct w; [discriminate|]. intros H. inversion H; subst; clear H.
    left. eexists. exists (PRelease g k).
    split; [reflexivity|]. split; [reflexivity|]. split; [cbn [c_mem]; constructor|].
    reflexivity.
  - (* releases *)
    cbn -[wrap32 Z.add Z.eqb ticket_no].
    destruct w; [discriminate|]. intros H. inversion H; subst; clear H.
    left. eexists. exists (PNotify k).
    split; [reflexivity|]. split; [reflexivity|]. split; [cbn [c_mem]; constructor|].
    reflexivity.
  - (* notifies *)
    cbn -[wrap32 Z.add Z.eqb ticket_no existsb sleeping_on].
    intros Hs. right. right. exists k. destruct w as [u|].
    + destruct (existsb (Z.eqb u) ts && sleeping_on l_now_serving (pool u)) eqn:E;
        [|discriminate].
      inversion Hs; subst; clear Hs.
      apply andb_true_iff in E. destruct E as [_ E].
      split; [reflexivity|]. split; [reflexivity|]. split; [reflexivity|].
      right. exists u. repeat split; auto.
    + destruct (existsb (fun u => sleeping_on l_now_serving (pool u)) ts);
        [discriminate|].
      inversion Hs; subst; clear Hs.
      split; [reflexivity|]. split; [reflexivity|]. split; [reflexivity|].
      left. split; reflexivity.
Qed.

(** ** Lists and sums *)

Lemma draws_snoc tr x : draws (tr ++ [x]) = draws tr ++ draw_of x.
Proof. unfold draws. rewrite flat_map_app. cbn. rewrite app_nil_r. reflexivity. Qed.

Lemma entries_snoc tr x : entries (tr ++ [x]) = entries tr ++ entry_of x.
Proof. unfold entries. rewrite flat_map_app. cbn. rewrite app_nil_r. reflexivity. Qed.

Lemma releases_snoc tr x : releases (tr ++ [x]) = releases tr ++ release_of x.
Proof. unfold releases. rewrite flat_map_app. cbn. rewrite app_nil_r. reflexivity. Qed.

Lemma firstn_snoc A (l : list A) n a :
  nth_error l n = Some a -> firstn (S n) l = firstn n l ++ [a].
Proof.
  revert n. induction l as [|b l IH]; intros [|n] H; cbn in *; try discriminate.
  - congruence.
  - rewrite (IH _ H). reflexivity.
Qed.

Lemma firstn_app_short A (l l' : list A) n :
  (n <= length l)%nat -> firstn n (l ++ l') = firstn n l.
Proof.
  intros H. rewrite firstn_app.
  replace (n - length l)%nat with 0%nat by lia.
  cbn. apply app_nil_r.
Qed.

Lemma nth_error_snoc_old A (l : list A) a n b :
  nth_error l n = Some b -> nth_error (l ++ [a]) n = Some b.
Proof.
  intros H. rewrite nth_error_app1; [exact H|].
  apply nth_error_Some. congruence.
Qed.

Lemma nth_error_snoc_new A (l : list A) a :
  nth_error (l ++ [a]) (length l) = Some a.
Proof.
  rewrite nth_error_app2 by lia. rewrite Nat.sub_diag. reflexivity.
Qed.

Lemma total_cons f a ts : total f (a :: ts) = (f a + total f ts)%nat.
Proof. reflexivity. Qed.

Lemma total_ext f g ts :
  (forall u, In u ts -> f u = g u) -> total f ts = total g ts.
Proof.
  unfold total. intros H. f_equal. apply map_ext_in. exact H.
Qed.

Lemma total_le_length f ts :
  (forall u, (f u <= 1)%nat) -> (total f ts <= length ts)%nat.
Proof.
  intros H. induction ts as [|a ts IH]; [cbn; lia|].
  rewrite total_cons. cbn [length]. specialize (H a). lia.
Qed.

Lemma total_const K ts : total (fun _ => K) ts = (length ts * K)%nat.
Proof.
  induction ts as [|a ts IH]; [reflexivity|].
  rewrite total_cons, IH. cbn [length]. lia.
Qed.

Lemma total_zero f ts :
  (forall u, In u ts -> f u = 0%nat) -> total f ts = 0%nat.
Proof.
  intros H. rewrite (@total_ext f (fun _ => 0%nat) ts H).
  rewrite total_const. lia.
Qed.

(** Changing the value at one thread of a duplicate-free list. *)
Lemma total_set (f : pc -> nat) ap t p ts :
  NoDup ts -> In t ts ->
  (total (fun u => f (set_pc ap t p u)) ts + f (ap t))%nat =
  (total (fun u => f (ap u)) ts + f p)%nat.
Proof.
  induction ts as [|a ts IH]; intros Hnd Hin; [destruct Hin|].
  inversion Hnd as [|? ? Hna Hnd']; subst. rewrite !total_cons.
  destruct Hin as [->|Hin].
  - unfold set_pc at 1. rewrite Z.eqb_refl.
    assert (E : total (fun u => f (set_pc ap t p u)) ts = total (fun u => f (ap u)) ts).
    { apply total_ext. intros u Hu. unfold set_pc.
      destruct (Z.eqb_spec u t); [subst; contradiction|reflexivity]. }
    rewrite E. lia.
  - specialize (IH Hnd' Hin). unfold set_pc at 1.
    destruct (Z.eqb_spec a t) as [->|_]; [contradiction|]. lia.
Qed.

Lemma set_pc_same ap t p : set_pc ap t p t = p.
Proof. unfold set_pc. rewrite Z.eqb_refl. reflexivity. Qed.

Lemma set_pc_other ap t p u : u <> t -> set_pc ap t p u = ap u.
Proof. unfold set_pc. intros H. destruct (Z.eqb_spec u t); congruence. Qed.

Lemma upd_code pool ap t p :
  (forall u, pool u = code (ap u)) ->
  forall u, upd pool t (code p) u = code (set_pc ap t p u).
Proof.
  intros H u. unfold upd, set_pc. destruct (u =? t); [reflexivity|apply H].
Qed.

(** ** Tickets do not collide *)

(** Distinct numbers below [n] are at most [n]. *)
Lemma nodup_bounded (l : list Z) n :
  0 <= n -> NoDup l -> (forall x, In x l -> 0 <= x < n) ->
  Z.of_nat (length l) <= n.
Proof.
  intros Hn Hnd Hb.
  assert (Hincl : incl l (map Z.of_nat (seq 0 (Z.to_nat n)))).
  { intros x Hx. specialize (Hb x Hx).
    replace x with (Z.of_nat (Z.to_nat x)) by lia.
    apply in_map, in_seq. lia. }
  pose proof (NoDup_incl_length Hnd Hincl) as Hl.
  rewrite length_map, length_seq in Hl. lia.
Qed.

Lemma threads_bounded ts :
  NoDup ts -> Forall valid_tid ts -> Z.of_nat (length ts) < 2 ^ 32.
Proof.
  intros Hnd Hv.
  assert (H : Z.of_nat (length (map (fun t => t - 1) ts)) <= 2 ^ 32 - 1).
  { apply nodup_bounded.
    - lia.
    - apply NoDup_map_NoDup_ForallPairs; [|exact Hnd]. intros x y _ _. lia.
    - intros x Hx. apply in_map_iff in Hx. destruct Hx as (t & <- & Ht).
      rewrite Forall_forall in Hv. specialize (Hv t Ht).
      unfold valid_tid in Hv. lia. }
  rewrite length_map in H. unfold tid in *. lia.
Qed.

(** Two running numbers less than [2^32] apart with the same ticket are
    the same. *)
Lemma ticket_no_close (a b : nat) :
  (b <= a)%nat -> Z.of_nat a - Z.of_nat b < 2 ^ 32 ->
  ticket_no a = ticket_no b -> a = b.
Proof.
  unfold ticket_no, wrap32. intros Hle Hlt E.
  pose proof (Z.div_mod (Z.of_nat a) (2 ^ 32) ltac:(lia)) as Ha.
  pose proof (Z.div_mod (Z.of_nat b) (2 ^ 32) ltac:(lia)) as Hb.
  rewrite E in Ha.
  assert (Hq : Z.of_nat a / 2 ^ 32 = Z.of_nat b / 2 ^ 32) by nia.
  rewrite Hq in Ha. lia.
Qed.

Lemma ticket_no_succ g : wrap32 (ticket_no g + 1) = ticket_no (S g).
Proof.
  unfold ticket_no. rewrite wrap32_succ. f_equal. lia.
Qed.

(** ** The invariant is kept *)

Lemma thread_ok_unique s i dr cnt t u p q :
  thread_ok s i dr cnt t p -> thread_ok s i dr cnt u q ->
  ticket_of p = Some s -> ticket_of q = Some s -> t = u.
Proof.
  intros Hp Hq Ep Eq.
  assert (Ht : nth_error dr s = Some t).
  { destruct p; cbn in Ep, Hp; inversion Ep; subst; intuition. }
  assert (Hu : nth_error dr s = Some u).
  { destruct q; cbn in Eq, Hq; inversion Eq; subst; intuition. }
  congruence.
Qed.

Lemma holder_ticket s i dr cnt t p :
  thread_ok s i dr cnt t p -> holder p = true -> ticket_of p = Some s.
Proof.
  destruct p; cbn; try discriminate; intros (-> & _) _; reflexivity.
Qed.

Lemma ticket_range s i dr cnt t p g :
  thread_ok s i dr cnt t p -> ticket_of p = Some g ->
  (s <= g)%nat /\ nth_error dr g = Some t.
Proof.
  destruct p; cbn; try discriminate; intros H E; inversion E; subst;
    intuition; subst; auto.
Qed.

Lemma thread_ok_counter s i dr cnt cnt' t p :
  thread_ok s i dr cnt t p -> holder p = false -> thread_ok s i dr cnt' t p.
Proof. destruct p; cbn; auto; discriminate. Qed.

Lemma thread_ok_draw s i dr cnt t u p :
  thread_ok s i dr cnt u p -> thread_ok s (S i) (dr ++ [t]) cnt u p.
Proof.
  destruct p; cbn; auto;
    repeat match goal with
           | |- _ -> _ => intros H
           | H : _ /\ _ |- _ => destruct H
           end;
    repeat split; auto using nth_error_snoc_old; lia.
Qed.

(** After the release of ticket [s] by its holder, for the others. *)
Lemma thread_ok_release s i dr cnt cnt' u p :
  thread_ok s i dr cnt u p -> ticket_of p <> Some s ->
  thread_ok (S s) i dr cnt' u p.
Proof.
  destruct p; cbn; auto; intros H E.
  - destruct H as [[H1 H2] H3]. repeat split; auto.
    destruct (Nat.eq_dec g s); [subst; congruence|lia].
  - destruct H as [[H1 H2] H3]. repeat split; auto.
    destruct (Nat.eq_dec g s); [subst; congruence|lia].
  - destruct H as [[H1 H2] H3]. repeat split; auto.
    destruct (Nat.eq_dec g s); [subst; congruence|lia].
  - destruct H as [[H1 H2] H3]. repeat split; auto.
    destruct (Nat.eq_dec g s); [subst; congruence|lia].
  - destruct H as [[[H1 H2] H3] H4]. repeat split; auto.
    + destruct (Nat.eq_dec g s); [subst; congruence|lia].
    + intros Hc. specialize (H4 Hc). subst. congruence.
  - destruct H as [-> _]. congruence.
  - destruct H as [-> _]. congruence.
  - destruct H as [-> _]. congruence.
Qed.

Lemma pairs_equal (a b : list (tid * Z)) :
  map fst a = map fst b -> map snd a = map snd b -> a = b.
Proof.
  revert b. induction a as [|[x y] a IH]; intros [|[x' y'] b] H1 H2;
    cbn in *; try discriminate; [reflexivity|].
  inversion H1; inversion H2; subst. f_equal. apply IH; assumption.
Qed.

Section TestInvariant.

Variable ts : list tid.
Variable iters : tid -> nat.
Hypothesis ts_distinct : NoDup ts.
Hypothesis ts_valid : Forall valid_tid ts.

Local Abbreviation Inv := (test_invariant ts iters).

Lemma inv_start : Inv [] (start iters) (fun t => PIdle (iters t)).
Proof.
  constructor; cbn; auto.
  symmetry. apply total_zero. reflexivity.
Qed.

(** Tickets outstanding are fewer than [2^32]. *)
Lemma outstanding_small tr c ap :
  Inv tr c ap ->
  Z.of_nat (length (draws tr)) - Z.of_nat (length (releases tr)) < 2 ^ 32.
Proof.
  intros H. rewrite (inv_outstanding H).
  pose proof (@total_le_length (fun t => has_ticket (ap t)) ts) as Hle.
  pose proof (threads_bounded ts_distinct ts_valid) as Hb.
  assert (forall u, (has_ticket (ap u) <= 1)%nat) as Hh.
  { intros u. unfold has_ticket. destruct (ticket_of (ap u)); lia. }
  specialize (Hle Hh). unfold tid in *. lia.
Qed.

(** The ticket being served belongs to one thread. *)
Lemma served_ticket tr c ap t g :
  Inv tr c ap -> ticket_of (ap t) = Some g ->
  _now_serving (c_mem c) = ticket_no g ->
  g = length (releases tr).
Proof.
  intros H Eg En.
  pose proof (inv_threads H t) as Ht.
  pose proof (outstanding_small H) as Hs.
  rewrite (inv_serving H) in En.
  assert (Hr : (length (releases tr) <= g < length (draws tr))%nat).
  { destruct (@ticket_range _ _ _ _ _ _ g Ht Eg) as [H1 H2]. split; [exact H1|].
    assert (Hn : nth_error (map fst (draws tr)) g <> None) by congruence.
    apply nth_error_Some in Hn. rewrite length_map in Hn. exact Hn. }
  apply ticket_no_close; [lia|lia|congruence].
Qed.

Lemma no_other_holder tr c ap t :
  Inv tr c ap -> ticket_of (ap t) = Some (length (releases tr)) ->
  forall u, holder (ap u) = true -> u = t.
Proof.
  intros H Et u Hu.
  pose proof (inv_threads H u) as Ou.
  pose proof (@holder_ticket _ _ _ _ _ _ Ou Hu) as Eu.
  exact (@thread_ok_unique _ _ _ _ _ _ _ _ (inv_threads H u) (inv_threads H t) Eu Et).
Qed.

(** A step that draws no ticket, lets nobody in and releases nothing. *)
Lemma inv_silent tr c ap lab c' ap' :
  Inv tr c ap ->
  draw_of (mkMoment c lab c') = [] ->
  release_of (mkMoment c lab c') = [] ->
  _next_ticket (c_mem c') = _next_ticket (c_mem c) ->
  _now_serving (c_mem c') = _now_serving (c_mem c) ->
  counter (c_mem c') = counter (c_mem c) ->
  (forall u, c_pool c' u = code (ap' u)) ->
  (forall u, ticket_of (ap' u) = ticket_of (ap u)) ->
  (forall u, remaining (ap' u) = remaining (ap u)) ->
  (forall u, holder (ap' u) = holder (ap u)) ->
  (forall u, thread_ok (length (releases tr)) (length (draws tr))
               (map fst (draws tr)) (counter (c_mem c)) u (ap' u)) ->
  Inv (tr ++ [mkMoment c lab c']) c' ap'.
Proof.
  intros H Hd Hr En Es Ec Hcode Htk Hrem Hhold Hok.
  assert (He : entry_of (mkMoment c lab c') = []).
  { unfold entry_of. cbn [before after did].
    rewrite (inv_code H), Hcode, !holding_code, Hhold.
    destruct (holder (ap (actor lab))); reflexivity. }
  assert (Ed : draws (tr ++ [mkMoment c lab c']) = draws tr).
  { rewrite draws_snoc, Hd. apply app_nil_r. }
  assert (Ee : entries (tr ++ [mkMoment c lab c']) = entries tr).
  { rewrite entries_snoc, He. apply app_nil_r. }
  assert (Er : releases (tr ++ [mkMoment c lab c']) = releases tr).
  { rewrite releases_snoc, Hr. apply app_nil_r. }
  constructor; rewrite ?Ed, ?Ee, ?Er, ?En, ?Es, ?Ec.
  - exact Hcode.
  - apply (inv_next H).
  - apply (inv_serving H).
  - exact Hok.
  - rewrite (inv_outstanding H). f_equal. apply total_ext. intros u _.
    unfold has_ticket. rewrite Htk. reflexivity.
  - rewrite <- (inv_rounds H). f_equal. apply total_ext. intros u _. apply Hrem.
  - apply (inv_draws H).
  - apply (inv_entries_who H).
  - apply (inv_entries_when H).
  - apply (inv_releases H).
  - destruct (inv_holder H) as [(E1 & E2 & E3)|(E1 & u & E2)].
    + left. split; [exact E1|]. split; [|exact E3].
      intros u. rewrite Hhold. apply E2.
    + right. split; [exact E1|]. exists u. rewrite Hhold. exact E2.
Qed.


Lemma entries_le_draws tr c ap :
  Inv tr c ap -> (length (entries tr) <= length (draws tr))%nat.
Proof.
  intros H. pose proof (f_equal (@length _) (inv_entries_who H)) as L.
  rewrite length_firstn, !length_map in L. lia.
Qed.

Lemma releases_le_draws tr c ap :
  Inv tr c ap -> (length (releases tr) <= length (draws tr))%nat.
Proof.
  intros H. pose proof (f_equal (@length _) (inv_releases H)) as L.
  rewrite length_firstn, !length_map in L. lia.
Qed.

Lemma entry_of_step tr c ap lab c' ap' :
  Inv tr c ap -> (forall u, c_pool c' u = code (ap' u)) ->
  entry_of (mkMoment c lab c') =
  if negb (holder (ap (actor lab))) && holder (ap' (actor lab))
  then [(actor lab, _now_serving (c_mem c'))]
  else [].
Proof.
  intros H Hcode. unfold entry_of. cbn [before after did].
  rewrite (inv_code H), Hcode, !holding_code. reflexivity.
Qed.

(** A thread draws its ticket. *)
Lemma inv_draw tr c ap t k c' :
  Inv tr c ap -> In t ts -> ap t = PIdle (S k) ->
  c_mem c' = wr l_next_ticket (_next_ticket (c_mem c) + 1) (c_mem c) ->
  c_pool c' = upd (c_pool c) t (code (PDrawn (length (draws tr)) k)) ->
  Inv (tr ++ [mkMoment c
                (Did t (Ev (fetch_add l_next_ticket 1 memory_order_relaxed)
                           (_next_ticket (c_mem c)))) c'])
      c' (set_pc ap t (PDrawn (length (draws tr)) k)).
Proof.
  intros H Hin Hp Hm Hpool.
  set (x := mkMoment _ _ _).
  set (ap' := set_pc ap t _).
  assert (Hcode : forall u, c_pool c' u = code (ap' u)).
  { rewrite Hpool. apply upd_code. apply (inv_code H). }
  assert (Ed : draws (tr ++ [x]) = draws tr ++ [(t, _next_ticket (c_mem c))]).
  { rewrite draws_snoc. reflexivity. }
  assert (Ee : entries (tr ++ [x]) = entries tr).
  { rewrite entries_snoc. unfold x. rewrite (@entry_of_step _ _ _ _ _ _ H Hcode).
    cbn [actor]. unfold ap'. rewrite set_pc_same, Hp. cbn. apply app_nil_r. }
  assert (Er : releases (tr ++ [x]) = releases tr).
  { rewrite releases_snoc. cbn. apply app_nil_r. }
  assert (Es : _now_serving (c_mem c') = _now_serving (c_mem c)).
  { rewrite Hm. destruct (c_mem c); reflexivity. }
  assert (Ec : counter (c_mem c') = counter (c_mem c)).
  { rewrite Hm. destruct (c_mem c); reflexivity. }
  assert (El : length (draws tr ++ [(t, _next_ticket (c_mem c))]) = S (length (draws tr))).
  { rewrite length_app. cbn. lia. }
  assert (Em : map fst (draws tr ++ [(t, _next_ticket (c_mem c))]) = map fst (draws tr) ++ [t]).
  { rewrite map_app. reflexivity. }
  pose proof (entries_le_draws H) as Le.
  pose proof (releases_le_draws H) as Lr.
  constructor; rewrite ?Ed, ?Ee, ?Er, ?Es, ?Ec, ?El, ?Em.
  - exact Hcode.
  - rewrite Hm. replace (_next_ticket (wr l_next_ticket (_next_ticket (c_mem c) + 1) (c_mem c)))
      with (wrap32 (_next_ticket (c_mem c) + 1)) by (destruct (c_mem c); reflexivity).
    rewrite (inv_next H). apply ticket_no_succ.
  - apply (inv_serving H).
  - intros u. unfold ap', set_pc. destruct (Z.eqb_spec u t) as [->|Hu].
    + cbn. split; [lia|].
      replace (length (draws tr)) with (length (map fst (draws tr))) at 1
        by apply length_map.
      apply nth_error_snoc_new.
    + apply thread_ok_draw. apply (inv_threads H).
  - pose proof (@total_set has_ticket ap t (PDrawn (length (draws tr)) k) ts ts_distinct Hin) as T.
    rewrite Hp in T. cbn in T. fold ap' in T. rewrite (inv_outstanding H) at 1. lia.
  - pose proof (@total_set remaining ap t (PDrawn (length (draws tr)) k) ts ts_distinct Hin) as T.
    rewrite Hp in T. cbn [remaining] in T. fold ap' in T.
    rewrite <- (inv_rounds H). lia.
  - rewrite map_app, seq_S, map_app, (inv_draws H). cbn. rewrite (inv_next H).
    reflexivity.
  - rewrite firstn_app_short by (rewrite length_map; exact Le).
    apply (inv_entries_who H).
  - apply (inv_entries_when H).
  - rewrite firstn_app_short by (rewrite length_map; exact Lr).
    apply (inv_releases H).
  - destruct (inv_holder H) as [(E1 & E2 & E3)|(E1 & u & E2)].
    + left. split; [exact E1|]. split; [|exact E3].
      intros u. unfold ap', set_pc. destruct (u =? t); [reflexivity|apply E2].
    + right. split; [exact E1|]. exists u. unfold ap'.
      rewrite set_pc_other; [exact E2|]. intros ->. rewrite Hp in E2. discriminate.
Qed.


(** The [lock()] of a thread returns. *)
Lemma inv_enter tr c ap t g k e c' :
  Inv tr c ap -> In t ts ->
  ticket_of (ap t) = Some g -> holder (ap t) = false ->
  remaining (ap t) = S k ->
  _now_serving (c_mem c) = ticket_no g ->
  draw_of (mkMoment c (Did t e) c') = [] ->
  release_of (mkMoment c (Did t e) c') = [] ->
  c_mem c' = c_mem c ->
  c_pool c' = upd (c_pool c) t (code (PRead g k)) ->
  Inv (tr ++ [mkMoment c (Did t e) c']) c' (set_pc ap t (PRead g k)).
Proof.
  intros H Hin Htk Hh Hrem Hns Hd Hr Hm Hpool.
  set (x := mkMoment _ _ _) in *.
  set (ap' := set_pc ap t _).
  pose proof (served_ticket _ H Htk Hns) as Eg. subst g.
  destruct (@ticket_range _ _ _ _ _ _ _ (inv_threads H t) Htk) as [_ Hnth].
  assert (Hcode : forall u, c_pool c' u = code (ap' u)).
  { rewrite Hpool. apply upd_code. apply (inv_code H). }
  destruct (inv_holder H) as [(E1 & E2 & E3)|(E1 & u & E2)].
  2:{ pose proof (no_other_holder _ H Htk _ E2). subst u. congruence. }
  assert (Ed : draws (tr ++ [x]) = draws tr).
  { rewrite draws_snoc, Hd. apply app_nil_r. }
  assert (Ee : entries (tr ++ [x]) = entries tr ++ [(t, _now_serving (c_mem c'))]).
  { rewrite entries_snoc. unfold x. rewrite (@entry_of_step _ _ _ _ _ _ H Hcode).
    cbn [actor]. unfold ap'. rewrite set_pc_same, Hh. reflexivity. }
  assert (Er : releases (tr ++ [x]) = releases tr).
  { rewrite releases_snoc, Hr. apply app_nil_r. }
  assert (El : length (entries tr ++ [(t, _now_serving (c_mem c'))]) = S (length (entries tr))).
  { rewrite length_app. cbn. lia. }
  constructor; rewrite ?Ed, ?Ee, ?Er, ?El, ?Hm.
  - exact Hcode.
  - apply (inv_next H).
  - apply (inv_serving H).
  - intros u. unfold ap', set_pc. destruct (Z.eqb_spec u t) as [->|Hu].
    + cbn. auto.
    + apply (inv_threads H).
  - pose proof (@total_set has_ticket ap t (PRead (length (releases tr)) k) ts ts_distinct Hin) as T.
    pose proof (inv_outstanding H) as O.
    assert (E : has_ticket (ap t) = 1%nat) by (unfold has_ticket; rewrite Htk; reflexivity).
    rewrite E in T. change (has_ticket (PRead (length (releases tr)) k)) with 1%nat in T.
    unfold ap'. lia.
  - pose proof (@total_set remaining ap t (PRead (length (releases tr)) k) ts ts_distinct Hin) as T.
    rewrite Hrem in T. cbn [remaining] in T. fold ap' in T.
    rewrite <- (inv_rounds H). lia.
  - apply (inv_draws H).
  - rewrite map_app. cbn [map fst]. rewrite (inv_entries_who H) at 1.
    rewrite E1. symmetry. apply firstn_snoc. exact Hnth.
  - rewrite map_app, seq_S, map_app. cbn [map snd].
    rewrite (inv_entries_when H) at 1. rewrite (inv_serving H), E1. reflexivity.
  - apply (inv_releases H).
  - right. split; [lia|]. exists t. unfold ap'. rewrite set_pc_same. reflexivity.
Qed.

(** The holder writes the counter. *)
Lemma inv_write tr c ap t g v k c' :
  Inv tr c ap -> In t ts -> ap t = PWrite g v k ->
  c_mem c' = wr l_counter (v + 1) (c_mem c) ->
  c_pool c' = upd (c_pool c) t (code (PRelease g k)) ->
  Inv (tr ++ [mkMoment c (Did t (Ev (write l_counter (v + 1)) 0)) c'])
      c' (set_pc ap t (PRelease g k)).
Proof.
  intros H Hin Hp Hm Hpool.
  set (x := mkMoment _ _ _) in *.
  set (ap' := set_pc ap t _).
  pose proof (inv_threads H t) as Ht. rewrite Hp in Ht.
  destruct Ht as (-> & Hnth & Hc & Hv).
  assert (Htk : ticket_of (ap t) = Some (length (releases tr))) by (rewrite Hp; reflexivity).
  assert (Hcode : forall u, c_pool c' u = code (ap' u)).
  { rewrite Hpool. apply upd_code. apply (inv_code H). }
  assert (Ed : draws (tr ++ [x]) = draws tr).
  { rewrite draws_snoc. cbn. apply app_nil_r. }
  assert (Ee : entries (tr ++ [x]) = entries tr).
  { rewrite entries_snoc. unfold x. rewrite (@entry_of_step _ _ _ _ _ _ H Hcode).
    cbn [actor]. rewrite Hp. cbn. apply app_nil_r. }
  assert (Er : releases (tr ++ [x]) = releases tr).
  { rewrite releases_snoc. cbn. apply app_nil_r. }
  assert (En : _next_ticket (c_mem c') = _next_ticket (c_mem c)).
  { rewrite Hm. destruct (c_mem c); reflexivity. }
  assert (Es : _now_serving (c_mem c') = _now_serving (c_mem c)).
  { rewrite Hm. destruct (c_mem c); reflexivity. }
  assert (Ec : counter (c_mem c') = v + 1).
  { rewrite Hm. destruct (c_mem c); reflexivity. }
  constructor; rewrite ?Ed, ?Ee, ?Er, ?En, ?Es, ?Ec.
  - exact Hcode.
  - apply (inv_next H).
  - apply (inv_serving H).
  - intros u. unfold ap', set_pc. destruct (Z.eqb_spec u t) as [->|Hu].
    + cbn. repeat split; auto. lia.
    + apply thread_ok_counter with (cnt := counter (c_mem c)).
      * apply (inv_threads H).
      * destruct (holder (ap u)) eqn:Eh; [|reflexivity].
        elim Hu. exact (no_other_holder _ H Htk _ Eh).
  - pose proof (@total_set has_ticket ap t (PRelease (length (releases tr)) k) ts ts_distinct Hin) as T.
    rewrite Hp in T. cbn in T. fold ap' in T.
    rewrite (inv_outstanding H) at 1. lia.
  - pose proof (@total_set remaining ap t (PRelease (length (releases tr)) k) ts ts_distinct Hin) as T.
    rewrite Hp in T. cbn [remaining] in T. fold ap' in T.
    rewrite <- (inv_rounds H). lia.
  - apply (inv_draws H).
  - apply (inv_entries_who H).
  - apply (inv_entries_when H).
  - apply (inv_releases H).
  - destruct (inv_holder H) as [(E1 & E2 & E3)|(E1 & u & E2)].
    + specialize (E2 t). rewrite Hp in E2. discriminate.
    + right. split; [exact E1|]. exists t. unfold ap'.
      rewrite set_pc_same. reflexivity.
Qed.

(** The holder releases the lock. *)
Lemma inv_release tr c ap t g k c' :
  Inv tr c ap -> In t ts -> ap t = PRelease g k ->
  c_mem c' = wr l_now_serving (_now_serving (c_mem c) + 1) (c_mem c) ->
  c_pool c' = upd (c_pool c) t (code (PNotify k)) ->
  Inv (tr ++ [mkMoment c
                (Did t (Ev (fetch_add l_now_serving 1 memory_order_release)
                           (_now_serving (c_mem c)))) c'])
      c' (set_pc ap t (PNotify k)).
Proof.
  intros H Hin Hp Hm Hpool.
  set (x := mkMoment _ _ _) in *.
  set (ap' := set_pc ap t _).
  pose proof (inv_threads H t) as Ht. rewrite Hp in Ht.
  destruct Ht as (-> & Hnth & Hc).
  assert (Htk : ticket_of (ap t) = Some (length (releases tr))) by (rewrite Hp; reflexivity).
  assert (Hcode : forall u, c_pool c' u = code (ap' u)).
  { rewrite Hpool. apply upd_code. apply (inv_code H). }
  assert (Ed : draws (tr ++ [x]) = draws tr).
  { rewrite draws_snoc. cbn. apply app_nil_r. }
  assert (Ee : entries (tr ++ [x]) = entries tr).
  { rewrite entries_snoc. unfold x. rewrite (@entry_of_step _ _ _ _ _ _ H Hcode).
    cbn [actor]. rewrite Hp. cbn. apply app_nil_r. }
  assert (Er : releases (tr ++ [x]) = releases tr ++ [t]).
  { rewrite releases_snoc. reflexivity. }
  assert (El : length (releases tr ++ [t]) = S (length (releases tr))).
  { rewrite length_app. cbn. lia. }
  assert (En : _next_ticket (c_mem c') = _next_ticket (c_mem c)).
  { rewrite Hm. destruct (c_mem c); reflexivity. }
  assert (Es : _now_serving (c_mem c') = wrap32 (_now_serving (c_mem c) + 1)).
  { rewrite Hm. destruct (c_mem c); reflexivity. }
  assert (Ec : counter (c_mem c') = counter (c_mem c)).
  { rewrite Hm. destruct (c_mem c); reflexivity. }
  assert (Hothers : forall u, u <> t -> ticket_of (ap u) <> Some (length (releases tr))).
  { intros u Hu Eu. apply Hu.
    exact (@thread_ok_unique _ _ _ _ _ _ _ _ (inv_threads H u) (inv_threads H t) Eu Htk). }
  constructor; rewrite ?Ed, ?Ee, ?Er, ?El, ?En, ?Es, ?Ec.
  - exact Hcode.
  - apply (inv_next H).
  - rewrite (inv_serving H). apply ticket_no_succ.
  - intros u. unfold ap', set_pc. destruct (Z.eqb_spec u t) as [->|Hu].
    + exact I.
    + apply thread_ok_release with (cnt := counter (c_mem c)).
      * apply (inv_threads H).
      * apply Hothers, Hu.
  - pose proof (@total_set has_ticket ap t (PNotify k) ts ts_distinct Hin) as T.
    rewrite Hp in T. cbn in T. fold ap' in T.
    rewrite (inv_outstanding H) at 1. lia.
  - pose proof (@total_set remaining ap t (PNotify k) ts ts_distinct Hin) as T.
    rewrite Hp in T. cbn [remaining] in T. fold ap' in T.
    rewrite <- (inv_rounds H). lia.
  - apply (inv_draws H).
  - apply (inv_entries_who H).
  - apply (inv_entries_when H).
  - rewrite (inv_releases H) at 1. symmetry. apply firstn_snoc. exact Hnth.
  - destruct (inv_holder H) as [(E1 & E2 & E3)|(E1 & u & E2)].
    + specialize (E2 t). rewrite Hp in E2. discriminate.
    + left. split; [exact E1|]. split.
      * intros w. unfold ap', set_pc. destruct (Z.eqb_spec w t) as [->|Hw];
          [reflexivity|].
        destruct (holder (ap w)) eqn:Eh; [|reflexivity].
        elim Hw. exact (no_other_holder _ H Htk _ Eh).
      * rewrite Hc. lia.
Qed.


Lemma sleeping_code l p :
  sleeping_on l (code p) = true -> exists g k, p = PSleep g k.
Proof.
  destruct p as [[|k]| | | | | | | | |]; cbn; try discriminate. eauto.
Qed.

(** One changed program point that keeps ticket, rounds and holding. *)
Lemma inv_silent_one tr c ap lab c' t p' :
  Inv tr c ap ->
  draw_of (mkMoment c lab c') = [] ->
  release_of (mkMoment c lab c') = [] ->
  c_mem c' = c_mem c ->
  c_pool c' = upd (c_pool c) t (code p') ->
  ticket_of p' = ticket_of (ap t) ->
  remaining p' = remaining (ap t) ->
  holder p' = holder (ap t) ->
  thread_ok (length (releases tr)) (length (draws tr))
    (map fst (draws tr)) (counter (c_mem c)) t p' ->
  Inv (tr ++ [mkMoment c lab c']) c' (set_pc ap t p').
Proof.
  intros H Hd Hr Hm Hpool Htk Hrem Hh Hok.
  apply inv_silent with (ap := ap); auto; try (rewrite Hm; reflexivity).
  - rewrite Hpool. apply upd_code. apply (inv_code H).
  - intros u. unfold set_pc. destruct (Z.eqb_spec u t) as [->|_]; auto.
  - intros u. unfold set_pc. destruct (Z.eqb_spec u t) as [->|_]; auto.
  - intros u. unfold set_pc. destruct (Z.eqb_spec u t) as [->|_]; auto.
  - intros u. unfold set_pc. destruct (Z.eqb_spec u t) as [->|_]; auto.
    apply (inv_threads H).
Qed.

Lemma step_keeps_invariant tr c ap lab c' :
  Inv tr c ap -> step ts c lab c' ->
  exists ap', Inv (tr ++ [mkMoment c lab c']) c' ap'.
Proof.
  intros H (t & w & Hin & Hs).
  pose proof (inv_threads H t) as Ht.
  destruct (@sched_code ts t w c lab c' (ap t) (length (draws tr)) (inv_code H t) (inv_next H) Hs)
    as [(e & p' & -> & -> & Hmv & Hpool)
       |[(g & k & Hp & -> & -> & Hm & Hpool)
        |(k & Hp & -> & Hm & Hw)]].
  - (* a move of the program *)
    remember (ap t) as p eqn:Ep. remember (c_mem c') as m' eqn:Em.
    symmetry in Ep. symmetry in Em.
    destruct Hmv as [k|g k Hns|g k Hns|g cur k Hns|g cur k Hns|g k
                    |g cur k Hcur|g cur k Hcur|g k|g v k|g k].
    + exists (set_pc ap t (PDrawn (length (draws tr)) k)).
      apply inv_draw; auto.
    + exists (set_pc ap t (PRead g k)).
      apply inv_enter; auto; rewrite Ep; reflexivity.
    + exists (set_pc ap t (PWait g (_now_serving (c_mem c)) k)).
      apply inv_silent_one; auto; try (rewrite Ep; reflexivity).
    + exists (set_pc ap t (PReload g k)).
      apply inv_silent_one; auto; try (rewrite Ep; reflexivity).
    + exists (set_pc ap t (PSleep g k)).
      apply inv_silent_one; auto; try (rewrite Ep; reflexivity).
    + exists (set_pc ap t (PTest g (_now_serving (c_mem c)) k)).
      apply inv_silent_one; auto; try (rewrite Ep; reflexivity).
      cbn in *. split; [exact Ht|]. intros E.
      apply (@served_ticket tr c ap t g H); [rewrite Ep; reflexivity|exact E].
    + exists (set_pc ap t (PWait g cur k)).
      apply inv_silent_one; auto; try (rewrite Ep; reflexivity).
      cbn in *. apply Ht.
    + exists (set_pc ap t (PRead g k)).
      apply inv_enter; auto; try (rewrite Ep; reflexivity).
      cbn in Ht. destruct Ht as [_ Ht]. specialize (Ht Hcur). subst g cur.
      apply (inv_serving H).
    + exists (set_pc ap t (PWrite g (counter (c_mem c)) k)).
      apply inv_silent_one; auto; try (rewrite Ep; reflexivity).
      cbn in *. intuition.
    + exists (set_pc ap t (PRelease g k)).
      apply inv_write; auto.
    + exists (set_pc ap t (PNotify k)).
      apply inv_release with (g := g); auto.
  - (* a sleeper wakes up by itself *)
    exists (set_pc ap t (PReload g k)).
    apply inv_silent_one; auto; try (rewrite Hp; reflexivity).
    rewrite Hp in Ht. exact Ht.
  - (* a notify *)
    destruct Hw as [(-> & Hpool)|(u & -> & Hsl & Hpool)].
    + exists (set_pc ap t (PIdle k)).
      apply inv_silent_one; auto; try (rewrite Hp; reflexivity).
      exact I.
    + rewrite (inv_code H) in Hsl, Hpool.
      destruct (@sleeping_code _ _ Hsl) as (g' & k' & Hu).
      rewrite Hu in Hpool. change (wake (code (PSleep g' k'))) with (code (PReload g' k')) in Hpool.
      assert (Hut : u <> t) by (intros ->; congruence).
      exists (set_pc (set_pc ap t (PIdle k)) u (PReload g' k')).
      apply inv_silent with (ap := ap); auto; try (rewrite Hm; reflexivity).
      * rewrite Hpool. apply upd_code. apply upd_code. apply (inv_code H).
      * intros x. unfold set_pc.
        destruct (Z.eqb_spec x u) as [->|_]; [rewrite Hu; reflexivity|].
        destruct (Z.eqb_spec x t) as [->|_]; [rewrite Hp; reflexivity|reflexivity].
      * intros x. unfold set_pc.
        destruct (Z.eqb_spec x u) as [->|_]; [rewrite Hu; reflexivity|].
        destruct (Z.eqb_spec x t) as [->|_]; [rewrite Hp; reflexivity|reflexivity].
      * intros x. unfold set_pc.
        destruct (Z.eqb_spec x u) as [->|_]; [rewrite Hu; reflexivity|].
        destruct (Z.eqb_spec x t) as [->|_]; [rewrite Hp; reflexivity|reflexivity].
      * intros x. unfold set_pc.
        destruct (Z.eqb_spec x u) as [->|_].
        -- pose proof (inv_threads H u) as Ou. rewrite Hu in Ou. exact Ou.
        -- destruct (Z.eqb_spec x t) as [->|_]; [exact I|apply (inv_threads H)].
Qed.

(** Every execution of the test keeps the invariant. *)
Lemma exec_invariant tr c :
  exec ts (start iters) tr c -> exists ap, Inv tr c ap.
Proof.
  induction 1 as [|tr c lab c' _ [ap IH] Hs].
  - eexists. apply inv_start.
  - eapply step_keeps_invariant; eassumption.
Qed.

End TestInvariant.

(** ** One thread after the other: the test can run to its end *)

Lemma exec_path ts c0 tr c tr' c' :
  exec ts c0 tr c -> path ts c tr' c' -> exec ts c0 (tr ++ tr') c'.
Proof.
  intros He Hp. revert tr He.
  induction Hp as [c|c lab c1 tr1 c2 Hs Hp IH]; intros tr He.
  - rewrite app_nil_r. exact He.
  - replace (tr ++ mkMoment c lab c1 :: tr1)
      with ((tr ++ [mkMoment c lab c1]) ++ tr1)
      by (rewrite <- app_assoc; reflexivity).
    apply IH. apply exec_step; assumption.
Qed.

Lemma path_app ts c tr c1 tr' c2 :
  path ts c tr c1 -> path ts c1 tr' c2 -> path ts c (tr ++ tr') c2.
Proof.
  intros H1 H2. induction H1 as [c|c lab c1 tr1 c3 Hs Hp IH]; [exact H2|].
  cbn. apply path_cons; [exact Hs|]. apply IH. exact H2.
Qed.

Lemma step_running ts t c p e m' p' :
  In t ts -> c_pool c t = Running p ->
  thread_step p (c_mem c) = Step e m' p' ->
  notifies e = None -> parks e (c_mem c) = None ->
  step ts c (Did t e) (mkConfig m' (upd (c_pool c) t (Running p'))).
Proof.
  intros Hin Hp Hs Hn Hk. exists t, None. split; [exact Hin|].
  unfold sched. rewrite Hp, Hs, Hn, Hk. reflexivity.
Qed.

Lemma step_notify_nobody ts t c p e m' p' :
  In t ts -> c_pool c t = Running p ->
  thread_step p (c_mem c) = Step e m' p' ->
  notifies e = Some l_now_serving -> awake ts c ->
  step ts c (Did t e) (mkConfig m' (upd (c_pool c) t (Running p'))).
Proof.
  intros Hin Hp Hs Hn Ha. exists t, None. split; [exact Hin|].
  unfold sched. rewrite Hp, Hs, Hn.
  assert (E : existsb (fun u => sleeping_on l_now_serving (c_pool c u)) ts = false).
  { destruct (existsb _ ts) eqn:E; [|reflexivity].
    apply existsb_exists in E. destruct E as (u & Hu & E).
    rewrite (Ha u Hu) in E. discriminate. }
  rewrite E. reflexivity.
Qed.

Lemma upd_same pool t s : upd pool t s t = s.
Proof. unfold upd. rewrite Z.eqb_refl. reflexivity. Qed.

Lemma upd_other pool t s u : u <> t -> upd pool t s u = pool u.
Proof. unfold upd. intros H. destruct (Z.eqb_spec u t); congruence. Qed.

Lemma awake_upd ts c m' t p :
  awake ts c -> awake ts (mkConfig m' (upd (c_pool c) t (Running p))).
Proof.
  intros H u Hu. cbn. unfold upd. destruct (u =? t); [reflexivity|apply H, Hu].
Qed.

Lemma one_round ts c t k :
  In t ts -> c_pool c t = Running (worker (S k)) -> awake ts c -> lock_free c ->
  exists tr c',
    path ts c tr c' /\ c_pool c' t = Running (worker k) /\
    (forall u, u <> t -> c_pool c' u = c_pool c u) /\
    awake ts c' /\ lock_free c'.
Proof.
  intros Hin Hp Ha Hf. destruct c as [[nt ns o r cn] pool].
  unfold lock_free in *. cbn [c_mem c_pool _next_ticket _now_serving] in *. subst nt.
  eexists. eexists. split; [|split; [|split; [|split]]].
  - eapply path_cons.
    { eapply step_running; [exact Hin|exact Hp|reflexivity|reflexivity|reflexivity]. }
    eapply path_cons.
    { eapply step_running;
        [exact Hin|apply upd_same|reflexivity|reflexivity|reflexivity]. }
    cbn [act fst snd rd wr _next_ticket _now_serving _owner _recursion counter].
    rewrite Z.eqb_refl. cbn [negb bind].
    eapply path_cons.
    { eapply step_running;
        [exact Hin|apply upd_same|reflexivity|reflexivity|reflexivity]. }
    eapply path_cons.
    { eapply step_running;
        [exact Hin|apply upd_same|reflexivity|reflexivity|reflexivity]. }
    eapply path_cons.
    { eapply step_running;
        [exact Hin|apply upd_same|reflexivity|reflexivity|reflexivity]. }
    eapply path_cons.
    { eapply step_notify_nobody;
        [exact Hin|apply upd_same|reflexivity|reflexivity|].
      repeat apply awake_upd. exact Ha. }
    apply path_nil.
  - cbn [c_pool]. rewrite upd_same. reflexivity.
  - intros u Hu. cbn [c_pool]. rewrite !upd_other by exact Hu. reflexivity.
  - repeat apply awake_upd. exact Ha.
  - reflexivity.
Qed.

Lemma all_rounds ts t k :
  forall c,
    In t ts -> c_pool c t = Running (worker k) -> awake ts c -> lock_free c ->
    exists tr c',
      path ts c tr c' /\ c_pool c' t = Running (worker 0) /\
      (forall u, u <> t -> c_pool c' u = c_pool c u) /\
      awake ts c' /\ lock_free c'.
Proof.
  induction k as [|k IH]; intros c Hin Hp Ha Hf.
  - exists [], c. split; [apply path_nil|]. auto.
  - destruct (@one_round ts c t k Hin Hp Ha Hf) as (tr1 & c1 & P1 & Hp1 & Ho1 & Ha1 & Hf1).
    destruct (IH c1 Hin Hp1 Ha1 Hf1) as (tr2 & c2 & P2 & Hp2 & Ho2 & Ha2 & Hf2).
    exists (tr1 ++ tr2), c2. split; [eapply path_app; eassumption|].
    split; [exact Hp2|]. split; [|auto].
    intros u Hu. rewrite (Ho2 u Hu). apply Ho1, Hu.
Qed.

Lemma all_threads ts l :
  incl l ts ->
  forall c,
    (forall u, In u l -> exists k, c_pool c u = Running (worker k)) ->
    awake ts c -> lock_free c ->
    exists tr c',
      path ts c tr c' /\
      (forall u, In u l -> finished (c_pool c' u) = true) /\
      (forall u, ~ In u l -> c_pool c' u = c_pool c u).
Proof.
  induction l as [|t l IH]; intros Hincl c Hw Ha Hf.
  - exists [], c. split; [apply path_nil|]. split; [intros u []|auto].
  - assert (Hin : In t ts) by (apply Hincl; left; reflexivity).
    destruct (Hw t (or_introl eq_refl)) as (k & Hp).
    destruct (@all_rounds ts t k c Hin Hp Ha Hf)
      as (tr1 & c1 & P1 & Hp1 & Ho1 & Ha1 & Hf1).
    destruct (IH (fun u Hu => Hincl u (or_intror Hu)) c1) as (tr2 & c2 & P2 & Hd2 & Ho2).
    { intros u Hu. destruct (Z.eq_dec u t) as [->|Hne].
      - exists 0%nat. exact Hp1.
      - rewrite (Ho1 u Hne). apply Hw. right. exact Hu. }
    { exact Ha1. }
    { exact Hf1. }
    exists (tr1 ++ tr2), c2. split; [eapply path_app; eassumption|]. split.
    + intros u [<-|Hu]; [|apply Hd2, Hu].
      destruct (in_dec Z.eq_dec t l) as [Hl|Hl]; [apply Hd2, Hl|].
      rewrite (Ho2 t Hl), Hp1. reflexivity.
    + intros u Hu. rewrite Ho2 by (intros Hl; apply Hu; right; exact Hl).
      apply Ho1. intros ->. apply Hu. left. reflexivity.
Qed.

(** Some execution of the test runs every thread to its end. *)
Lemma test_can_finish ts iters :
  exists tr c, exec ts (start iters) tr c /\ all_finished ts c.
Proof.
  destruct (@all_threads ts ts (incl_refl ts) (start iters)) as (tr & c & P & Hd & _).
  - intros u _. exists (iters u). reflexivity.
  - intros u _. reflexivity.
  - reflexivity.
  - exists tr, c. split; [|exact Hd].
    apply (exec_path (exec_init ts (start iters)) P).
Qed.



(** ** First come, first served *)

Lemma firstn_seq_short n s len :
  (n <= len)%nat -> firstn n (seq s len) = seq s n.
Proof.
  revert s len. induction n as [|n IH]; intros s [|len] H; cbn; try lia; auto.
  f_equal. apply IH. lia.
Qed.

Lemma nth_error_pair (l : list (tid * Z)) n a b :
  nth_error (map fst l) n = Some a -> nth_error (map snd l) n = Some b ->
  nth_error l n = Some (a, b).
Proof.
  rewrite !nth_error_map. destruct (nth_error l n) as [[x y]|]; cbn; congruence.
Qed.

Lemma exec_split ts c0 tr c :
  exec ts c0 tr c ->
  forall tr1 x tr2,
    tr = tr1 ++ x :: tr2 ->
    exec ts c0 tr1 (before x) /\ step ts (before x) (did x) (after x).
Proof.
  induction 1 as [|tr c lab c' He IH Hs]; intros tr1 x tr2 E.
  - destruct tr1; discriminate.
  - destruct tr2 as [|y tr2] using rev_ind.
    + apply app_inj_tail in E. destruct E as [-> <-]. cbn. auto.
    + clear IHtr2.
      replace (tr1 ++ x :: tr2 ++ [y]) with ((tr1 ++ x :: tr2) ++ [y]) in E
        by (rewrite <- app_assoc; reflexivity).
      apply app_inj_tail in E. destruct E as [E _].
      exact (IH _ _ _ E).
Qed.

Section Fifo.

Variable ts : list tid.
Variable iters : tid -> nat.
Hypothesis ts_distinct : NoDup ts.
Hypothesis ts_valid : Forall valid_tid ts.

(** A [lock()] returns only when every earlier entry has been matched
    by a release. *)
Lemma entry_when_released tr c ap lab c' :
  test_invariant ts iters tr c ap -> step ts c lab c' ->
  entry_of (mkMoment c lab c') <> [] ->
  length (entries tr) = length (releases tr).
Proof.
  intros H (t & w & Hin & Hs) He.
  pose proof (inv_threads H t) as Ht.
  assert (Hgo : forall p', c_pool c' = upd (c_pool c) t (code p') ->
                   actor lab = t ->
                   negb (holder (ap t)) && holder p' = true).
  { intros p' Hpool Ea. unfold entry_of in He. cbn [before after did] in He.
    rewrite Ea, (inv_code H), Hpool, upd_same, !holding_code in He.
    destruct (negb (holder (ap t)) && holder p'); [reflexivity|congruence]. }
  assert (Hfree : forall g, ticket_of (ap t) = Some g -> holder (ap t) = false ->
                     _now_serving (c_mem c) = ticket_no g ->
                     length (entries tr) = length (releases tr)).
  { intros g Htk Hh Hns.
    pose proof (@served_ticket ts iters ts_distinct ts_valid tr c ap t g H Htk Hns) as Eg.
    subst g.
    destruct (inv_holder H) as [(E1 & _)|(_ & u & E2)]; [exact E1|].
    pose proof (@no_other_holder ts iters tr c ap t H Htk u E2). subst u. congruence. }
  destruct (@sched_code ts t w c lab c' (ap t) (length (draws tr))
              (inv_code H t) (inv_next H) Hs)
    as [(e & p' & -> & -> & Hmv & Hpool)
       |[(g & k & Hp & -> & -> & Hm & Hpool)
        |(k & Hp & -> & Hm & Hw)]].
  - specialize (Hgo p' Hpool eq_refl).
    remember (ap t) as p eqn:Ep. remember (c_mem c') as m' eqn:Em.
    symmetry in Ep.
    destruct Hmv as [k|g k Hns|g k Hns|g cur k Hns|g cur k Hns|g k
                    |g cur k Hcur|g cur k Hcur|g k|g v k|g k];
      cbn in Hgo; try discriminate.
    + apply (Hfree g); [reflexivity|reflexivity|exact Hns].
    + cbn in Ht. destruct Ht as [_ Ht]. specialize (Ht Hcur). subst g cur.
      apply (Hfree (length (releases tr))); [reflexivity|reflexivity|].
      apply (inv_serving H).
  - specialize (Hgo _ Hpool eq_refl). rewrite Hp in Hgo. discriminate.
  - destruct Hw as [(-> & Hpool)|(u & -> & Hsl & Hpool)].
    + specialize (Hgo _ Hpool eq_refl). rewrite Hp in Hgo. discriminate.
    + exfalso. unfold entry_of in He. cbn [before after did actor] in He.
      rewrite Hpool in He.
      assert (Hut : u <> t).
      { intros ->. rewrite (inv_code H), Hp in Hsl. discriminate. }
      rewrite upd_other, upd_same in He by congruence.
      rewrite (inv_code H), !holding_code, Hp in He. cbn in He. congruence.
Qed.

End Fifo.


(** A schedule that runs is an execution. *)
Lemma run_path ts s :
  forall c tr c', run ts s c = Some (tr, c') -> path ts c tr c'.
Proof.
  induction s as [|[t w] s IH]; intros c tr c' H; cbn in H.
  - inversion H; subst. apply path_nil.
  - destruct (existsb (Z.eqb t) ts) eqn:Et; [|discriminate].
    destruct (sched ts t w c) as [[lab c1]|] eqn:Es; [|discriminate].
    destruct (run ts s c1) as [[tr1 c2]|] eqn:Er; [|discriminate].
    inversion H; subst. apply path_cons; [|apply IH; exact Er].
    exists t, w. split; [|exact Es].
    apply existsb_exists in Et. destruct Et as (x & Hx & Ex).
    apply Z.eqb_eq in Ex. subst x. exact Hx.
Qed.

Lemma run_exec ts s c tr c' :
  run ts s c = Some (tr, c') -> exec ts c tr c'.
Proof.
  intros H. apply (exec_path (exec_init ts c) (run_path _ _ _ H)).
Qed.


(** The run of the two threads, looked at. *)
Example two_threads_order :
  option_map (fun r => (map fst (draws (fst r)), map fst (entries (fst r)),
                        releases (fst r), counter (c_mem (snd r))))
    (run [1; 2] two_threads (start (fun _ => 1%nat))) =
  Some ([1; 2], [1; 2], [1; 2], 2).
Proof. vm_compute. reflexivity. Qed.

(** ** Runs that do not finish *)



(** * The algorithm of the ticket lock *)

Lemma local_run_ret A (a b : A) tr : local_run (Ret a) tr b -> tr = [] /\ b = a.
Proof.
  intros H. inversion H; subst; [auto|]. cbn in *. discriminate.
Qed.

Lemma local_run_do A a (k : Z -> prog A) tr b :
  local_run (Do a k) tr b ->
  exists m rest,
    tr = (m, Ev a (snd (act a m)), fst (act a m)) :: rest /\
    local_run (k (snd (act a m))) rest b.
Proof.
  intros H. inversion H as [|p m e m' p' tr' a' Hs Hr]; subst.
  cbn in Hs. inversion Hs; subst. eauto.
Qed.

Lemma local_run_loop_do A a kb body cond (k : Z -> prog A) tr b :
  local_run (Loop (BDo a kb) body cond k) tr b ->
  exists m rest,
    tr = (m, Ev a (snd (act a m)), fst (act a m)) :: rest /\
    local_run (Loop (kb (snd (act a m))) body cond k) rest b.
Proof.
  intros H. inversion H as [|p m e m' p' tr' a' Hs Hr]; subst.
  cbn in Hs. inversion Hs; subst. eauto.
Qed.

Lemma local_run_loop_test A v body cond (k : Z -> prog A) tr b :
  local_run (Loop (BRet v) body cond k) tr b ->
  exists m rest,
    tr = (m, Tau, m) :: rest /\
    local_run (if cond v then Loop (body v) body cond k else k v) rest b.
Proof.
  intros H. inversion H as [|p m e m' p' tr' a' Hs Hr]; subst.
  cbn in Hs. inversion Hs; subst. eauto.
Qed.

Lemma lockSlow_steps ticket n :
  forall tr current,
    (length tr <= n)%nat ->
    local_run (ticket_lock._lockSlow ticket current) tr tt ->
    waits ticket current tr.
Proof.
  induction n as [|n IH]; intros tr current Hlen H;
    unfold ticket_lock._lockSlow, do_while in H; cbn [bind] in H;
    apply local_run_loop_do in H; destruct H as (m1 & r1 & -> & H);
    cbn [length] in Hlen; [lia|].
  cbn [act fst snd] in *.
  apply local_run_loop_do in H. destruct H as (m2 & r2 & -> & H).
  cbn [act fst snd rd] in *.
  apply local_run_loop_test in H. destruct H as (m3 & r3 & -> & H).
  destruct (Z.eqb_spec (_now_serving m2) ticket) as [E|E]; cbn [negb] in H.
  - cbn in H. apply local_run_ret in H. destruct H as [-> _].
    apply waits_last. exact E.
  - apply waits_again; [exact E|].
    apply IH; [cbn [length] in Hlen; lia|exact H].
Qed.

Lemma lock_local_steps tr :
  local_run ticket_lock.lock tr tt -> lock_steps tr.
Proof.
  intros H. unfold ticket_lock.lock, perform in H. cbn [bind] in H.
  apply local_run_do in H. destruct H as (m1 & r1 & -> & H).
  cbn [act fst snd rd] in H.
  apply local_run_do in H. destruct H as (m2 & r2 & -> & H).
  cbn [act fst snd rd] in H.
  exists m1, m2, r2. split.
  - destruct m1; reflexivity.
  - destruct (Z.eqb_spec (_next_ticket m1) (_now_serving m2)) as [E|E];
      cbn [negb] in H.
    + left. split; [exact E|]. apply local_run_ret in H. apply H.
    + right. split; [exact E|].
      apply (@lockSlow_steps _ (length r2)); [lia|exact H].
Qed.

Lemma unlock_local_steps tr :
  local_run ticket_lock.unlock tr tt -> unlock_steps tr.
Proof.
  intros H. unfold ticket_lock.unlock, perform_ in H. cbn [bind] in H.
  apply local_run_do in H. destruct H as (m1 & r1 & -> & H).
  cbn [act fst snd rd] in H.
  apply local_run_do in H. destruct H as (m2 & r2 & -> & H).
  cbn [act fst snd rd] in H.
  apply local_run_ret in H. destruct H as [-> _].
  exists m1, m2. destruct m1; reflexivity.
Qed.

Lemma upd_upd_other pool t s u s' v :
  v <> t -> v <> u -> upd (upd pool t s) u s' v = pool v.
Proof. intros H1 H2. rewrite !upd_other by assumption. reflexivity. Qed.

(** The notify step of the scheduler. *)
Lemma notify_wakes_one ts t w c lab c' p e m' p' l :
  c_pool c t = Running p ->
  thread_step p (c_mem c) = Step e m' p' ->
  notifies e = Some l ->
  sched ts t w c = Some (lab, c') ->
  wakes_one ts l t c c'.
Proof.
  intros Hp Hs Hn Hsched. unfold sched in Hsched. rewrite Hp, Hs, Hn in Hsched.
  destruct w as [u|].
  - destruct (existsb (Z.eqb u) ts) eqn:Eu; [|discriminate].
    destruct (sleeping_on l (c_pool c u)) eqn:Es; [|discriminate].
    cbn in Hsched. inversion Hsched; subst; clear Hsched.
    right. exists u.
    apply existsb_exists in Eu. destruct Eu as (x & Hx & Ex).
    apply Z.eqb_eq in Ex. subst x.
    assert (Hut : u <> t).
    { intros ->. rewrite Hp in Es. discriminate. }
    split; [exact Hx|]. split; [exact Hut|]. split; [exact Es|].
    cbn [c_pool]. split; [apply upd_same|].
    intros v H1 H2. apply upd_upd_other; assumption.
  - destruct (existsb (fun u => sleeping_on l (c_pool c u)) ts) eqn:Ee;
      [discriminate|].
    inversion Hsched; subst; clear Hsched.
    left. split.
    + apply forallb_forall. intros u Hu.
      destruct (sleeping_on l (c_pool c u)) eqn:Es; [|reflexivity].
      exfalso. assert (Ht : existsb (fun u => sleeping_on l (c_pool c u)) ts = true).
      { apply existsb_exists. eauto. }
      congruence.
    + intros u Hu. cbn [c_pool]. apply upd_other, Hu.
Qed.

(** ** The steps of a thread inside an execution are a local run *)

Lemma local_steps_app A (p p1 p2 : prog A) tr tr' :
  local_steps p tr p1 -> local_steps p1 tr' p2 -> local_steps p (tr ++ tr') p2.
Proof.
  intros H1 H2. induction H1 as [p|p m e m' p1' tr1 p3 Hs H1 IH]; [exact H2|].
  cbn. eapply local_more; [exact Hs|]. apply IH. exact H2.
Qed.

Lemma local_steps_run A (p : prog A) tr a :
  local_steps p tr (Ret a) -> local_run p tr a.
Proof.
  intros H. remember (Ret a) as q eqn:Eq.
  induction H as [p|p m e m' p1 tr p2 Hs H IH]; subst.
  - apply local_done.
  - eapply local_step; [exact Hs|]. apply IH. reflexivity.
Qed.

Lemma residual_upd_other pool u s t :
  t <> u -> residual (upd pool u s t) = residual (pool t).
Proof. intros H. rewrite upd_other by exact H. reflexivity. Qed.

Lemma residual_wake s : residual (wake s) = residual s.
Proof. destruct s; reflexivity. Qed.

Lemma sched_view ts u w c lab c1 t :
  sched ts u w c = Some (lab, c1) ->
  local_steps (residual (c_pool c t)) (view_of t (mkMoment c lab c1))
    (residual (c_pool c1 t)).
Proof.
  unfold sched, view_of. cbn [did before after].
  destruct (c_pool c u) as [p|l p] eqn:Eu.
  - destruct (thread_step p (c_mem c)) as [a|e m' p'] eqn:Es; [discriminate|].
    assert (Hown : forall s, residual s = p' ->
                     local_steps (residual (c_pool c u)) [(c_mem c, e, m')] (residual s)).
    { intros s Hs. rewrite Eu, Hs. cbn [residual].
      eapply local_more; [exact Es|apply local_none]. }
    destruct (notifies e) as [l|].
    + destruct w as [v|].
      * destruct (existsb (Z.eqb v) ts && sleeping_on l (c_pool c v)) eqn:Ev;
          [|discriminate].
        intros H. inversion H; subst; clear H. cbn [c_mem c_pool].
        apply andb_true_iff in Ev. destruct Ev as [_ Ev].
        assert (Hvu : v <> u) by (intros ->; rewrite Eu in Ev; discriminate).
        destruct (Z.eqb_spec u t) as [->|Hut].
        -- apply Hown. rewrite upd_other, upd_same by congruence. reflexivity.
        -- unfold upd at 1. destruct (Z.eqb_spec t v) as [->|Htv].
           ++ rewrite residual_wake. apply local_none.
           ++ rewrite residual_upd_other by congruence. apply local_none.
      * destruct (existsb (fun v => sleeping_on l (c_pool c v)) ts); [discriminate|].
        intros H. inversion H; subst; clear H. cbn [c_mem c_pool].
        destruct (Z.eqb_spec u t) as [->|Hut].
        -- apply Hown. rewrite upd_same. reflexivity.
        -- rewrite residual_upd_other by congruence. apply local_none.
    + destruct w as [v|]; [discriminate|].
      intros H. inversion H; subst; clear H. cbn [c_mem c_pool].
      destruct (Z.eqb_spec u t) as [->|Hut].
      * apply Hown. rewrite upd_same. destruct (parks e (c_mem c)); reflexivity.
      * rewrite residual_upd_other by congruence. apply local_none.
  - destruct w as [v|]; [discriminate|].
    intros H. inversion H; subst; clear H. cbn [c_mem c_pool].
    unfold upd. destruct (Z.eqb_spec t u) as [->|Htu].
    + rewrite Eu. apply local_none.
    + apply local_none.
Qed.

(** In any run of any threads, what a thread does from one configuration
    to another is a sequence of local steps of its program. *)
Lemma path_view ts c tr c' t :
  path ts c tr c' ->
  local_steps (residual (c_pool c t)) (thread_view t tr) (residual (c_pool c' t)).
Proof.
  induction 1 as [c|c lab c1 tr c2 (u & w & _ & Hs) Hp IH].
  - apply local_none.
  - unfold thread_view. cbn [flat_map]. eapply local_steps_app; [|exact IH].
    eapply sched_view. exact Hs.
Qed.


Lemma slow_call_runs : local_run ticket_lock.lock slow_call tt.
Proof.
  unfold slow_call.
  eapply local_step; [reflexivity|].
  eapply local_step; [reflexivity|].
  eapply local_step; [reflexivity|].
  eapply local_step; [reflexivity|].
  eapply local_step; [reflexivity|].
  apply local_done.
Qed.



(** * A waiter left behind by [atomic_notify_one] *)

(** X1.  With three threads the notify of [unlock()] (line 96) can go to
    a thread whose turn it is not: in the run [three_threads], made of
    actions only, thread 1 releases the lock while 2 and 3 are parked in
    [_lockSlow] (line 104) and its notify wakes 3; thread 3 reloads
    [_now_serving], finds it different from its ticket and parks again.
    Thread 2 holds the ticket [_now_serving] now shows, yet it is still
    parked, the lock is free, thread 1 has finished, and no thread can
    act any more. *)
Theorem notify_one_can_strand_a_waiter :
  exists tr c,
    run [1; 2; 3] three_threads (start (fun _ => 1%nat)) = Some (tr, c) /\
    exec [1; 2; 3] (start (fun _ => 1%nat)) tr c /\
    forallb (fun x => acts (did x)) tr = true /\
    In (2, _now_serving (c_mem c)) (draws tr) /\
    sleeping_on l_now_serving (c_pool c 2) = true /\
    (forall t, In t [1; 2; 3] -> holding (c_pool c t) = false) /\
    finished (c_pool c 1) = true /\
    stranded [1; 2; 3] c.
Proof.
  destruct (run [1; 2; 3] three_threads (start (fun _ => 1%nat)))
    as [[tr c]|] eqn:E; [|vm_compute in E; discriminate].
  exists tr, c. split; [reflexivity|].
  split; [exact (run_exec _ _ _ E)|].
  vm_compute in E. inversion E; subst tr c; clear E.
  split; [vm_compute; reflexivity|].
  split; [vm_compute; tauto|].
  split; [vm_compute; reflexivity|].
  split.
  { intros t Hin. cbn [In] in Hin.
    destruct Hin as [<-|[<-|[<-|[]]]]; vm_compute; reflexivity. }
  split; [vm_compute; reflexivity|].
  split.
  - exists 2. split; [cbn; tauto|vm_compute; reflexivity].
  - intros lab c' (t & w & Hin & Hs).
    cbn [In] in Hin. destruct Hin as [<-|[<-|[<-|[]]]];
      destruct w; vm_compute in Hs; try discriminate;
      inversion Hs; reflexivity.
Qed.

(** * The ticket lock used by one thread *)

Lemma wrap32_plus z k : wrap32 (wrap32 z + k) = wrap32 (z + k).
Proof. unfold wrap32. rewrite Zplus_mod_idemp_l. reflexivity. Qed.

Lemma lock_unlock_runs m :
  _next_ticket m = _now_serving m ->
  exists evs,
    runs lock_unlock m tt
      (mkMem (wrap32 (_next_ticket m + 1)) (wrap32 (_now_serving m + 1))
             (_owner m) (_recursion m) (counter m)) evs /\
    forallb (fun e => negb (is_wait e)) evs = true.
Proof.
  intros H. eexists. split.
  - unfold lock_unlock. eapply runs_bind.
    + apply ticket_lock_lock_fast. exact H.
    + apply ticket_lock_unlock_runs.
  - reflexivity.
Qed.

Lemma round_trips_run k :
  forall m, _next_ticket m = _now_serving m -> 0 <= _next_ticket m < 2 ^ 32 ->
  exists evs,
    runs (times k lock_unlock) m tt
      (mkMem (wrap32 (_next_ticket m + Z.of_N k)) (wrap32 (_now_serving m + Z.of_N k))
             (_owner m) (_recursion m) (counter m)) evs /\
    forallb (fun e => negb (is_wait e)) evs = true.
Proof.
  induction k as [|k IH] using N.peano_ind; intros m H Hr.
  - exists []. split; [|reflexivity].
    rewrite times_zero. change (Z.of_N 0) with 0. rewrite !Z.add_0_r.
    rewrite <- H. rewrite (wrap32_small Hr).
    destruct m; cbn in *. subst. apply runs_Ret.
  - destruct (@lock_unlock_runs m H) as (e1 & R1 & W1).
    destruct (IH (mkMem (wrap32 (_next_ticket m + 1)) (wrap32 (_now_serving m + 1))
                        (_owner m) (_recursion m) (counter m)))
      as (e2 & R2 & W2).
    + cbn. rewrite H. reflexivity.
    + cbn. apply wrap32_range.
    + exists (e1 ++ e2). split.
      * rewrite times_succ. eapply runs_bind; [exact R1|].
        cbn [_next_ticket _now_serving _owner _recursion counter] in R2.
        rewrite !wrap32_plus in R2.
        replace (_next_ticket m + Z.of_N (N.succ k))
          with (_next_ticket m + 1 + Z.of_N k) by lia.
        replace (_now_serving m + Z.of_N (N.succ k))
          with (_now_serving m + 1 + Z.of_N k) by lia.
        exact R2.
      * rewrite forallb_app, W1, W2. reflexivity.
Qed.

Lemma wrap32_period z : wrap32 (z + 2 ^ 32) = wrap32 z.
Proof.
  unfold wrap32. replace (z + 2 ^ 32) with (z + 1 * 2 ^ 32) by lia.
  apply Z_mod_plus_full.
Qed.

Lemma wrap32_succ_neq v : wrap32 (v + 1) <> v.
Proof.
  intros E. pose proof (wrap32_range (v + 1)) as Hr. rewrite E in Hr.
  destruct (Z.eq_dec v (2 ^ 32 - 1)) as [->|Hn].
  - vm_compute in E. discriminate.
  - rewrite wrap32_small in E; lia.
Qed.

(** X2.  Integer overflow does not break the uncontended lock (lines
    115-116).  On a lock nobody holds, whatever the value [v] of its two
    counters, [k] rounds of [lock(); unlock();] by one thread all return
    without a wait and leave both counters at [v + k] modulo [2^32] and
    everything else as it was; after [2^32] rounds the lock is in the
    very state it started from. *)
Theorem uncontended_round_trips (m : mem) (k : N)
  (Hfree : _next_ticket m = _now_serving m)
  (Hrange : 0 <= _next_ticket m < 2 ^ 32) :
  (exists evs,
      runs (times k lock_unlock) m tt
        (mkMem (wrap32 (_next_ticket m + Z.of_N k))
               (wrap32 (_now_serving m + Z.of_N k))
               (_owner m) (_recursion m) (counter m)) evs /\
      forallb (fun e => negb (is_wait e)) evs = true) /\
  (exists evs, runs (times (2 ^ 32) lock_unlock) m tt m evs).
Proof.
  split.
  - apply round_trips_run; assumption.
  - destruct (@round_trips_run (2 ^ 32) m Hfree Hrange) as (evs & R & _).
    exists evs.
    change (Z.of_N (2 ^ 32)) with (2 ^ 32) in R.
    rewrite !wrap32_period in R. rewrite <- Hfree in R.
    rewrite (wrap32_small Hrange) in R.
    destruct m as [a b o r c].
    cbn [_next_ticket _now_serving _owner _recursion counter] in *.
    subst b. exact R.
Qed.

Lemma uncontended_round_trips_witness :
  _next_ticket (mkMem 4294967295 4294967295 0 0 0) =
  _now_serving (mkMem 4294967295 4294967295 0 0 0) /\
  0 <= _next_ticket (mkMem 4294967295 4294967295 0 0 0) < 2 ^ 32 /\
  exists evs,
    runs (times 2 lock_unlock) (mkMem 4294967295 4294967295 0 0 0) tt
      (mkMem 1 1 0 0 0) evs.
Proof.
  assert (H1 : _next_ticket (mkMem 4294967295 4294967295 0 0 0) =
               _now_serving (mkMem 4294967295 4294967295 0 0 0)) by reflexivity.
  assert (H2 : 0 <= _next_ticket (mkMem 4294967295 4294967295 0 0 0) < 2 ^ 32)
    by (cbn; lia).
  split; [exact H1|]. split; [exact H2|].
  destruct (proj1 (@uncontended_round_trips (mkMem 4294967295 4294967295 0 0 0) 2 H1 H2)) as (evs & R & _).
  exists evs. exact R.
Defined.

(** X3.  The lock is not re-entrant and does not check its calls (lines
    72-74).  On a lock nobody holds, a second [lock()] with no [unlock()]
    in between parks the caller, and so does the [lock()] that follows an
    [unlock()] nobody owed: in both cases the ticket drawn differs from
    [_now_serving] and the caller waits for a change of it. *)
Theorem unbalanced_calls_block (m : mem)
  (Hfree : _next_ticket m = _now_serving m) :
  (exists evs,
      stalls (ticket_lock.lock ;; ticket_lock.lock) m
        (mkMem (wrap32 (wrap32 (_next_ticket m + 1) + 1)) (_now_serving m)
               (_owner m) (_recursion m) (counter m)) evs /\
      last evs Tau = Ev (atomic_wait l_now_serving (_now_serving m)) 0) /\
  (exists evs,
      stalls (ticket_lock.unlock ;; ticket_lock.lock) m
        (mkMem (wrap32 (_next_ticket m + 1)) (wrap32 (_now_serving m + 1))
               (_owner m) (_recursion m) (counter m)) evs /\
      last evs Tau =
        Ev (atomic_wait l_now_serving (wrap32 (_now_serving m + 1))) 0).
Proof.
  split.
  - eexists. split.
    + eapply stalls_bind.
      * apply ticket_lock_lock_fast. exact Hfree.
      * apply ticket_lock_lock_stalls. cbn. rewrite Hfree.
        apply wrap32_succ_neq.
    + reflexivity.
  - eexists. split.
    + eapply stalls_bind.
      * apply ticket_lock_unlock_runs.
      * apply ticket_lock_lock_stalls. cbn. rewrite Hfree.
        intros E. symmetry in E. revert E. apply wrap32_succ_neq.
    + reflexivity.
Qed.

Lemma unbalanced_calls_block_witness :
  _next_ticket fresh = _now_serving fresh /\
  exists evs,
    stalls (ticket_lock.unlock ;; ticket_lock.lock) fresh (mkMem 1 1 0 0 0) evs.
Proof.
  assert (H : _next_ticket fresh = _now_serving fresh) by reflexivity.
  split; [exact H|].
  destruct (proj2 (@unbalanced_calls_block fresh H)) as (evs & S & _).
  exists evs. exact S.
Defined.

(** * The recursive lock and its inner lock *)

Lemma lock_needs_turn t m m' evs :
  runs (recursive_ticket_lock.lock t) m tt m' evs ->
  _owner m <> t -> _next_ticket m = _now_serving m.
Proof.
  intros R Ho. destruct (Z.eq_dec (_next_ticket m) (_now_serving m)) as [E|E];
    [exact E|].
  exfalso. exact (runs_not_stalls R (@lock_stalls m t Ho E)).
Qed.

Lemma destroy_needs_turn s m m' evs :
  runs (recursive_ticket_lock.destroy s) m tt m' evs ->
  s_owner s <> 0 -> _owner m <> s_owner s ->
  _next_ticket m = _now_serving m.
Proof.
  intros R H0 Ho. destruct (Z.eq_dec (_next_ticket m) (_now_serving m)) as [E|E];
    [exact E|].
  exfalso. exact (runs_not_stalls R (@destroy_stalls m s H0 Ho E)).
Qed.

Lemma sound_constructed : sound constructed.
Proof.
  split.
  - split; [apply wf_fresh|]. cbn. split; [auto|]. intros H. congruence.
  - intros t s [].
Qed.

Lemma tokens_sound (toks : tid -> list recursive_ticket_lock_suspension) t l :
  (forall u s, In s (toks u) -> token_of u s) ->
  (forall s, In s l -> token_of t s) ->
  forall u s, In s (set_tokens toks t l u) -> token_of u s.
Proof.
  intros Hold Hnew u s. unfold set_tokens.
  destruct (Z.eqb_spec u t) as [->|_]; [apply Hnew|apply Hold].
Qed.

(** Taking the inner lock for [t]: what [lock()] and a token do alike. *)
Lemma take_keeps m t d :
  owner_has_lock m -> valid_tid t -> _next_ticket m = _now_serving m ->
  owner_has_lock
    (wr l_recursion d (wr l_owner t (wr l_next_ticket (_next_ticket m + 1) m))).
Proof.
  intros (Hwf & H0 & H1) Ht E.
  destruct m as [a b o r c]. cbn in *. subst a.
  rewrite (valid_tid_wrap Ht).
  split.
  - unfold wf in *. cbn in *. unfold valid_tid in Ht.
    pose proof (wrap32_range (b + 1)). pose proof (wrap32_range d). lia.
  - cbn. split.
    + intros E. exfalso. revert Ht. unfold valid_tid. lia.
    + intros _. split; [exact Ht|reflexivity].
Qed.

Lemma count_keeps m d :
  owner_has_lock m -> _owner m <> 0 ->
  owner_has_lock (wr l_recursion d m).
Proof.
  intros (Hwf & H0 & H1) Ho.
  destruct m as [a b o r c]. cbn in *.
  split.
  - unfold wf in *. cbn in *. pose proof (wrap32_range d). lia.
  - cbn. split; [intros E; congruence|exact H1].
Qed.

Lemma release_keeps m d :
  owner_has_lock m -> _owner m <> 0 -> wrap32 d = 0 ->
  owner_has_lock
    (wr l_now_serving (_now_serving m + 1) (wr l_owner 0 (wr l_recursion d m))).
Proof.
  intros (Hwf & H0 & H1) Ho Hd.
  destruct (H1 Ho) as (_ & E).
  destruct m as [a b o r c]. cbn in *.
  rewrite Hd. change (wrap32 0) with 0.
  split.
  - unfold wf in *. cbn in *. pose proof (wrap32_range (b + 1)). lia.
  - cbn. split; [intros _; split; [reflexivity|exact E]|intros H; congruence].
Qed.

Lemma rstep_keeps_sound st t c st' :
  sound st -> valid_tid t -> rstep t c st st' -> sound st'.
Proof.
  intros (Hm & Htok) Ht Hstep.
  pose proof (valid_tid_nonzero Ht) as Hnz.
  destruct Hstep as [st m' evs R|st m' evs Ho R|st s m' evs R|st s rest m' evs Hs R];
    destruct st as [m toks]; cbn [r_mem r_tokens] in *.
  - (* lock *)
    split; [|exact Htok]. cbn [r_mem].
    destruct (lock_result R) as [(Ho & ->)|(Ho & ->)].
    + apply count_keeps; [exact Hm|congruence].
    + apply take_keeps; [exact Hm|exact Ht|].
      exact (lock_needs_turn R Ho).
  - (* unlock *)
    split; [|exact Htok]. cbn [r_mem].
    destruct (unlock_result R) as [(Hd & ->)|(Hd & ->)].
    + apply count_keeps; [exact Hm|congruence].
    + apply release_keeps; [exact Hm|congruence|exact Hd].
  - (* suspend *)
    destruct (suspend_result R) as [(Ho & -> & ->)|(Ho & -> & ->)].
    + split; cbn [r_mem r_tokens].
      * assert (E : wr l_now_serving (_now_serving m + 1)
                      (wr l_recursion 0 (wr l_owner 0 m)) =
                    wr l_now_serving (_now_serving m + 1)
                      (wr l_owner 0 (wr l_recursion 0 m))).
        { destruct m; reflexivity. }
        rewrite E. apply release_keeps; [exact Hm|congruence|reflexivity].
      * apply tokens_sound; [exact Htok|].
        intros s [<-|Hin]; [right; reflexivity|apply Htok, Hin].
    + split; cbn [r_mem r_tokens]; [exact Hm|].
      apply tokens_sound; [exact Htok|].
      intros s [<-|Hin]; [left; reflexivity|apply Htok, Hin].
  - (* a token dies *)
    assert (Hts : token_of t s) by (apply Htok; rewrite Hs; left; reflexivity).
    split; cbn [r_mem r_tokens].
    + destruct (@destroy_result _ _ _ _ R) as [(H0 & ->)|[(H0 & Ho & ->)|(H0 & Ho & ->)]].
      * exact Hm.
      * apply count_keeps; [exact Hm|congruence].
      * destruct Hts as [Hts|Hts]; [congruence|].
        rewrite Hts in *. apply take_keeps; [exact Hm|exact Ht|].
        apply (@destroy_needs_turn _ _ _ _ R); [rewrite Hts; exact Hnz|rewrite Hts; exact Ho].
    + apply tokens_sound; [exact Htok|].
      intros s' Hin. apply Htok. rewrite Hs. right. exact Hin.
Qed.

Lemma reachable_sound st : reachable st -> sound st.
Proof.
  induction 1 as [|st t c st' _ IH Ht Hs].
  - exact sound_constructed.
  - eapply rstep_keeps_sound; eassumption.
Qed.

Lemma owned_lock_taken m :
  owner_has_lock m -> _owner m <> 0 -> _next_ticket m <> _now_serving m.
Proof.
  intros (_ & _ & H1) Ho. destruct (H1 Ho) as (_ & E).
  rewrite E. apply wrap32_succ_neq.
Qed.

(** X5.  While a thread owns the lock no other thread gets it: in a
    reachable state with an owner, [lock()] called by another thread
    parks, and the only calls of another thread that complete, a
    [suspend()] and the death of a token, leave every member of the
    lock as it is. *)
Theorem owned_lock_shuts_out_others (st : rstate) (t : tid)
  (H : reachable st) (Ht : valid_tid t)
  (Howned : _owner (r_mem st) <> 0) (Hother : _owner (r_mem st) <> t) :
  (exists m' evs, stalls (recursive_ticket_lock.lock t) (r_mem st) m' evs) /\
  forall c st',
    rstep t c st st' ->
    r_mem st' = r_mem st /\ (c = call_suspend \/ c = call_destroy).
Proof.
  destruct (reachable_sound H) as (Hm & Htok).
  pose proof (owned_lock_taken Hm Howned) as Hn.
  pose proof (@lock_stalls (r_mem st) t Hother Hn) as Hst.
  split; [eauto|].
  intros c st' Hstep.
  destruct Hstep as [st m' evs R|st m' evs Ho R|st s m' evs R|st s rest m' evs Hs R];
    cbn [r_mem].
  - exfalso. exact (runs_not_stalls R Hst).
  - congruence.
  - destruct (suspend_result R) as [(Ho & _)|(_ & _ & ->)]; [congruence|].
    split; [reflexivity|left; reflexivity].
  - assert (Hts : token_of t s) by (apply Htok; rewrite Hs; left; reflexivity).
    destruct (@destroy_result _ _ _ _ R) as [(_ & ->)|[(H0 & Ho & _)|(H0 & Ho & _)]].
    + split; [reflexivity|right; reflexivity].
    + destruct Hts; congruence.
    + exfalso. exact (runs_not_stalls R (@destroy_stalls _ _ H0 Ho Hn)).
Qed.

Lemma owned_lock_shuts_out_others_witness :
  reachable (mkRstate (mkMem 1 0 1 1 0) (fun _ => [])) /\ valid_tid 2 /\
  exists m' evs,
    stalls (recursive_ticket_lock.lock 2) (mkMem 1 0 1 1 0) m' evs.
Proof.
  assert (R : reachable (mkRstate (mkMem 1 0 1 1 0) (fun _ => [])))
    by exact (relock_reachable 0).
  assert (Ht : valid_tid 2) by (unfold valid_tid; lia).
  split; [exact R|]. split; [exact Ht|].
  refine (proj1 (@owned_lock_shuts_out_others _ 2 R Ht _ _)); cbn; discriminate.
Defined.

(** X6.  [unlock()] does not check that the lock is held (lines
    195-202).  Called on a lock nobody holds it takes the count from 0 to
    [2^32 - 1] and releases nothing; the next [lock()] of a thread takes
    the inner lock and brings the count back to 0, and the [unlock()]
    that goes with it, finding the count at [2^32 - 1] again, does not
    release: the thread still owns the lock, at a reported depth of
    [2^32 - 1], and a [lock()] of any other thread parks. *)
Theorem stray_unlock_keeps_lock_held (m : mem) (t : tid)
  (Hm : free m) (Ht : valid_tid t) :
  exists evs,
    runs (stray_unlock t) m (1, 2 ^ 32 - 1)
      (mkMem (wrap32 (_next_ticket m + 1)) (_now_serving m) t (2 ^ 32 - 1)
             (counter m)) evs /\
    inner_unlocks evs = 0%nat /\
    forall u, u <> t ->
      exists m' e,
        stalls (recursive_ticket_lock.lock u)
          (mkMem (wrap32 (_next_ticket m + 1)) (_now_serving m) t (2 ^ 32 - 1)
                 (counter m)) m' e.
Proof.
  destruct Hm as (Hwf & Ho & Hr & Hn).
  pose proof (valid_tid_nonzero Ht) as Hnz.
  destruct m as [a b o r c].
  cbn [_next_ticket _now_serving _owner _recursion counter] in *. subst o r a.
  eexists. split; [|split].
  - unfold stray_unlock.
    eapply runs_bind; [apply unlock_inner; cbn; discriminate|].
    eapply runs_bind.
    { apply lock_acquires; cbn; [congruence|reflexivity]. }
    eapply runs_bind; [apply unlock_inner; cbn; discriminate|].
    cbn [wr _next_ticket _now_serving _owner _recursion counter].
    rewrite (valid_tid_wrap Ht).
    change (wrap32 (wrap32 (wrap32 (0 - 1) + 1) - 1)) with (2 ^ 32 - 1).
    unfold observe, recursive_ticket_lock.is_locked,
      recursive_ticket_lock.recursion_depth. norm_prog.
    one_step. rewrite Z.eqb_refl. norm_prog.
    one_step. rewrite Z.eqb_refl. cbn [Z.eqb negb]. norm_prog.
    one_step. one_step.
  - reflexivity.
  - intros u Hu. eexists. eexists.
    apply lock_stalls; cbn; [congruence|apply wrap32_succ_neq].
Qed.

Lemma stray_unlock_keeps_lock_held_witness :
  free fresh /\ valid_tid 7 /\
  exists evs,
    runs (stray_unlock 7) fresh (1, 4294967295) (mkMem 1 0 7 4294967295 0) evs.
Proof.
  assert (Ht : valid_tid 7) by (unfold valid_tid; lia).
  split; [exact free_fresh|]. split; [exact Ht|].
  destruct (stray_unlock_keeps_lock_held free_fresh Ht) as (evs & R & _).
  exists evs. exact R.
Defined.

Lemma taken_over_holds t u d m :
  held_by t d m -> valid_tid u ->
  exists m2 evs,
    runs (taken_over t u) m (mkSuspension t d) m2 evs /\ held_by u 1 m2 /\
    _next_ticket m2 = wrap32 (_next_ticket m + 1) /\ counter m2 = counter m.
Proof.
  intros H Hu.
  destruct (suspend_frees H) as (m1 & e1 & R1 & F1 & N1 & C1).
  destruct (lock_free_holds Hu F1) as (m2 & e2 & R2 & H2 & _).
  exists m2. eexists. split; [|split; [exact H2|]].
  - unfold taken_over. eapply runs_bind; [exact R1|].
    eapply runs_bind; [exact R2|]. apply runs_Ret.
  - destruct F1 as (_ & Ho1 & _ & Hn1).
    assert (Hne : _owner m1 <> u).
    { rewrite Ho1. intros E. apply (valid_tid_nonzero Hu). congruence. }
    destruct (lock_result R2) as [(E & _)|(_ & ->)]; [congruence|].
    cbn. rewrite N1. split; [reflexivity|exact C1].
Qed.

(** X7.  What [suspend()] is for: handing the lock to another thread.
    Thread [t] holds the lock at depth [d] and suspends it.  A [lock()]
    of thread [u] then returns and [u] holds the lock at depth 1.  If
    [u] unlocks before the token of [t] dies, the token's destructor
    returns and [t] holds the lock at depth [d] again, two tickets
    later; if the token dies while [u] still holds the lock, the
    destructor parks. *)
Theorem suspension_hands_over (m : mem) (t u : tid) (d : Z)
  (H : held_by t d m) (Hu : valid_tid u) (Hne : u <> t) :
  (exists m2 evs,
      runs (taken_over t u) m (mkSuspension t d) m2 evs /\ held_by u 1 m2) /\
  (exists m4 evs,
      runs (hand_over t u) m tt m4 evs /\ held_by t d m4 /\
      _next_ticket m4 = wrap32 (_next_ticket m + 2) /\
      counter m4 = counter m) /\
  (exists m' evs, stalls (hand_over_early t u) m m' evs).
Proof.
  destruct (taken_over_holds H Hu) as (m2 & e2 & R2 & H2 & N2 & C2).
  assert (Ht : valid_tid t) by apply H.
  assert (Hd : 0 < d < 2 ^ 32).
  { destruct H as (Hwf & _ & _ & Hr & Hd & _).
    destruct Hwf as (_ & _ & _ & Hw). lia. }
  split; [eauto|]. split.
  - destruct (unlock_last_frees H2) as (m3 & e3 & R3 & F3 & N3).
    destruct (destroy_restores Ht Hd F3) as (m4 & e4 & R4 & H4 & N4 & C4).
    exists m4. eexists. split; [|split; [exact H4|split]].
    + unfold hand_over. eapply runs_bind; [exact R2|].
      eapply runs_bind; [exact R3|exact R4].
    + rewrite N4, N3, N2, wrap32_plus. f_equal. lia.
    + rewrite C4.
      destruct (unlock_result R3) as [(_ & ->)|(_ & ->)]; cbn; exact C2.
  - destruct H2 as (_ & _ & Ho2 & _ & _ & Hn2).
    eexists. eexists. unfold hand_over_early.
    eapply stalls_bind; [exact R2|].
    apply destroy_stalls; cbn [s_owner].
    + apply valid_tid_nonzero, Ht.
    + congruence.
    + rewrite Hn2. apply wrap32_succ_neq.
Qed.

Lemma suspension_hands_over_witness :
  held_by 7 3 (mkMem 5 4 7 3 0) /\ valid_tid 9 /\ 9 <> 7 /\
  exists m4 evs,
    runs (hand_over 7 9) (mkMem 5 4 7 3 0) tt m4 evs /\ held_by 7 3 m4.
Proof.
  assert (Hu : valid_tid 9) by (unfold valid_tid; lia).
  assert (Hne : 9 <> 7) by discriminate.
  split; [exact held_example|]. split; [exact Hu|]. split; [exact Hne|].
  destruct (proj1 (proj2 (suspension_hands_over held_example Hu Hne)))
    as (m4 & evs & R & Hh & _).
  exists m4, evs. split; [exact R|exact Hh].
Defined.

(** * The counters and the calls *)

(** X8.  In every execution of the test the two counters of the lock
    count its calls modulo [2^32]: [_next_ticket] is the number of
    [lock()] calls that have drawn their ticket, [_now_serving] the
    number of [unlock()] calls that have done their increment.  The
    tickets outstanding are never more than there are threads, and the
    two counters are equal exactly when there is none. *)
Theorem counters_count_calls (ts : list tid) (iters : tid -> nat)
  (Hdistinct : NoDup ts) (Hvalid : Forall valid_tid ts)
  (tr : list moment) (c : config) (He : exec ts (start iters) tr c) :
  _next_ticket (c_mem c) = ticket_no (length (draws tr)) /\
  _now_serving (c_mem c) = ticket_no (length (releases tr)) /\
  (length (releases tr) <= length (draws tr) <= length (releases tr) + length ts)%nat /\
  (lock_free c <-> length (draws tr) = length (releases tr)).
Proof.
  destruct (exec_invariant Hdistinct Hvalid He) as (ap & H).
  pose proof (inv_outstanding H) as Ho.
  pose proof (@total_le_length (fun t => has_ticket (ap t)) ts) as Hle.
  assert (Hh : forall u, (has_ticket (ap u) <= 1)%nat).
  { intros u. unfold has_ticket. destruct (ticket_of (ap u)); lia. }
  specialize (Hle Hh).
  split; [apply (inv_next H)|]. split; [apply (inv_serving H)|].
  split; [lia|].
  unfold lock_free. rewrite (inv_next H), (inv_serving H). split.
  - intros E. apply ticket_no_close; [lia| |exact E].
    pose proof (threads_bounded Hdistinct Hvalid). unfold tid in *. lia.
  - intros ->. reflexivity.
Qed.

Lemma counters_count_calls_witness :
  exists tr c,
    NoDup [1; 2] /\ Forall valid_tid [1; 2] /\
    exec [1; 2] (start (fun _ => 1%nat)) tr c /\
    _now_serving (c_mem c) = ticket_no (length (releases tr)).
Proof.
  assert (Hd : NoDup [1; 2]).
  { repeat constructor; cbn; intuition; discriminate. }
  assert (Hv : Forall valid_tid [1; 2]).
  { repeat constructor; unfold valid_tid; lia. }
  destruct (run [1; 2] two_threads (start (fun _ => 1%nat))) as [[tr c]|] eqn:E.
  - exists tr, c. split; [exact Hd|]. split; [exact Hv|].
    pose proof (run_exec _ _ _ E) as He. split; [exact He|].
    exact (proj1 (proj2 (counters_count_calls Hd Hv He))).
  - vm_compute in E. discriminate.
Defined.

(** * Two threads never get stuck *)

Lemma sched_woken_in ts t v c lab c' :
  sched ts t (Some v) c = Some (lab, c') -> In v ts.
Proof.
  unfold sched. destruct (c_pool c t) as [p|l p]; [|discriminate].
  destruct (thread_step p (c_mem c)) as [a|e m' p']; [discriminate|].
  destruct (notifies e) as [l|]; [|discriminate].
  destruct (existsb (Z.eqb v) ts) eqn:E; [|discriminate].
  intros _. apply existsb_exists in E. destruct E as (x & Hx & Ex).
  apply Z.eqb_eq in Ex. subst x. exact Hx.
Qed.

Lemma sched_notify_alone ts t c lab c' k :
  c_pool c t = code (PNotify k) ->
  sched ts t None c = Some (lab, c') ->
  forall u, In u ts -> sleeping_on l_now_serving (c_pool c u) = false.
Proof.
  intros Hc. unfold sched. rewrite Hc.
  cbn -[existsb sleeping_on].
  destruct (existsb (fun u => sleeping_on l_now_serving (c_pool c u)) ts) eqn:E;
    [discriminate|].
  intros _ u Hu. destruct (sleeping_on l_now_serving (c_pool c u)) eqn:S;
    [|reflexivity].
  assert (E' : existsb (fun u => sleeping_on l_now_serving (c_pool c u)) ts = true).
  { apply existsb_exists. exists u. split; assumption. }
  congruence.
Qed.

(** A thread at a point where it acts alone has a step. *)
Lemma acts_alone_step ts t c p :
  In t ts -> c_pool c t = code p -> acts_alone p = true ->
  exists lab c', step ts c lab c' /\ acts lab = true.
Proof.
  intros Hin Hc Ha.
  assert (H : exists e c', sched ts t None c = Some (Did t e, c')).
  { unfold sched. rewrite Hc.
    destruct p as [[|k]|g k|g cur k|g k|g k|g cur k|g k|g v k|g k|k];
      try discriminate; cbn -[wrap32 Z.add Z.eqb ticket_no]; eauto. }
  destruct H as (e & c' & H).
  exists (Did t e), c'. split; [|reflexivity].
  exists t, None. split; assumption.
Qed.

(** A thread about to notify has a step: it wakes a parked thread if
    there is one. *)
Lemma notify_step ts t c k :
  In t ts -> c_pool c t = code (PNotify k) ->
  exists lab c', step ts c lab c' /\ acts lab = true.
Proof.
  intros Hin Hc.
  destruct (existsb (fun u => sleeping_on l_now_serving (c_pool c u)) ts) eqn:E.
  - apply existsb_exists in E. destruct E as (u & Hu & Su).
    assert (Eu : existsb (Z.eqb u) ts = true).
    { apply existsb_exists. exists u. split; [exact Hu|apply Z.eqb_refl]. }
    eexists. eexists. split.
    + exists t, (Some u). split; [exact Hin|].
      unfold sched. rewrite Hc. cbn -[existsb sleeping_on].
      rewrite Eu, Su. reflexivity.
    + reflexivity.
  - eexists. eexists. split.
    + exists t, None. split; [exact Hin|].
      unfold sched. rewrite Hc. cbn -[existsb sleeping_on].
      rewrite E. reflexivity.
    + reflexivity.
Qed.

Section TwoThreads.

Variable a b : tid.
Variable iters : tid -> nat.
Hypothesis a_b : a <> b.
Hypothesis a_valid : valid_tid a.
Hypothesis b_valid : valid_tid b.

Local Abbreviation ts := [a; b].
Local Abbreviation Inv := (test_invariant ts iters).

Lemma two_distinct : NoDup ts.
Proof.
  repeat constructor; cbn; intuition.
Qed.

Lemma two_valid : Forall valid_tid ts.
Proof.
  constructor; [exact a_valid|]. constructor; [exact b_valid|]. constructor.
Qed.

Lemma only_two x y z :
  In x ts -> In y ts -> In z ts -> x <> y -> x <> z -> y <> z -> False.
Proof.
  cbn. intuition congruence.
Qed.

(** A change of the program point of [t] that leaves the number of
    served tickets alone and does not park [t]. *)
Lemma waiters_set s ap t p' :
  waiters_ok ts s ap ->
  (forall k, ap t <> PNotify k) ->
  (forall g current k, p' = PWait g current k -> current <> ticket_no g) ->
  (forall k, p' <> PSleep s k) ->
  waiters_ok ts s (set_pc ap t p').
Proof.
  intros (Hw & Hs) Hn Hp Hq. split.
  - intros x g cur k. unfold set_pc.
    destruct (Z.eqb_spec x t) as [->|_]; [apply Hp|apply Hw].
  - intros x k Hin. unfold set_pc at 1.
    destruct (Z.eqb_spec x t) as [->|_]; [intros E; exfalso; exact (Hq k E)|].
    intros E. destruct (Hs x k Hin E) as (u & k' & Hu & Eu).
    exists u, k'. split; [exact Hu|].
    unfold set_pc. destruct (Z.eqb_spec u t) as [->|_]; [|exact Eu].
    exfalso. exact (Hn k' Eu).
Qed.

Lemma step_keeps_waiters tr c ap lab c' :
  Inv tr c ap -> waiters_ok ts (length (releases tr)) ap ->
  step ts c lab c' ->
  exists ap',
    Inv (tr ++ [mkMoment c lab c']) c' ap' /\
    waiters_ok ts (length (releases (tr ++ [mkMoment c lab c']))) ap'.
Proof.
  intros H W (t & w & Hin & Hs).
  pose proof two_distinct as Hd. pose proof two_valid as Hv.
  pose proof (inv_threads H t) as Ht.
  pose proof Hs as Hs0.
  destruct (@sched_code ts t w c lab c' (ap t) (length (draws tr)) (inv_code H t) (inv_next H) Hs)
    as [(e & p' & -> & -> & Hmv & Hpool)
       |[(g & k & Hp & -> & -> & Hm & Hpool)
        |(k & Hp & -> & Hm & Hw)]].
  - (* a move of the program *)
    remember (ap t) as p eqn:Ep. remember (c_mem c') as m' eqn:Em.
    symmetry in Ep. symmetry in Em.
    destruct Hmv as [k|g k Hns|g k Hns|g cur k Hns|g cur k Hns|g k
                    |g cur k Hcur|g cur k Hcur|g k|g v k|g k];
      rewrite releases_snoc; cbn [release_of did]; rewrite ?app_nil_r.
    + exists (set_pc ap t (PDrawn (length (draws tr)) k)). split.
      * eapply inv_draw; eauto.
      * apply waiters_set; auto; congruence.
    + exists (set_pc ap t (PRead g k)). split.
      * eapply inv_enter; eauto; rewrite Ep; reflexivity.
      * apply waiters_set; auto; congruence.
    + exists (set_pc ap t (PWait g (_now_serving (c_mem c)) k)). split.
      * eapply inv_silent_one; eauto; try (rewrite Ep; reflexivity).
      * apply waiters_set; auto; congruence.
    + exists (set_pc ap t (PReload g k)). split.
      * eapply inv_silent_one; eauto; try (rewrite Ep; reflexivity).
      * apply waiters_set; auto; congruence.
    + exists (set_pc ap t (PSleep g k)). split.
      * eapply inv_silent_one; eauto; try (rewrite Ep; reflexivity).
      * apply waiters_set; auto; try congruence.
        intros k0 E. inversion E; subst g k0.
        apply (proj1 W t _ _ _ Ep).
        rewrite <- Hns. apply (inv_serving H).
    + exists (set_pc ap t (PTest g (_now_serving (c_mem c)) k)). split.
      * eapply inv_silent_one; eauto; try (rewrite Ep; reflexivity).
        cbn in *. split; [exact Ht|]. intros E.
        apply (@served_ticket ts iters Hd Hv tr c ap t g H); [rewrite Ep; reflexivity|exact E].
      * apply waiters_set; auto; congruence.
    + exists (set_pc ap t (PWait g cur k)). split.
      * eapply inv_silent_one; eauto; try (rewrite Ep; reflexivity).
        cbn in *. apply Ht.
      * apply waiters_set; auto; congruence.
    + exists (set_pc ap t (PRead g k)). split.
      * eapply inv_enter; eauto; try (rewrite Ep; reflexivity).
        cbn in Ht. destruct Ht as [_ Ht]. specialize (Ht Hcur). subst g cur.
        apply (inv_serving H).
      * apply waiters_set; auto; congruence.
    + exists (set_pc ap t (PWrite g (counter (c_mem c)) k)). split.
      * eapply inv_silent_one; eauto; try (rewrite Ep; reflexivity).
        cbn in *. intuition.
      * apply waiters_set; auto; congruence.
    + exists (set_pc ap t (PRelease g k)). split.
      * eapply inv_write; eauto.
      * apply waiters_set; auto; congruence.
    + exists (set_pc ap t (PNotify k)). split.
      * eapply inv_release with (g := g); eauto.
      * split.
        -- intros x g0 cur0 k0. unfold set_pc.
           destruct (Z.eqb_spec x t) as [->|_]; [discriminate|apply (proj1 W)].
        -- intros x k0 _ _. exists t, k. split; [exact Hin|].
           unfold set_pc. rewrite Z.eqb_refl. reflexivity.
  - (* a sleeper wakes up by itself *)
    rewrite releases_snoc; cbn [release_of did]; rewrite ?app_nil_r.
    exists (set_pc ap t (PReload g k)). split.
    + eapply inv_silent_one; eauto; try (rewrite Hp; reflexivity).
      rewrite Hp in Ht. exact Ht.
    + apply waiters_set; auto; congruence.
  - (* a notify *)
    rewrite releases_snoc; cbn [release_of did]; rewrite ?app_nil_r.
    destruct Hw as [(-> & Hpool)|(u & -> & Hsl & Hpool)].
    + exists (set_pc ap t (PIdle k)). split.
      * eapply inv_silent_one; eauto; try (rewrite Hp; reflexivity).
        exact I.
      * split.
        -- intros x g0 cur0 k0. unfold set_pc.
           destruct (Z.eqb_spec x t) as [->|_]; [discriminate|apply (proj1 W)].
        -- intros x k0 Hx. unfold set_pc at 1.
           destruct (Z.eqb_spec x t) as [->|_]; [discriminate|].
           intros E. exfalso.
           pose proof (@sched_notify_alone ts t c _ _ k
                         (eq_trans (inv_code H t) (f_equal code Hp)) Hs0 x Hx) as Sx.
           rewrite (inv_code H), E in Sx. discriminate.
    + rewrite (inv_code H) in Hsl, Hpool.
      destruct (@sleeping_code _ _ Hsl) as (g' & k' & Hu).
      rewrite Hu in Hpool.
      change (wake (code (PSleep g' k'))) with (code (PReload g' k')) in Hpool.
      assert (Hut : u <> t) by (intros ->; congruence).
      pose proof (sched_woken_in _ _ _ _ Hs0) as Huin.
      exists (set_pc (set_pc ap t (PIdle k)) u (PReload g' k')). split.
      * eapply inv_silent with (ap := ap); eauto; try (rewrite Hm; reflexivity).
        -- rewrite Hpool. apply upd_code. apply upd_code. apply (inv_code H).
        -- intros x. unfold set_pc.
           destruct (Z.eqb_spec x u) as [->|_]; [rewrite Hu; reflexivity|].
           destruct (Z.eqb_spec x t) as [->|_]; [rewrite Hp; reflexivity|reflexivity].
        -- intros x. unfold set_pc.
           destruct (Z.eqb_spec x u) as [->|_]; [rewrite Hu; reflexivity|].
           destruct (Z.eqb_spec x t) as [->|_]; [rewrite Hp; reflexivity|reflexivity].
        -- intros x. unfold set_pc.
           destruct (Z.eqb_spec x u) as [->|_]; [rewrite Hu; reflexivity|].
           destruct (Z.eqb_spec x t) as [->|_]; [rewrite Hp; reflexivity|reflexivity].
        -- intros x. unfold set_pc.
           destruct (Z.eqb_spec x u) as [->|_].
           ++ pose proof (inv_threads H u) as Ou. rewrite Hu in Ou. exact Ou.
           ++ destruct (Z.eqb_spec x t) as [->|_]; [exact I|apply (inv_threads H)].
      * split.
        -- intros x g0 cur0 k0. unfold set_pc.
           destruct (Z.eqb_spec x u) as [->|_]; [discriminate|].
           destruct (Z.eqb_spec x t) as [->|_]; [discriminate|apply (proj1 W)].
        -- intros x k0 Hx. unfold set_pc at 1.
           destruct (Z.eqb_spec x u) as [->|Hxu]; [discriminate|].
           unfold set_pc at 1.
           destruct (Z.eqb_spec x t) as [->|Hxt]; [discriminate|].
           intros _. exfalso.
           exact (only_two Hx Huin Hin Hxu Hxt Hut).
Qed.

Lemma exec_waiters tr c :
  exec ts (start iters) tr c ->
  exists ap, Inv tr c ap /\ waiters_ok ts (length (releases tr)) ap.
Proof.
  induction 1 as [|tr c lab c' _ (ap & IH & W) Hs].
  - exists (fun t => PIdle (iters t)). split.
    + apply inv_start.
    + split; intros; discriminate.
  - eapply step_keeps_waiters; eassumption.
Qed.

End TwoThreads.

(** X9.  Two threads, the case the lock is written for (lines 111-112),
    never get stuck: in every state an execution of the test reaches,
    either both threads have finished or one of them can take a step of
    its program, that is a step other than a parked thread resuming by
    itself.  So with two threads no parked thread is left waiting for a
    notify that does not come. *)
Theorem two_threads_never_stuck (a b : tid) (iters : tid -> nat)
  (Hab : a <> b) (Ha : valid_tid a) (Hb : valid_tid b)
  (tr : list moment) (c : config)
  (He : exec [a; b] (start iters) tr c) :
  all_finished [a; b] c \/
  exists lab c', step [a; b] c lab c' /\ acts lab = true.
Proof.
  destruct (@exec_waiters a b iters Hab Ha Hb tr c He) as (ap & H & W).
  assert (Hcase : forall t, In t [a; b] ->
            (exists lab c', step [a; b] c lab c' /\ acts lab = true) \/
            ap t = PIdle 0 \/ exists g k, ap t = PSleep g k).
  { intros t Hin. pose proof (inv_code H t) as Hc.
    destruct (ap t) as [[|k]|g k|g cur k|g k|g k|g cur k|g k|g v k|g k|k] eqn:E;
      try (left; apply (@acts_alone_step _ _ _ _ Hin Hc); reflexivity).
    - right. left. reflexivity.
    - right. right. eauto.
    - left. exact (@notify_step _ _ _ _ Hin Hc). }
  assert (Hina : In a [a; b]) by (left; reflexivity).
  assert (Hinb : In b [a; b]) by (right; left; reflexivity).
  destruct (Hcase a Hina) as [Sa|Pa]; [right; exact Sa|].
  destruct (Hcase b Hinb) as [Sb|Pb]; [right; exact Sb|].
  assert (Hno : forall u k, In u [a; b] -> ap u <> PNotify k).
  { intros u k [<-|[<-|[]]] E.
    - destruct Pa as [Pa|(g & k0 & Pa)]; congruence.
    - destruct Pb as [Pb|(g & k0 & Pb)]; congruence. }
  assert (Hserved : forall t k, In t [a; b] ->
            ap t <> PSleep (length (releases tr)) k).
  { intros t k Hin E. destruct (proj2 W t k Hin E) as (u & k' & Hu & Eu).
    exact (Hno u k' Hu Eu). }
  pose proof (inv_outstanding H) as Ho.
  unfold total in Ho. cbn [map list_sum] in Ho.
  pose proof (inv_threads H a) as Oa. pose proof (inv_threads H b) as Ob.
  destruct Pa as [Pa|(ga & ka & Pa)]; destruct Pb as [Pb|(gb & kb & Pb)];
    rewrite Pa, Pb in Ho; rewrite ?Pa in Oa; rewrite ?Pb in Ob;
    cbn in Ho, Oa, Ob.
  - left. intros t [<-|[<-|[]]]; rewrite (inv_code H); [rewrite Pa|rewrite Pb];
      reflexivity.
  - exfalso. apply (Hserved b kb Hinb).
    replace (length (releases tr)) with gb by lia. exact Pb.
  - exfalso. apply (Hserved a ka Hina).
    replace (length (releases tr)) with ga by lia. exact Pa.
  - exfalso.
    destruct (Nat.eq_dec ga (length (releases tr))) as [E|E].
    + apply (Hserved a ka Hina). rewrite <- E. exact Pa.
    + destruct (Nat.eq_dec gb (length (releases tr))) as [E'|E'].
      * apply (Hserved b kb Hinb). rewrite <- E'. exact Pb.
      * assert (ga = gb) by lia. subst gb.
        destruct Oa as [_ Oa]. destruct Ob as [_ Ob]. congruence.
Qed.

Lemma two_threads_never_stuck_witness :
  exists tr c,
    1 <> 2 /\ valid_tid 1 /\ valid_tid 2 /\
    exec [1; 2] (start (fun _ => 1%nat)) tr c /\
    (all_finished [1; 2] c \/
     exists lab c', step [1; 2] c lab c' /\ acts lab = true).
Proof.
  assert (Hab : 1 <> 2) by discriminate.
  assert (Ha : valid_tid 1) by (unfold valid_tid; lia).
  assert (Hb : valid_tid 2) by (unfold valid_tid; lia).
  destruct (run [1; 2] (firstn 5 two_threads) (start (fun _ => 1%nat)))
    as [[tr c]|] eqn:E.
  - exists tr, c. split; [exact Hab|]. split; [exact Ha|]. split; [exact Hb|].
    pose proof (run_exec _ _ _ E) as He. split; [exact He|].
    exact (two_threads_never_stuck Hab Ha Hb He).
  - vm_compute in E. discriminate.
Defined.

(** * The recursive lock under contention *)

Tactic Notation "unfold_points" "in" hyp(H) :=
  unfold rcode, inner, in_lock, in_destroy, in_pause, in_unlock,
    rest_A, rest_B, rest_C, rest_E, incr, addv, set_owner, slow_loop, reload,
    bump, pause,
    recursive_ticket_lock.lock, recursive_ticket_lock.unlock,
    recursive_ticket_lock.suspend, recursive_ticket_lock.destroy,
    ticket_lock.lock, ticket_lock.unlock, ticket_lock._lockSlow, do_while,
    perform, perform_ in H.

Ltac unfold_points_goal :=
  unfold rcode, inner, in_lock, in_destroy, in_pause, in_unlock,
    rest_A, rest_B, rest_C, rest_E, incr, addv, set_owner, slow_loop, reload,
    bump, pause,
    recursive_ticket_lock.lock, recursive_ticket_lock.unlock,
    recursive_ticket_lock.suspend, recursive_ticket_lock.destroy,
    ticket_lock.lock, ticket_lock.unlock, ticket_lock._lockSlow, do_while,
    perform, perform_.

Ltac split_point :=
  match goal with
  | |- _ = upd _ _ (rcode _ _ (if ?b then _ else _)) => destruct b
  end.

Lemma sched_rcode d0 ts t w c lab c' p i :
  valid_tid t ->
  c_pool c t = rcode d0 t p ->
  _next_ticket (c_mem c) = ticket_no i ->
  sched ts t w c = Some (lab, c') ->
  (exists e m' p',
      rnext d0 t i (c_mem c) p = Some (e, m', p') /\
      w = None /\ lab = Did t e /\ c_mem c' = m' /\
      c_pool c' = upd (c_pool c) t (rcode d0 t p')) \/
  (exists g x,
      p = QSleep g x /\ w = None /\ lab = WokeUp t /\ c_mem c' = c_mem c /\
      c_pool c' = upd (c_pool c) t (rcode d0 t (QReload g x))) \/
  (exists p',
      after_notify p = Some p' /\
      lab = Did t (Ev (atomic_notify_one l_now_serving) 0) /\
      c_mem c' = c_mem c /\
      ((w = None /\
        (forall u, In u ts -> sleeping_on l_now_serving (c_pool c u) = false) /\
        c_pool c' = upd (c_pool c) t (rcode d0 t p')) \/
       (exists u, w = Some u /\ In u ts /\
                  sleeping_on l_now_serving (c_pool c u) = true /\
                  c_pool c' = upd (upd (c_pool c) t (rcode d0 t p')) u
                                  (wake (c_pool c u))))).
Proof.
  intros Hv Hc Hn Hs.
  assert (Ht0 : (t =? 0) = false).
  { apply Z.eqb_neq. apply valid_tid_nonzero. exact Hv. }
  unfold sched in Hs. rewrite Hc in Hs.
  destruct c as [m pool]. cbn [c_mem c_pool] in *.
  destruct p as [[|k]|h r k|x|g x|g cur x|g x|g x|g cur x|x|h r k|h v [|r] k
                |k|v k|k|k|v k|v k|v k|v k|v k|v k|v r0 k|k|v k
                |n k|[|n] v k|n k|n k|[|n] k];
    try (destruct x as [r k|v k]);
    unfold_points in Hs; cbn [s_owner s_recursion] in Hs; rewrite ?Ht0 in Hs;
    cbn -[wrap32 Z.add Z.sub Z.eqb ticket_no existsb sleeping_on
          nested lock_n unlock_n] in Hs;
    try discriminate.
  all: try (destruct w; [discriminate|]; inversion Hs; subst; clear Hs;
            left; eexists; eexists; eexists;
            split; [reflexivity|]; split; [reflexivity|]; split; [reflexivity|];
            split; [reflexivity|];
            cbn [c_mem c_pool]; rewrite ?Hn;
            first [reflexivity|split_point; reflexivity]).
  all: try (destruct w; [discriminate|]; inversion Hs; subst; clear Hs;
            right; left; eexists; eexists;
            split; [reflexivity|]; split; [reflexivity|]; split; [reflexivity|];
            split; reflexivity).
  all: right; right; eexists; (split; [reflexivity|]); destruct w as [u|].
  all: try (destruct (existsb (Z.eqb u) ts) eqn:Eu; [|discriminate];
            destruct (sleeping_on l_now_serving (pool u)) eqn:Su; [|discriminate];
            inversion Hs; subst; clear Hs;
            split; [reflexivity|]; split; [reflexivity|];
            right; exists u; split; [reflexivity|];
            split;
            [apply existsb_exists in Eu; destruct Eu as (y & Hy & Ey);
             apply Z.eqb_eq in Ey; subst y; exact Hy|];
            split; [exact Su|reflexivity]).
  all: destruct (existsb (fun u => sleeping_on l_now_serving (pool u)) ts) eqn:E;
    [discriminate|];
    inversion Hs; subst; clear Hs;
    split; [reflexivity|]; split; [reflexivity|];
    left; split; [reflexivity|]; split; [|reflexivity];
    intros u Hu; destruct (sleeping_on l_now_serving (pool u)) eqn:Su;
    [|reflexivity];
    assert (E' : existsb (fun u => sleeping_on l_now_serving (pool u)) ts = true)
      by (apply existsb_exists; exists u; split; assumption);
    congruence.
Qed.

(** ** Sums over the threads *)

Lemma total_change (F G : tid -> nat) t ts :
  NoDup ts -> In t ts -> (forall u, u <> t -> F u = G u) ->
  (total F ts + G t)%nat = (total G ts + F t)%nat.
Proof.
  induction ts as [|a ts IH]; intros Hnd Hin HFG; [destruct Hin|].
  inversion Hnd as [|? ? Hna Hnd']; subst. rewrite !total_cons.
  destruct Hin as [->|Hin].
  - assert (E : total F ts = total G ts).
    { apply total_ext. intros u Hu. apply HFG. intros ->. contradiction. }
    rewrite E. lia.
  - specialize (IH Hnd' Hin HFG).
    assert (a <> t) by (intros ->; contradiction).
    rewrite (HFG a) by assumption. lia.
Qed.

Lemma total_ge (F : tid -> nat) t ts : In t ts -> (F t <= total F ts)%nat.
Proof.
  induction ts as [|a ts IH]; intros Hin; [destruct Hin|].
  rewrite total_cons. destruct Hin as [->|Hin]; [lia|].
  specialize (IH Hin). lia.
Qed.

Lemma set_rpc_same ap t p : set_rpc ap t p t = p.
Proof. unfold set_rpc. rewrite Z.eqb_refl. reflexivity. Qed.

Lemma set_rpc_other ap t p u : u <> t -> set_rpc ap t p u = ap u.
Proof. unfold set_rpc. intros H. destruct (Z.eqb_spec u t); congruence. Qed.

Lemma outstanding_le p : (outstanding p <= 1)%nat.
Proof.
  unfold outstanding. destruct (waiting p); [lia|]. destruct (holds p); lia.
Qed.

(** ** What the program points tell *)

Lemma finished_rcode d0 t p : finished (rcode d0 t p) = true -> p = QIdle 0.
Proof.
  destruct p as [[|k]|h r k|x|g x|g cur x|g x|g x|g cur x|x|h r k|h v r k
                |k|v k|k|k|v k|v k|v k|v k|v k|v k|v r0 k|k|v k
                |n k|n v k|n k|n k|n k];
    try (destruct x as [r k|v k]); cbn; try discriminate; try reflexivity.
  unfold in_destroy, recursive_ticket_lock.destroy; cbn.
  destruct (t =? 0); cbn; discriminate.
Qed.

Lemma in_cs_rcode d0 t p :
  valid_tid t ->
  in_cs (rcode d0 t p) = true ->
  exists k, p = C1Read k \/ (exists v, p = C1Write v k) \/
            p = C2Read k \/ (exists v, p = C2Write v k).
Proof.
  intros Hv.
  assert (Ht0 : (t =? 0) = false).
  { apply Z.eqb_neq. apply valid_tid_nonzero. exact Hv. }
  destruct p as [[|k]|h r k|x|g x|g cur x|g x|g x|g cur x|x|h r k|h v r k
                |k|v k|k|k|v k|v k|v k|v k|v k|v k|v r0 k|k|v k
                |n k|n v k|n k|n k|n k];
    try (destruct x as [r k|v k]); cbn; try discriminate; eauto 6.
  unfold in_destroy, recursive_ticket_lock.destroy; cbn.
  rewrite Ht0. cbn. discriminate.
Qed.

Lemma sleeping_rcode d0 t l p :
  sleeping_on l (rcode d0 t p) = true -> exists g x, p = QSleep g x.
Proof.
  destruct p; cbn; try discriminate. eauto.
Qed.

(** The facts of a thread that does not hold the lock do not depend on
    the memory. *)
Lemma local_ok_free d0 m m' s t p :
  holds p = false -> local_ok d0 m s t p -> local_ok d0 m' s t p.
Proof.
  destruct p; cbn; try discriminate; auto.
Qed.

(** A release leaves the facts of the threads behind the holder. *)
Lemma local_ok_next d0 m m' s t p :
  holds p = false -> (forall g, waiting p = Some g -> (s < g)%nat) ->
  local_ok d0 m s t p -> local_ok d0 m' (S s) t p.
Proof.
  destruct p; cbn; try discriminate; auto.
  intros _ Hg [Hx Hs]. split; [exact Hx|].
  intros E. specialize (Hs E). specialize (Hg _ eq_refl). lia.
Qed.

(** The facts of the holder depend on three cells. *)
Lemma local_ok_same d0 m m' s t p :
  _owner m' = _owner m -> _recursion m' = _recursion m ->
  counter m' = counter m ->
  local_ok d0 m s t p -> local_ok d0 m' s t p.
Proof.
  intros Eo Er Ec. destruct p; cbn; rewrite ?Eo, ?Er, ?Ec; auto.
Qed.

(** ** The invariant is kept *)

Section NestedInvariant.

Variable d0 : nat.
Variable ts : list tid.
Variable K : nat.
Hypothesis ts_distinct : NoDup ts.
Hypothesis ts_valid : Forall valid_tid ts.
Hypothesis depth_small : Z.of_nat (S d0) < 2 ^ 32.

Local Abbreviation NInv := (nested_inv d0 ts K).

Lemma valid_in t : In t ts -> valid_tid t.
Proof.
  intros H. rewrite Forall_forall in ts_valid. apply ts_valid, H.
Qed.

Lemma nested_inv_start :
  NInv (nested_start (S d0) K) 0 0 0 None (fun _ => QIdle K).
Proof.
  constructor; cbn; auto; try discriminate.
  symmetry. apply total_zero. reflexivity.
Qed.

(** One thread moves to a new program point. *)
Lemma ni_update c s i done hd ap t p' c' s' i' done' hd' :
  NInv c s i done hd ap -> In t ts ->
  c_pool c' = upd (c_pool c) t (rcode d0 t p') ->
  _next_ticket (c_mem c') = ticket_no i' ->
  _now_serving (c_mem c') = ticket_no s' ->
  (i' + s + outstanding (ap t) = i + s' + outstanding p')%nat ->
  (done' + bumps_left p' = done + bumps_left (ap t))%nat ->
  counter (c_mem c') = Z.of_nat done' ->
  (forall g, waiting p' = Some g -> (s' <= g < i')%nat) ->
  (forall u g, u <> t -> waiting (ap u) = Some g -> (s' <= g < i')%nat) ->
  (forall u g, u <> t -> waiting p' = Some g -> waiting (ap u) = Some g -> False) ->
  (holds p' = true -> hd' = Some t) ->
  (forall u, u <> t -> holds (ap u) = true -> hd' = Some u) ->
  match hd' with
  | Some u =>
      holds (set_rpc ap t p' u) = true /\
      forall v g, waiting (set_rpc ap t p' v) = Some g -> (s' < g)%nat
  | None => _owner (c_mem c') = 0 /\ _recursion (c_mem c') = 0
  end ->
  local_ok d0 (c_mem c') s' t p' ->
  (forall u, u <> t -> local_ok d0 (c_mem c') s' u (ap u)) ->
  NInv c' s' i' done' hd' (set_rpc ap t p').
Proof.
  intros H Hin Hpool Hn Hs Hcount Hbumps Hcnt Htk Htk' Hdis Hh Hh' Hheld Hloc Hloc'.
  constructor.
  - intros u. rewrite Hpool. unfold upd, set_rpc.
    destruct (Z.eqb_spec u t) as [->|_]; [reflexivity|apply (ni_code H)].
  - exact Hn.
  - exact Hs.
  - pose proof (ni_count H) as Hc.
    pose proof (@total_change (fun u => outstanding (set_rpc ap t p' u))
                  (fun u => outstanding (ap u)) t ts ts_distinct Hin) as E.
    cbn beta in E. rewrite set_rpc_same in E.
    assert (E' : (total (fun u => outstanding (set_rpc ap t p' u)) ts +
                  outstanding (ap t) =
                  total (fun u => outstanding (ap u)) ts + outstanding p')%nat).
    { apply E. intros u Hu. rewrite set_rpc_other by exact Hu. reflexivity. }
    lia.
  - pose proof (ni_bumps H) as Hb.
    pose proof (@total_change (fun u => bumps_left (set_rpc ap t p' u))
                  (fun u => bumps_left (ap u)) t ts ts_distinct Hin) as E.
    cbn beta in E. rewrite set_rpc_same in E.
    assert (E' : (total (fun u => bumps_left (set_rpc ap t p' u)) ts +
                  bumps_left (ap t) =
                  total (fun u => bumps_left (ap u)) ts + bumps_left p')%nat).
    { apply E. intros u Hu. rewrite set_rpc_other by exact Hu. reflexivity. }
    lia.
  - exact Hcnt.
  - intros u Hu. rewrite set_rpc_other; [apply (ni_outside H), Hu|].
    intros ->. contradiction.
  - intros u g. unfold set_rpc. destruct (Z.eqb_spec u t) as [->|Hu];
      [apply Htk|apply Htk', Hu].
  - intros u v g. unfold set_rpc.
    destruct (Z.eqb_spec u t) as [->|Hu]; destruct (Z.eqb_spec v t) as [->|Hv];
      intros E1 E2.
    + reflexivity.
    + exfalso. exact (Hdis v g Hv E1 E2).
    + exfalso. exact (Hdis u g Hu E2 E1).
    + exact (ni_distinct H _ _ E1 E2).
  - intros u. unfold set_rpc. destruct (Z.eqb_spec u t) as [->|Hu];
      [apply Hh|apply Hh', Hu].
  - exact Hheld.
  - intros u. unfold set_rpc. destruct (Z.eqb_spec u t) as [->|Hu];
      [exact Hloc|apply Hloc', Hu].
Qed.

Lemma holds_not_waiting p : holds p = true -> waiting p = None.
Proof. destruct p; cbn; intros; try discriminate; reflexivity. Qed.

Lemma holder_owner m s u p :
  holds p = true -> local_ok d0 m s u p -> _owner m = u \/ _owner m = 0.
Proof.
  destruct p; cbn; try discriminate; intros _ H; intuition.
Qed.

Lemma holder_in c s i done hd ap u :
  NInv c s i done hd ap -> holds (ap u) = true -> In u ts.
Proof.
  intros H Hu. destruct (in_dec Z.eq_dec u ts) as [Hin|Hin]; [exact Hin|].
  rewrite (ni_outside H u Hin) in Hu. discriminate.
Qed.

(** Tickets outstanding are fewer than [2^32]. *)
Lemma nested_outstanding_small c s i done hd ap :
  NInv c s i done hd ap -> Z.of_nat i - Z.of_nat s < 2 ^ 32.
Proof.
  intros H. pose proof (ni_count H) as Hc.
  pose proof (@total_le_length (fun t => outstanding (ap t)) ts
                (fun u => outstanding_le (ap u))) as Hle.
  pose proof (threads_bounded ts_distinct ts_valid) as Hb.
  unfold tid in *. lia.
Qed.

Lemma nested_served c s i done hd ap t g :
  NInv c s i done hd ap -> waiting (ap t) = Some g ->
  _now_serving (c_mem c) = ticket_no g -> g = s.
Proof.
  intros H Hw En.
  pose proof (ni_tickets H _ Hw) as Hr.
  pose proof (@nested_outstanding_small _ _ _ _ _ _ H) as Hs.
  rewrite (ni_serving H) in En.
  apply ticket_no_close; [lia|lia|congruence].
Qed.

(** A thread that does not hold the lock is not its owner. *)
Lemma not_mine c s i done hd ap t :
  NInv c s i done hd ap -> In t ts -> holds (ap t) = false ->
  _owner (c_mem c) <> t.
Proof.
  intros H Hin Ht E.
  pose proof (valid_tid_nonzero (@valid_in t Hin)) as Hnz.
  pose proof (ni_held H) as Hh. destruct hd as [u|].
  - destruct Hh as [Hu _].
    destruct (@holder_owner _ _ _ _ Hu (ni_local H u)) as [Eo|Eo].
    + assert (u = t) by congruence. subst u. congruence.
    + congruence.
  - destruct Hh as [Eo _]. congruence.
Qed.

Lemma ni_quiet c s i done hd ap t p' c' :
  NInv c s i done hd ap -> In t ts ->
  c_mem c' = c_mem c ->
  c_pool c' = upd (c_pool c) t (rcode d0 t p') ->
  holds (ap t) = false -> holds p' = false ->
  waiting p' = waiting (ap t) -> bumps_left p' = bumps_left (ap t) ->
  local_ok d0 (c_mem c) s t p' ->
  NInv c' s i done hd (set_rpc ap t p').
Proof.
  intros H Hin Hm Hpool Hh Hh' Hw Hb Hloc.
  apply ni_update with (c := c) (s := s) (i := i) (done := done) (hd := hd);
    [exact H|exact Hin|exact Hpool| | | | | | | | | | | | |]; rewrite ?Hm.
  - apply (ni_next H).
  - apply (ni_serving H).
  - unfold outstanding. rewrite Hw, Hh, Hh'. lia.
  - lia.
  - apply (ni_counter H).
  - intros g Hg. rewrite Hw in Hg. apply (ni_tickets H _ Hg).
  - intros u g _ Hg. apply (ni_tickets H _ Hg).
  - intros u g Hu Hg Hg'. rewrite Hw in Hg. apply Hu.
    exact (ni_distinct H _ _ Hg' Hg).
  - congruence.
  - intros u _ Hu. apply (ni_holder H _ Hu).
  - pose proof (ni_held H) as Hheld. destruct hd as [u|]; [|exact Hheld].
    destruct Hheld as [Hu Hbehind]. split.
    + rewrite set_rpc_other; [exact Hu|]. intros ->. congruence.
    + intros v g. unfold set_rpc. destruct (Z.eqb_spec v t) as [->|_].
      * rewrite Hw. apply Hbehind.
      * apply Hbehind.
  - exact Hloc.
  - intros u _. apply (ni_local H).
Qed.

Lemma ni_draw c s i done hd ap t x c' :
  NInv c s i done hd ap -> In t ts -> ap t = QDraw x ->
  c_mem c' = wr l_next_ticket (_next_ticket (c_mem c) + 1) (c_mem c) ->
  c_pool c' = upd (c_pool c) t (rcode d0 t (QDrawn i x)) ->
  NInv c' s (S i) done hd (set_rpc ap t (QDrawn i x)).
Proof.
  intros H Hin Hp Hm Hpool.
  pose proof (ni_count H) as Hc.
  pose proof (ni_local H t) as Hl. rewrite Hp in Hl.
  apply ni_update with (c := c) (s := s) (i := i) (done := done) (hd := hd);
    [exact H|exact Hin|exact Hpool| | | | | | | | | | | | |];
    rewrite ?Hm, ?Hp; cbn [waiting outstanding holds bumps_left local_ok].
  - cbn. rewrite (ni_next H). apply ticket_no_succ.
  - cbn. apply (ni_serving H).
  - lia.
  - lia.
  - cbn. apply (ni_counter H).
  - intros g E. inversion E; subst. lia.
  - intros u g _ Hg. pose proof (ni_tickets H _ Hg). lia.
  - intros u g _ E Hg. inversion E; subst.
    pose proof (ni_tickets H _ Hg). lia.
  - discriminate.
  - intros u _ Hu. apply (ni_holder H _ Hu).
  - pose proof (ni_held H) as Hheld. destruct hd as [u|].
    + destruct Hheld as [Hu Hbehind].
      assert (Hut : u <> t) by (intros ->; rewrite Hp in Hu; discriminate).
      split; [rewrite set_rpc_other by exact Hut; exact Hu|].
      intros v g. unfold set_rpc. destruct (Z.eqb_spec v t) as [->|_].
      * intros E. inversion E; subst.
        pose proof (@total_ge (fun t => outstanding (ap t)) u ts
                      (@holder_in _ _ _ _ _ _ _ H Hu)) as Hge.
        cbn beta in Hge. unfold outstanding at 1 in Hge.
        rewrite (@holds_not_waiting _ Hu), Hu in Hge. lia.
      * apply Hbehind.
    + cbn. exact Hheld.
  - exact Hl.
  - intros u _. apply local_ok_same with (m := c_mem c); try reflexivity.
    apply (ni_local H).
Qed.

Lemma ni_enter c s i done hd ap t g x c' :
  NInv c s i done hd ap -> In t ts ->
  waiting (ap t) = Some g -> holds (ap t) = false ->
  bumps_left (ap t) = ctx_bumps x -> ctx_ok d0 x ->
  _now_serving (c_mem c) = ticket_no g ->
  c_mem c' = c_mem c ->
  c_pool c' = upd (c_pool c) t (rcode d0 t (QOwn x)) ->
  NInv c' s i done (Some t) (set_rpc ap t (QOwn x)).
Proof.
  intros H Hin Hw Hh Hb Hx Hns Hm Hpool.
  pose proof (@nested_served _ _ _ _ _ _ _ _ H Hw Hns) as Eg. subst g.
  pose proof (ni_held H) as Hheld.
  assert (Hfree : hd = None).
  { destruct hd as [u|]; [|reflexivity]. destruct Hheld as [_ Hbehind].
    specialize (Hbehind _ _ Hw). lia. }
  subst hd. destruct Hheld as [Eo Er].
  apply ni_update with (c := c) (s := s) (i := i) (done := done) (hd := None);
    [exact H|exact Hin|exact Hpool| | | | | | | | | | | | |];
    rewrite ?Hm; cbn [waiting outstanding holds bumps_left local_ok].
  - apply (ni_next H).
  - apply (ni_serving H).
  - unfold outstanding. rewrite Hw. lia.
  - lia.
  - apply (ni_counter H).
  - discriminate.
  - intros u g _ Hg. apply (ni_tickets H _ Hg).
  - discriminate.
  - reflexivity.
  - intros u _ Hu. pose proof (ni_holder H _ Hu). discriminate.
  - split; [rewrite set_rpc_same; reflexivity|].
    intros v g. unfold set_rpc. destruct (Z.eqb_spec v t) as [->|Hv];
      [discriminate|].
    intros Hg. pose proof (ni_tickets H _ Hg) as Hr.
    assert (g <> s).
    { intros ->. apply Hv. exact (ni_distinct H _ _ Hg Hw). }
    lia.
  - auto.
  - intros u _. apply (ni_local H).
Qed.

Lemma ni_hold c s i done hd ap t p' c' done' :
  NInv c s i done hd ap -> In t ts ->
  holds (ap t) = true -> holds p' = true ->
  _next_ticket (c_mem c') = _next_ticket (c_mem c) ->
  _now_serving (c_mem c') = _now_serving (c_mem c) ->
  counter (c_mem c') = Z.of_nat done' ->
  (done' + bumps_left p' = done + bumps_left (ap t))%nat ->
  c_pool c' = upd (c_pool c) t (rcode d0 t p') ->
  local_ok d0 (c_mem c') s t p' ->
  NInv c' s i done' hd (set_rpc ap t p').
Proof.
  intros H Hin Hh Hh' Hn Hs Hcnt Hb Hpool Hloc.
  pose proof (ni_holder H _ Hh) as Ehd. subst hd.
  pose proof (ni_held H) as [_ Hbehind].
  assert (Hothers : forall u, u <> t -> holds (ap u) = false).
  { intros u Hu. destruct (holds (ap u)) eqn:E; [|reflexivity].
    pose proof (ni_holder H _ E). congruence. }
  apply ni_update with (c := c) (s := s) (i := i) (done := done) (hd := Some t);
    [exact H|exact Hin|exact Hpool| | | | | | | | | | | | |]; rewrite ?Hn, ?Hs.
  - apply (ni_next H).
  - apply (ni_serving H).
  - unfold outstanding.
    rewrite (@holds_not_waiting _ Hh), (@holds_not_waiting _ Hh'), Hh, Hh'. lia.
  - lia.
  - exact Hcnt.
  - rewrite (@holds_not_waiting _ Hh'). discriminate.
  - intros u g _ Hg. apply (ni_tickets H _ Hg).
  - rewrite (@holds_not_waiting _ Hh'). discriminate.
  - reflexivity.
  - intros u Hu E. rewrite (Hothers u Hu) in E. discriminate.
  - split; [rewrite set_rpc_same; exact Hh'|].
    intros v g. unfold set_rpc. destruct (Z.eqb_spec v t) as [->|_].
    + rewrite (@holds_not_waiting _ Hh'). discriminate.
    + apply Hbehind.
  - exact Hloc.
  - intros u Hu. apply local_ok_free with (m := c_mem c);
      [apply Hothers, Hu|apply (ni_local H)].
Qed.

Lemma ni_release c s i done hd ap t p' c' :
  NInv c s i done hd ap -> In t ts ->
  holds (ap t) = true -> holds p' = false -> waiting p' = None ->
  bumps_left p' = bumps_left (ap t) ->
  _owner (c_mem c) = 0 -> _recursion (c_mem c) = 0 ->
  c_mem c' = wr l_now_serving (_now_serving (c_mem c) + 1) (c_mem c) ->
  c_pool c' = upd (c_pool c) t (rcode d0 t p') ->
  local_ok d0 (c_mem c') (S s) t p' ->
  NInv c' (S s) i done None (set_rpc ap t p').
Proof.
  intros H Hin Hh Hh' Hw' Hb Eo Er Hm Hpool Hloc.
  pose proof (ni_holder H _ Hh) as Ehd. subst hd.
  pose proof (ni_held H) as [_ Hbehind].
  assert (Hothers : forall u, u <> t -> holds (ap u) = false).
  { intros u Hu. destruct (holds (ap u)) eqn:E; [|reflexivity].
    pose proof (ni_holder H _ E). congruence. }
  pose proof (ni_count H) as Hc.
  pose proof (@total_ge (fun t => outstanding (ap t)) t ts Hin) as Hge.
  cbn beta in Hge. unfold outstanding at 1 in Hge.
  rewrite (@holds_not_waiting _ Hh), Hh in Hge.
  apply ni_update with (c := c) (s := s) (i := i) (done := done) (hd := Some t);
    [exact H|exact Hin|exact Hpool| | | | | | | | | | | | |]; rewrite ?Hm.
  - cbn. apply (ni_next H).
  - cbn. rewrite (ni_serving H). apply ticket_no_succ.
  - unfold outstanding. rewrite (@holds_not_waiting _ Hh), Hw', Hh, Hh'. lia.
  - lia.
  - cbn. apply (ni_counter H).
  - rewrite Hw'. discriminate.
  - intros u g _ Hg. pose proof (ni_tickets H _ Hg). specialize (Hbehind _ _ Hg). lia.
  - rewrite Hw'. discriminate.
  - congruence.
  - intros u Hu E. rewrite (Hothers u Hu) in E. discriminate.
  - cbn. auto.
  - rewrite <- Hm. exact Hloc.
  - intros u Hu. apply local_ok_next with (m := c_mem c).
    + apply Hothers, Hu.
    + intros g Hg. apply (Hbehind _ _ Hg).
    + apply (ni_local H).
Qed.

Lemma wrap_depth n : (n <= S d0)%nat -> wrap32 (Z.of_nat n) = Z.of_nat n.
Proof.
  intros Hn. apply wrap32_small. lia.
Qed.

Ltac quiet_step H Hin Hm Hpool Ep :=
  eexists _, _, _, _, _; eapply ni_quiet;
  [exact H|exact Hin|exact Hm|exact Hpool
  |rewrite Ep; reflexivity|reflexivity
  |rewrite Ep; reflexivity|rewrite Ep; cbn; lia|].

Ltac hold_with dn H Hin Hm Hpool Ep :=
  match type of Hpool with
  | _ = upd _ _ (rcode _ _ ?p) =>
      eexists _, _, dn, _, _; eapply ni_hold with (p' := p);
      [exact H|exact Hin|rewrite Ep; reflexivity|reflexivity
      |rewrite Hm; reflexivity|rewrite Hm; reflexivity
      |rewrite Hm; cbn [wr counter]| |exact Hpool
      |rewrite Hm;
       cbn [wr _owner _recursion counter _next_ticket _now_serving local_ok]]
  end.

Ltac hold_step H Hin Hm Hpool Ep :=
  match type of H with
  | nested_inv _ _ _ _ _ _ ?dn _ _ => hold_with dn H Hin Hm Hpool Ep
  end.

Lemma nested_step c s i done hd ap lab c' :
  NInv c s i done hd ap -> step ts c lab c' ->
  exists s' i' done' hd' ap', NInv c' s' i' done' hd' ap'.
Proof.
  intros H (t & w & Hin & Hs).
  pose proof (@valid_in t Hin) as Hv.
  pose proof (valid_tid_wrap Hv) as Hwt.
  pose proof (ni_local H t) as Hl.
  destruct (@sched_rcode d0 ts t w c lab c' (ap t) i Hv (ni_code H t) (ni_next H) Hs)
    as [(e & m' & p' & Hn & -> & -> & Hm & Hpool)
       |[(g & x & Ep & -> & -> & Hm & Hpool)
        |(p' & Hn & -> & Hm & Hw)]].
  - (* a step of the program *)
    rewrite <- Hm in Hn. clear Hm.
    destruct (ap t) as [[|k]|h r k|x|g x|g cur x|g x|g x|g cur x|x|h r k|h v r k
                |k|v k|k|k|v k|v k|v k|v k|v k|v k|v r0 k|k|v k
                |n k|n v k|n k|n k|n k] eqn:Ep;
      cbn [rnext] in Hn; try discriminate;
      injection Hn as He Hm Hp'; symmetry in Hm; subst e p';
      cbn [local_ok] in Hl.
    + (* QIdle *)
      pose proof (@not_mine c s i done hd ap t H Hin) as Hne.
      rewrite Ep in Hne. specialize (Hne eq_refl).
      apply Z.eqb_neq in Hne. rewrite Hne in Hpool.
      quiet_step H Hin Hm Hpool Ep. reflexivity.
    + (* LLoad *)
      destruct Hl as (Hhr & Eo & Er).
      rewrite Eo, Z.eqb_refl in Hpool.
      hold_step H Hin Hm Hpool Ep.
      * apply (ni_counter H).
      * rewrite Ep. cbn. lia.
      * auto.
    + (* QDraw *)
      eexists _, _, _, _, _. eapply ni_draw; eauto.
    + (* QDrawn *)
      destruct (Z.eqb_spec (ticket_no g) (_now_serving (c_mem c))) as [E|E].
      * eexists _, _, _, _, _.
        eapply ni_enter with (g := g); eauto; rewrite Ep; reflexivity.
      * quiet_step H Hin Hm Hpool Ep. exact Hl.
    + (* QWait *)
      destruct (_now_serving (c_mem c) =? cur);
        quiet_step H Hin Hm Hpool Ep; exact Hl.
    + (* QReload *)
      quiet_step H Hin Hm Hpool Ep. split; [exact Hl|].
      intros E. apply (@nested_served c s i done hd ap t g H);
        [rewrite Ep; reflexivity|exact E].
    + (* QTest *)
      destruct Hl as (Hx & Hg).
      destruct (Z.eqb_spec cur (ticket_no g)) as [E|E].
      * specialize (Hg E). subst g.
        eexists _, _, _, _, _.
        eapply ni_enter with (g := s); eauto; try (rewrite Ep; reflexivity).
        apply (ni_serving H).
      * quiet_step H Hin Hm Hpool Ep. exact Hx.
    + (* QOwn *)
      destruct Hl as (Hx & Eo & Er).
      destruct x as [r k|v k]; cbn [ctx_ok] in Hx; subst.
      * hold_step H Hin Hm Hpool Ep.
        -- apply (ni_counter H).
        -- rewrite Ep. cbn. lia.
        -- auto.
      * hold_step H Hin Hm Hpool Ep.
        -- apply (ni_counter H).
        -- rewrite Ep. cbn. lia.
        -- auto.
    + (* LRead *)
      destruct Hl as (Hhr & Eo & Er).
      hold_step H Hin Hm Hpool Ep.
      * apply (ni_counter H).
      * rewrite Ep. cbn. lia.
      * auto.
    + (* LWrite *)
      destruct Hl as (Hhr & Eo & Er & Ev). subst v.
      assert (Ew : wrap32 (Z.of_nat h + 1) = Z.of_nat (S h)).
      { rewrite <- (@wrap_depth (S h)) by lia. f_equal. lia. }
      destruct r as [|r]; cbn [after_lock] in Hpool |- *.
      * hold_step H Hin Hm Hpool Ep.
        -- apply (ni_counter H).
        -- rewrite Ep. cbn. lia.
        -- rewrite Ew. split; [exact Eo|]. f_equal. lia.
      * hold_step H Hin Hm Hpool Ep.
        -- apply (ni_counter H).
        -- rewrite Ep. cbn. lia.
        -- rewrite Ew. split; [lia|]. auto.
    + (* C1Read *)
      hold_step H Hin Hm Hpool Ep.
      * apply (ni_counter H).
      * rewrite Ep. cbn. lia.
      * intuition.
    + (* C1Write *)
      destruct Hl as (Eo & Er & Ev).
      hold_with (S done) H Hin Hm Hpool Ep.
      * rewrite Ev, (ni_counter H). lia.
      * rewrite Ep. cbn. lia.
      * auto.
    + (* SLoad *)
      destruct Hl as (Eo & Er).
      rewrite Eo, Z.eqb_refl in Hpool.
      hold_step H Hin Hm Hpool Ep.
      * apply (ni_counter H).
      * rewrite Ep. cbn. lia.
      * auto.
    + (* SRead *)
      destruct Hl as (Eo & Er).
      hold_step H Hin Hm Hpool Ep.
      * apply (ni_counter H).
      * rewrite Ep. cbn. lia.
      * auto.
    + (* SStore *)
      destruct Hl as (Eo & Er & Ev).
      hold_step H Hin Hm Hpool Ep.
      * apply (ni_counter H).
      * rewrite Ep. cbn. lia.
      * auto.
    + (* SWrite *)
      destruct Hl as (Eo & Er & Ev).
      hold_step H Hin Hm Hpool Ep.
      * apply (ni_counter H).
      * rewrite Ep. cbn. lia.
      * auto.
    + (* SRelease *)
      destruct Hl as (Eo & Er & Ev).
      eexists _, _, _, _, _. eapply ni_release with (p' := SNotify v k);
        [exact H|exact Hin|rewrite Ep; reflexivity|reflexivity|reflexivity
        |rewrite Ep; reflexivity|exact Eo|exact Er|exact Hm|exact Hpool
        |exact Ev].
    + (* TLoad *)
      pose proof (@not_mine c s i done hd ap t H Hin) as Hne.
      rewrite Ep in Hne. specialize (Hne eq_refl).
      apply Z.eqb_neq in Hne. rewrite Hne in Hpool.
      quiet_step H Hin Hm Hpool Ep. exact Hl.
    + (* TRead *)
      destruct Hl as (Ev & Eo & Er).
      hold_step H Hin Hm Hpool Ep.
      * apply (ni_counter H).
      * rewrite Ep. cbn. lia.
      * auto.
    + (* TWrite *)
      destruct Hl as (Ev & Eo & Er & E0). subst v r0.
      hold_step H Hin Hm Hpool Ep.
      * apply (ni_counter H).
      * rewrite Ep. cbn. lia.
      * split; [exact Eo|]. cbn [Z.add]. apply wrap_depth. lia.
    + (* C2Read *)
      hold_step H Hin Hm Hpool Ep.
      * apply (ni_counter H).
      * rewrite Ep. cbn. lia.
      * intuition.
    + (* C2Write *)
      destruct Hl as (Eo & Er & Ev).
      hold_with (S done) H Hin Hm Hpool Ep.
      * rewrite Ev, (ni_counter H). lia.
      * rewrite Ep. cbn. lia.
      * auto.
    + (* URead *)
      destruct Hl as (Hn & Eo & Er).
      hold_step H Hin Hm Hpool Ep.
      * apply (ni_counter H).
      * rewrite Ep. cbn. lia.
      * auto.
    + (* UWrite *)
      destruct Hl as (Hn & Eo & Er & Ev). subst v.
      assert (Ew : wrap32 (Z.of_nat (S n) - 1) = Z.of_nat n).
      { rewrite <- (@wrap_depth n) by lia. f_equal. lia. }
      rewrite Ew in Hpool.
      destruct n as [|n]; cbn [after_unlock Z.of_nat Z.eqb] in Hpool.
      * hold_step H Hin Hm Hpool Ep.
        -- apply (ni_counter H).
        -- rewrite Ep. cbn. lia.
        -- rewrite Ew. auto.
      * hold_step H Hin Hm Hpool Ep.
        -- apply (ni_counter H).
        -- rewrite Ep. cbn. lia.
        -- rewrite Ew. split; [lia|]. auto.
    + (* UStore *)
      destruct Hl as (Hn & Eo & Er).
      hold_step H Hin Hm Hpool Ep.
      * apply (ni_counter H).
      * rewrite Ep. cbn. lia.
      * auto.
    + (* URelease *)
      destruct Hl as (Hn & Eo & Er).
      eexists _, _, _, _, _. eapply ni_release with (p' := UNotify n k);
        [exact H|exact Hin|rewrite Ep; reflexivity|reflexivity|reflexivity
        |rewrite Ep; reflexivity|exact Eo|exact Er|exact Hm|exact Hpool
        |exact Hn].
  - (* a parked thread resumes by itself *)
    rewrite Ep in Hl. cbn [local_ok] in Hl.
    quiet_step H Hin Hm Hpool Ep. exact Hl.
  - (* a notify *)
    assert (Hq : exists p1, p' = p1 /\ holds (ap t) = false /\ holds p1 = false /\
                   waiting p1 = waiting (ap t) /\
                   bumps_left p1 = bumps_left (ap t) /\
                   local_ok d0 (c_mem c) s t p1 /\ waiting (ap t) = None).
    { exists p'. split; [reflexivity|].
      destruct (ap t) as [[|k]|h r k|x|g x|g cur x|g x|g x|g cur x|x|h r k|h v r k
                |k|v k|k|k|v k|v k|v k|v k|v k|v k|v r0 k|k|v k
                |n k|n v k|n k|n k|n k] eqn:Ep;
        cbn [after_notify] in Hn; try discriminate;
        inversion Hn; subst p'; cbn [local_ok] in Hl.
      - cbn. auto 7.
      - subst n. cbn. auto 7. }
    destruct Hq as (p1 & -> & Hh & Hh1 & Hw1 & Hb1 & Hl1 & Hw0).
    destruct Hw as [(-> & _ & Hpool)|(u & -> & Huin & Hsl & Hpool)].
    + eexists _, _, _, _, _. eapply ni_quiet; eauto.
    + rewrite (ni_code H) in Hsl, Hpool.
      destruct (@sleeping_rcode _ _ _ _ Hsl) as (g' & x' & Eu).
      rewrite Eu in Hpool.
      change (wake (rcode d0 u (QSleep g' x'))) with (rcode d0 u (QReload g' x'))
        in Hpool.
      assert (Hut : u <> t).
      { intros ->. rewrite Eu in Hw0. discriminate. }
      set (c1 := mkConfig (c_mem c) (upd (c_pool c) t (rcode d0 t p1))).
      assert (H1 : NInv c1 s i done hd (set_rpc ap t p1)).
      { eapply ni_quiet; eauto. }
      eexists _, _, _, _, _.
      eapply ni_quiet with (c := c1) (t := u) (p' := QReload g' x');
        [exact H1|exact Huin|exact Hm|exact Hpool| | | | |].
      * rewrite set_rpc_other by exact Hut. rewrite Eu. reflexivity.
      * reflexivity.
      * rewrite set_rpc_other by exact Hut. rewrite Eu. reflexivity.
      * rewrite set_rpc_other by exact Hut. rewrite Eu. reflexivity.
      * pose proof (ni_local H u) as Hlu. rewrite Eu in Hlu. exact Hlu.
Qed.

Lemma nested_exec_invariant tr c :
  exec ts (nested_start (S d0) K) tr c ->
  exists s i done hd ap, NInv c s i done hd ap.
Proof.
  induction 1 as [|tr c lab c' _ (s & i & done & hd & ap & IH) Hs].
  - do 5 eexists. apply nested_inv_start.
  - eapply nested_step; eassumption.
Qed.

End NestedInvariant.

(** ** The test can run to its end *)

Lemma step_alone ts t c p e m' p' :
  In t ts -> c_pool c t = Running p ->
  thread_step p (c_mem c) = Step e m' p' ->
  parks e (c_mem c) = None -> all_awake ts c ->
  step ts c (Did t e) (mkConfig m' (upd (c_pool c) t (Running p'))).
Proof.
  intros Hin Hp Hs Hk Ha. exists t, None. split; [exact Hin|].
  unfold sched. rewrite Hp, Hs, Hk.
  destruct (notifies e) as [l|]; [|reflexivity].
  assert (E : existsb (fun u => sleeping_on l (c_pool c u)) ts = false).
  { destruct (existsb _ ts) eqn:E; [|reflexivity].
    apply existsb_exists in E. destruct E as (u & Hu & E).
    rewrite (Ha l u Hu) in E. discriminate. }
  rewrite E. reflexivity.
Qed.

Lemma all_awake_upd ts c m' t p :
  all_awake ts c -> all_awake ts (mkConfig m' (upd (c_pool c) t (Running p))).
Proof.
  intros H l u Hu. cbn. unfold upd. destruct (u =? t); [reflexivity|apply H, Hu].
Qed.

(** A program that returns when run alone can be run to its end among
    threads none of which is parked. *)
Lemma solo_path ts t (a : unit) m' evs fuel :
  forall p c,
    In t ts -> c_pool c t = Running p -> all_awake ts c ->
    solo fuel p (c_mem c) = Returned a m' evs ->
    exists tr c',
      path ts c tr c' /\ c_mem c' = m' /\ c_pool c' t = Running (Ret a) /\
      (forall u, u <> t -> c_pool c' u = c_pool c u) /\ all_awake ts c'.
Proof.
  revert evs. induction fuel as [|n IH]; intros evs p c Hin Hp Ha Hs;
    [discriminate|].
  cbn [solo] in Hs.
  destruct (thread_step p (c_mem c)) as [a0|e m1 p1] eqn:Et.
  - inversion Hs; subst. exists [], c. split; [apply path_nil|].
    split; [reflexivity|]. split; [|auto].
    destruct p; cbn in Et; try discriminate; [|destruct cur; discriminate].
    inversion Et; subst. exact Hp.
  - destruct (parks e (c_mem c)) eqn:Ek; [discriminate|].
    apply prepend_returned in Hs. destruct Hs as (evs' & Hs & _).
    pose proof (@step_alone ts t c p e m1 p1 Hin Hp Et Ek Ha) as St.
    destruct (IH evs' p1 (mkConfig m1 (upd (c_pool c) t (Running p1))))
      as (tr & c' & P & Hm & Hpt & Ho & Ha').
    + exact Hin.
    + cbn. apply upd_same.
    + apply all_awake_upd. exact Ha.
    + exact Hs.
    + eexists. exists c'. split; [eapply path_cons; [exact St|exact P]|].
      split; [exact Hm|]. split; [exact Hpt|]. split; [|exact Ha'].
      intros u Hu. rewrite (Ho u Hu). cbn. apply upd_other. exact Hu.
Qed.

Lemma lock_n_runs t n :
  forall h m,
    held_by t (Z.of_nat h) m -> Z.of_nat (h + n) < 2 ^ 32 ->
    exists m1 evs,
      runs (lock_n n t) m tt m1 evs /\ held_by t (Z.of_nat (h + n)) m1.
Proof.
  induction n as [|n IH]; intros h m H Hb.
  - exists m, []. split; [apply runs_Ret|].
    rewrite Nat.add_0_r. exact H.
  - destruct (@lock_again_holds t (Z.of_nat h) m H) as (m1 & R1 & H1); [lia|].
    replace (Z.of_nat h + 1) with (Z.of_nat (S h)) in H1 by lia.
    destruct (IH (S h) m1 H1) as (m2 & e2 & R2 & H2); [lia|].
    exists m2. eexists. split.
    + cbn [lock_n]. eapply runs_bind; [exact R1|exact R2].
    + replace (h + S n)%nat with (S h + n)%nat by lia. exact H2.
Qed.

Lemma unlock_n_runs t n :
  forall m,
    held_by t (Z.of_nat (S n)) m ->
    exists m1 evs, runs (unlock_n (S n)) m tt m1 evs /\ free m1.
Proof.
  induction n as [|n IH]; intros m H.
  - destruct (@unlock_last_frees t m H) as (m1 & e1 & R1 & F1 & _).
    exists m1. eexists. split; [|exact F1].
    cbn [unlock_n]. eapply runs_bind; [exact R1|apply runs_Ret].
  - destruct (@unlock_inner_holds t (Z.of_nat (S (S n))) m H) as (m1 & e1 & R1 & H1);
      [lia|].
    replace (Z.of_nat (S (S n)) - 1) with (Z.of_nat (S n)) in H1 by lia.
    destruct (IH m1 H1) as (m2 & e2 & R2 & F2).
    exists m2. eexists. split; [|exact F2].
    change (unlock_n (S (S n)))
      with (recursive_ticket_lock.unlock ;; unlock_n (S n)).
    eapply runs_bind; [exact R1|exact R2].
Qed.

Lemma bump_runs t d m :
  held_by t d m -> exists m1 evs, runs bump m tt m1 evs /\ held_by t d m1.
Proof.
  intros H. exists (wr l_counter (counter m + 1) m). eexists. split.
  - unfold bump. norm_prog. one_step. one_step. one_step.
  - destruct m as [a b o r c]. exact H.
Qed.

Lemma pause_runs t d m :
  held_by t d m -> exists m1 evs, runs (pause t) m tt m1 evs /\ held_by t d m1.
Proof.
  intros H.
  destruct (@suspend_frees t d m H) as (m1 & e1 & R1 & F1 & _).
  assert (Hd : 0 < d < 2 ^ 32).
  { destruct H as (Hwf & _ & _ & Hr & Hd & _).
    destruct Hwf as (_ & _ & _ & Hw). lia. }
  assert (Ht : valid_tid t) by apply H.
  destruct (@destroy_restores t d m1 Ht Hd F1) as (m2 & e2 & R2 & H2 & _).
  exists m2. eexists. split; [|exact H2].
  unfold pause. eapply runs_bind; [exact R1|exact R2].
Qed.

Lemma nested_runs d0 t K :
  valid_tid t -> Z.of_nat (S d0) < 2 ^ 32 ->
  forall m, free m ->
    exists m' evs, runs (nested (S d0) K t) m tt m' evs /\ free m'.
Proof.
  intros Ht Hb. induction K as [|K IH]; intros m F.
  - exists m, []. split; [apply runs_Ret|exact F].
  - destruct (@lock_free_holds t m Ht F) as (m1 & e1 & R1 & H1 & _).
    destruct (@lock_n_runs t d0 1 m1 H1) as (m2 & e2 & R2 & H2); [lia|].
    replace (1 + d0)%nat with (S d0) in H2 by lia.
    destruct (@bump_runs t _ m2 H2) as (m3 & e3 & R3 & H3).
    destruct (@pause_runs t _ m3 H3) as (m4 & e4 & R4 & H4).
    destruct (@bump_runs t _ m4 H4) as (m5 & e5 & R5 & H5).
    destruct (@unlock_n_runs t d0 m5 H5) as (m6 & e6 & R6 & F6).
    destruct (IH m6 F6) as (m7 & e7 & R7 & F7).
    exists m7. eexists. split; [|exact F7].
    change (nested (S d0) (S K) t)
      with ((recursive_ticket_lock.lock t ;; lock_n d0 t) ;;
            bump ;; pause t ;; bump ;; unlock_n (S d0) ;; nested (S d0) K t).
    eapply runs_bind.
    { eapply runs_bind; [exact R1|exact R2]. }
    eapply runs_bind; [exact R3|].
    eapply runs_bind; [exact R4|].
    eapply runs_bind; [exact R5|].
    eapply runs_bind; [exact R6|exact R7].
Qed.

Lemma all_nested d0 K ts l :
  Z.of_nat (S d0) < 2 ^ 32 -> Forall valid_tid ts ->
  incl l ts -> NoDup l ->
  forall c,
    (forall u, In u l -> c_pool c u = Running (nested (S d0) K u)) ->
    all_awake ts c -> free (c_mem c) ->
    exists tr c',
      path ts c tr c' /\
      (forall u, In u l -> finished (c_pool c' u) = true) /\
      (forall u, ~ In u l -> c_pool c' u = c_pool c u).
Proof.
  intros Hb Hv. induction l as [|t l IH]; intros Hincl Hnd c Hw Ha Hf.
  - exists [], c. split; [apply path_nil|]. split; [intros u []|auto].
  - inversion Hnd as [|? ? Hnt Hnd']; subst.
    assert (Hin : In t ts) by (apply Hincl; left; reflexivity).
    assert (Ht : valid_tid t).
    { rewrite Forall_forall in Hv. apply Hv, Hin. }
    destruct (@nested_runs d0 t K Ht Hb (c_mem c) Hf) as (m1 & evs & [fuel R] & F1).
    destruct (@solo_path ts t tt m1 evs fuel _ c Hin (Hw t (or_introl eq_refl)) Ha R)
      as (tr1 & c1 & P1 & Hm1 & Hp1 & Ho1 & Ha1).
    destruct (IH (fun u Hu => Hincl u (or_intror Hu)) Hnd' c1)
      as (tr2 & c2 & P2 & Hd2 & Ho2).
    { intros u Hu. rewrite Ho1; [apply Hw; right; exact Hu|].
      intros ->. contradiction. }
    { exact Ha1. }
    { rewrite Hm1. exact F1. }
    exists (tr1 ++ tr2), c2. split; [eapply path_app; eassumption|]. split.
    + intros u [<-|Hu]; [|apply Hd2, Hu].
      rewrite (Ho2 t Hnt), Hp1. reflexivity.
    + intros u Hu. rewrite Ho2 by (intros Hl; apply Hu; right; exact Hl).
      apply Ho1. intros ->. apply Hu. left. reflexivity.
Qed.

Lemma nested_can_finish d0 K ts :
  Z.of_nat (S d0) < 2 ^ 32 -> Forall valid_tid ts -> NoDup ts ->
  exists tr c, exec ts (nested_start (S d0) K) tr c /\ all_finished ts c.
Proof.
  intros Hb Hv Hnd.
  destruct (@all_nested d0 K ts ts Hb Hv (incl_refl ts) Hnd (nested_start (S d0) K))
    as (tr & c & P & Hd & _).
  - intros u _. reflexivity.
  - intros l u _. reflexivity.
  - exact free_fresh.
  - exists tr, c. split; [|exact Hd].
    apply (exec_path (exec_init ts (nested_start (S d0) K)) P).
Qed.

Lemma in_cs_idle d0 t K : in_cs (rcode d0 t (QIdle K)) = false.
Proof. destruct K; reflexivity. Qed.

(** X10.  The recursive lock under contention.  [N] threads each run
    [K] rounds of: [lock()] [d] times over, [counter += 1], a
    [suspend()] whose token dies at once, [counter += 1] again,
    [unlock()] [d] times ([1 <= d < 2^32]).  The test can run to its
    end.  In every execution at most one thread is at an increment of
    the counter at any time; a thread at an increment, the second one
    included, finds itself the owner at depth [d]; and whenever all
    threads have finished the counter is [2 * N * K]. *)
Theorem recursive_lock_excludes (ts : list tid) (d K : nat)
  (Hdistinct : NoDup ts) (Hvalid : Forall valid_tid ts)
  (Hd : (1 <= d)%nat) (Hsmall : Z.of_nat d < 2 ^ 32) :
  (exists tr c, exec ts (nested_start d K) tr c /\ all_finished ts c) /\
  forall tr c,
    exec ts (nested_start d K) tr c ->
    (forall t u,
        in_cs (c_pool c t) = true -> in_cs (c_pool c u) = true -> t = u) /\
    (forall t,
        in_cs (c_pool c t) = true ->
        _owner (c_mem c) = t /\ _recursion (c_mem c) = Z.of_nat d) /\
    (all_finished ts c ->
     counter (c_mem c) = 2 * Z.of_nat (length ts) * Z.of_nat K).
Proof.
  destruct d as [|d0]; [lia|]. clear Hd.
  split; [apply nested_can_finish; assumption|].
  intros tr c He.
  destruct (@nested_exec_invariant d0 ts K Hdistinct Hvalid Hsmall tr c He)
    as (s & i & done & hd & ap & H).
  assert (Hcs : forall t, in_cs (c_pool c t) = true ->
                holds (ap t) = true /\
                _owner (c_mem c) = t /\ _recursion (c_mem c) = Z.of_nat (S d0)).
  { intros t Ht. rewrite (ni_code H) in Ht.
    assert (Hin : In t ts).
    { destruct (in_dec Z.eq_dec t ts) as [Hin|Hin]; [exact Hin|].
      rewrite (ni_outside H t Hin), in_cs_idle in Ht. discriminate. }
    assert (Hv : valid_tid t).
    { rewrite Forall_forall in Hvalid. apply Hvalid, Hin. }
    pose proof (ni_local H t) as Hl.
    destruct (@in_cs_rcode d0 t (ap t) Hv Ht) as (k & [E|[(v & E)|[E|(v & E)]]]);
      rewrite E in Hl |- *; cbn in Hl |- *; intuition. }
  split; [|split].
  - intros t u Ht Hu.
    destruct (Hcs t Ht) as (Ht' & _). destruct (Hcs u Hu) as (Hu' & _).
    pose proof (ni_holder H _ Ht'). pose proof (ni_holder H _ Hu'). congruence.
  - intros t Ht. apply (Hcs t Ht).
  - intros Hfin.
    assert (Hrem : total (fun t => bumps_left (ap t)) ts = 0%nat).
    { apply total_zero. intros t Ht.
      rewrite (@finished_rcode d0 t (ap t)); [reflexivity|].
      rewrite <- (ni_code H). apply Hfin, Ht. }
    pose proof (ni_bumps H) as Hb. rewrite Hrem, total_const in Hb.
    rewrite (ni_counter H). unfold tid in *. lia.
Qed.

Lemma recursive_lock_excludes_witness :
  NoDup [1; 2; 3] /\ Forall valid_tid [1; 2; 3] /\ (1 <= 2)%nat /\
  Z.of_nat 2 < 2 ^ 32 /\
  forall tr c,
    exec [1; 2; 3] (nested_start 2 1) tr c ->
    all_finished [1; 2; 3] c -> counter (c_mem c) = 6.
Proof.
  assert (Hd : NoDup [1; 2; 3]).
  { repeat constructor; cbn; intuition; discriminate. }
  assert (Hv : Forall valid_tid [1; 2; 3]).
  { repeat constructor; unfold valid_tid; lia. }
  assert (H1 : (1 <= 2)%nat) by lia.
  assert (H2 : Z.of_nat 2 < 2 ^ 32) by (cbn; lia).
  split; [exact Hd|]. split; [exact Hv|]. split; [exact H1|]. split; [exact H2|].
  intros tr c He.
  exact (proj2 (proj2 (proj2 (@recursive_lock_excludes [1; 2; 3] 2 1 Hd Hv H1 H2)
                               tr c He))).
Defined.

(** A run in which the lock changes hands during a suspension: what the
    memory holds and whether thread 1 is parked after
    [taken_while_suspended], and the counter at the end of
    [handed_back] with both threads finished. *)
Example lock_changes_hands :
  option_map (fun r => (c_mem (snd r),
                        sleeping_on l_now_serving (c_pool (snd r) 1)))
    (run [1; 2] taken_while_suspended (nested_start 1 1)) =
  Some (mkMem 3 1 2 1 2, true) /\
  option_map (fun r => (c_mem (snd r), finished (c_pool (snd r) 1),
                        finished (c_pool (snd r) 2)))
    (run [1; 2] handed_back (nested_start 1 1)) =
  Some (mkMem 4 4 0 0 4, true, true).
Proof. split; vm_compute; reflexivity. Qed.

(** ** The owner and the inner lock *)

Lemma holder_depth d0 m s u p :
  holds p = true -> local_ok d0 m s u p ->
  0 <= _recursion m <= Z.of_nat (S d0).
Proof.
  destruct p; cbn [holds local_ok]; try discriminate; intros _ H;
    decompose [and] H; lia.
Qed.

(** X4.  The owner and the inner lock under contention.  In every state
    of every execution of the test of the recursive lock: when the inner
    ticket lock is free ([_next_ticket = _now_serving]) there is no owner
    and the count is 0; when [_owner] is not 0 it is the identifier of
    one of the threads and a ticket is outstanding (there may be more
    than one: threads waiting behind the owner have drawn theirs); and
    the count never goes beyond the depth [d] of the test. *)
Theorem owner_holds_inner_lock (ts : list tid) (d K : nat)
  (Hdistinct : NoDup ts) (Hvalid : Forall valid_tid ts)
  (Hd : (1 <= d)%nat) (Hsmall : Z.of_nat d < 2 ^ 32)
  (tr : list moment) (c : config)
  (He : exec ts (nested_start d K) tr c) :
  (_next_ticket (c_mem c) = _now_serving (c_mem c) ->
   _owner (c_mem c) = 0 /\ _recursion (c_mem c) = 0) /\
  (_owner (c_mem c) <> 0 ->
   In (_owner (c_mem c)) ts /\
   _next_ticket (c_mem c) <> _now_serving (c_mem c)) /\
  0 <= _recursion (c_mem c) <= Z.of_nat d.
Proof.
  destruct d as [|d0]; [lia|]. clear Hd.
  destruct (@nested_exec_invariant d0 ts K Hdistinct Hvalid Hsmall tr c He)
    as (s & i & done & hd & ap & H).
  pose proof (ni_held H) as Hh. destruct hd as [u|].
  - destruct Hh as [Hu _].
    pose proof (@holder_in d0 ts K c s i done (Some u) ap u H Hu) as Hin.
    assert (Hne : _next_ticket (c_mem c) <> _now_serving (c_mem c)).
    { rewrite (ni_next H), (ni_serving H). intros E.
      pose proof (ni_count H) as Hc.
      pose proof (@total_ge (fun t => outstanding (ap t)) u ts Hin) as Hge.
      cbn beta in Hge. unfold outstanding at 1 in Hge.
      rewrite (@holds_not_waiting _ Hu), Hu in Hge.
      assert (Hs : Z.of_nat i - Z.of_nat s < 2 ^ 32)
        by (eapply nested_outstanding_small; eassumption).
      assert (i = s) by (apply ticket_no_close; [lia|lia|exact E]).
      lia. }
    split; [intros E; contradiction|]. split.
    + intros Ho. split; [|exact Hne].
      destruct (@holder_owner d0 _ _ _ _ Hu (ni_local H u)) as [E|E];
        [rewrite E; exact Hin|contradiction].
    + exact (@holder_depth d0 _ _ _ _ Hu (ni_local H u)).
  - destruct Hh as [Eo Er]. split; [auto|]. split; [intros Ho; contradiction|].
    rewrite Er. lia.
Qed.

Lemma owner_holds_inner_lock_witness :
  NoDup [1; 2] /\ Forall valid_tid [1; 2] /\ (1 <= 1)%nat /\
  Z.of_nat 1 < 2 ^ 32 /\
  exists tr c,
    exec [1; 2] (nested_start 1 1) tr c /\
    _owner (c_mem c) = 2 /\
    In (_owner (c_mem c)) [1; 2] /\
    _next_ticket (c_mem c) <> _now_serving (c_mem c).
Proof.
  assert (Hd : NoDup [1; 2]).
  { repeat constructor; cbn; intuition; discriminate. }
  assert (Hv : Forall valid_tid [1; 2]).
  { repeat constructor; unfold valid_tid; lia. }
  assert (H1 : (1 <= 1)%nat) by lia.
  assert (H2 : Z.of_nat 1 < 2 ^ 32) by (cbn; lia).
  split; [exact Hd|]. split; [exact Hv|]. split; [exact H1|]. split; [exact H2|].
  assert (Er : option_map (fun r => _owner (c_mem (snd r)))
                 (run [1; 2] taken_while_suspended (nested_start 1 1)) = Some 2)
    by (vm_compute; reflexivity).
  destruct (run [1; 2] taken_while_suspended (nested_start 1 1))
    as [[tr c]|] eqn:E; [|discriminate Er].
  pose proof (run_exec _ _ _ E) as He.
  assert (Eo : _owner (c_mem c) = 2) by (injection Er as Er; exact Er).
  exists tr, c. split; [exact He|]. split; [exact Eo|].
  apply (proj1 (proj2 (@owner_holds_inner_lock [1; 2] 1 1 Hd Hv H1 H2 tr c He))).
  rewrite Eo. discriminate.
Defined.
